(** * process_docs.py: the markup stripper, the frontmatter normalizer
    and the methods that work on files

    A shallow embedding of the class [DocsMigrator] and of [main].
    Documents are Python [str] values, modelled as lists of Unicode code
    points.  The regular expressions of the source are terms of a small
    pattern language that is run by a backtracking matcher with the
    priorities of Python's [re] module.  The methods that read and write
    files pass the file tree and the log along.

    The file has the definitions first: [Text] (strings), [Re] (the
    matcher and [re.sub]), [Yaml] (values and the library), [DocsMigrator]
    (the two methods on text), [Frontmatter], [Markup] and [Order] (the
    notions that the statements use), [Paths], [Disk] and [Codec] (paths,
    the file tree, reading and writing text), [Migration] (the methods on
    files) and [Sample].  The facts follow: first those about the
    stripper and the normalizer, then those about single tags, comments,
    the frontmatter block and the run over a directory. *)

From Stdlib Require Import Ascii String.
From Stdlib Require Import DecimalString.
From Stdlib Require Import List NArith ZArith Bool Lia Permutation Sorted.
Import ListNotations.

Set Implicit Arguments.

(* ================================================================== *)
(** ** Text: Python [str] as a list of code points *)

Module Text.

Definition char := N.
Definition str := list char.

Definition nl : char := 10%N.
Definition tab : char := 9%N.
Definition space : char := 32%N.
Definition dquote : char := 34%N.
Definition squote : char := 39%N.
Definition backslash : char := 92%N.
Definition lt : char := 60%N.
Definition gt : char := 62%N.
Definition slash : char := 47%N.
Definition lbrace : char := 123%N.

(** [lit] reads a literal the way the Python source writes it: a backslash
    followed by [n], [t] or a backslash is the usual escape, and a
    backslash followed by [q] stands for the double quote character. *)
Fixpoint unescape (l : list ascii) : str :=
  match l with
  | [] => []
  | a :: l' =>
      if (N_of_ascii a =? backslash)%N then
        match l' with
        | b :: l'' =>
            if (N_of_ascii b =? 110)%N then nl :: unescape l''
            else if (N_of_ascii b =? 116)%N then tab :: unescape l''
            else if (N_of_ascii b =? 113)%N then dquote :: unescape l''
            else if (N_of_ascii b =? backslash)%N then backslash :: unescape l''
            else backslash :: unescape l'
        | [] => [backslash]
        end
      else N_of_ascii a :: unescape l'
  end.

Definition lit (s : String.string) : str :=
  unescape (String.list_ascii_of_string s).

(** Python's [str.isspace] on one character, which is also what [\s]
    matches in a [str] pattern. *)
Definition is_space (c : char) : bool :=
  ((9 <=? c) && (c <=? 13) || (28 <=? c) && (c <=? 32)
   || (c =? 133) || (c =? 160) || (c =? 5760)
   || (8192 <=? c) && (c <=? 8202)
   || (c =? 8232) || (c =? 8233) || (c =? 8239) || (c =? 8287)
   || (c =? 12288))%N.

Fixpoint drop_while (p : char -> bool) (s : str) : str :=
  match s with
  | x :: s' => if p x then drop_while p s' else s
  | [] => []
  end.

(** [s.strip(chars)] and [s.strip()] *)
Definition strip_with (p : char -> bool) (s : str) : str :=
  rev (drop_while p (rev (drop_while p s))).

Definition strip (s : str) : str := strip_with is_space s.

Definition mem_chars (chars : str) (c : char) : bool :=
  existsb (N.eqb c) chars.

Fixpoint starts_with (p s : str) : bool :=
  match p, s with
  | [], _ => true
  | a :: p', b :: s' => (a =? b)%N && starts_with p' s'
  | _ :: _, [] => false
  end.

(** [p in s] for two strings *)
Fixpoint contains (p s : str) : bool :=
  starts_with p s ||
  match s with
  | [] => false
  | _ :: s' => contains p s'
  end.

Definition str_eqb (a b : str) : bool :=
  (length a =? length b)%nat && starts_with a b.

End Text.

Import Text.

(* ================================================================== *)
(** ** Re: the fragment of Python's [re] used by the source *)

Module Re.

(** Character classes: [.] under DOTALL, [\s], [[^c]] and a literal. *)
Inductive cls := Any | Space | Not (c : char) | Is (c : char).

Definition mem (k : cls) (x : char) : bool :=
  match k with
  | Any => true
  | Space => is_space x
  | Not c => negb (x =? c)%N
  | Is c => (x =? c)%N
  end.

Inductive greed := Greedy | Lazy.

(** One item of a pattern: a single character of a class, a starred class
    ([k*] or [k*?]), and the anchors [^] and [$] under MULTILINE. *)
Inductive atom :=
| One (k : cls)
| Star (g : greed) (k : cls)
| Bol
| Eol.

Definition regex := list atom.

Definition chars (s : str) : regex := map (fun c => One (Is c)) s.

(** [^] matches at the start of the text and right after a newline. *)
Definition at_line_start (prev : option char) : bool :=
  match prev with
  | None => true
  | Some c => (c =? nl)%N
  end.

(** [$] matches at the end of the text and right before a newline. *)
Definition at_line_end (s : str) : bool :=
  match s with
  | [] => true
  | c :: _ => (c =? nl)%N
  end.

(** The matcher answers the length of the match found first by
    backtracking, if there is one.  [prev] is the character before the
    current position. *)
Definition cont := option char -> str -> option nat.

Fixpoint star_greedy (k : cls) (next : cont) (prev : option char) (s : str)
  : option nat :=
  match s with
  | x :: s' =>
      if mem k x then
        match star_greedy k next (Some x) s' with
        | Some n => Some (S n)
        | None => next prev s
        end
      else next prev s
  | [] => next prev []
  end.

Fixpoint star_lazy (k : cls) (next : cont) (prev : option char) (s : str)
  : option nat :=
  match next prev s with
  | Some n => Some n
  | None =>
      match s with
      | x :: s' =>
          if mem k x then option_map S (star_lazy k next (Some x) s')
          else None
      | [] => None
      end
  end.

Fixpoint match_here (r : regex) : cont :=
  match r with
  | [] => fun _ _ => Some 0
  | One k :: r' =>
      fun _ s =>
        match s with
        | x :: s' =>
            if mem k x then option_map S (match_here r' (Some x) s')
            else None
        | [] => None
        end
  | Star Greedy k :: r' => star_greedy k (match_here r')
  | Star Lazy k :: r' => star_lazy k (match_here r')
  | Bol :: r' =>
      fun prev s => if at_line_start prev then match_here r' prev s else None
  | Eol :: r' =>
      fun prev s => if at_line_end s then match_here r' prev s else None
  end.

(** [re.match(r, s)]: the length of the match at the start of [s]. *)
Definition match_start (r : regex) (s : str) : option nat :=
  match_here r None s.

(** [re.search(r, s) is not None] *)
Fixpoint search_from (r : regex) (prev : option char) (s : str) : bool :=
  match match_here r prev s with
  | Some _ => true
  | None =>
      match s with
      | x :: s' => search_from r (Some x) s'
      | [] => false
      end
  end.

Definition search (r : regex) (s : str) : bool := search_from r None s.

(** [re.sub(r, repl, s)] for a replacement without group references.
    The scan goes left to right; [skip] counts the characters of the
    current match that are still to be passed over.  A match of no
    character puts the replacement in front of the character and moves
    on, as Python does since 3.7; no pattern of the source matches the
    empty text. *)
Fixpoint sub_from (r : regex) (repl : str) (prev : option char) (skip : nat)
  (s : str) : str :=
  match s with
  | [] =>
      match skip, match_here r prev [] with
      | O, Some _ => repl
      | _, _ => []
      end
  | x :: s' =>
      match skip with
      | S k => sub_from r repl (Some x) k s'
      | O =>
          match match_here r prev s with
          | Some (S k) => repl ++ sub_from r repl (Some x) k s'
          | Some O => repl ++ x :: sub_from r repl (Some x) 0 s'
          | None => x :: sub_from r repl (Some x) 0 s'
          end
      end
  end.

Definition sub (r : regex) (repl : str) (s : str) : str :=
  sub_from r repl None 0 s.

(** The character before the position reached after reading [u]. *)
Fixpoint last_of (prev : option char) (u : str) : option char :=
  match u with
  | [] => prev
  | x :: u' => last_of (Some x) u'
  end.

(** What a pattern can match, without the priorities: [matches r prev s n]
    says that [r] matches the first [n] characters of [s]. *)
Inductive matches : regex -> option char -> str -> nat -> Prop :=
| m_nil prev s : matches [] prev s 0
| m_one k r prev x s n :
    mem k x = true -> matches r (Some x) s n ->
    matches (One k :: r) prev (x :: s) (S n)
| m_star_stop g k r prev s n :
    matches r prev s n -> matches (Star g k :: r) prev s n
| m_star_step g k r prev x s n :
    mem k x = true -> matches (Star g k :: r) (Some x) s n ->
    matches (Star g k :: r) prev (x :: s) (S n)
| m_bol r prev s n :
    at_line_start prev = true -> matches r prev s n ->
    matches (Bol :: r) prev s n
| m_eol r prev s n :
    at_line_end s = true -> matches r prev s n ->
    matches (Eol :: r) prev s n.

End Re.

Import Re.


(* ================================================================== *)
(** ** Yaml: the values and the part of PyYAML that frontmatter uses

    [yaml.safe_load] and [yaml.dump] belong to the PyYAML library, not
    to the repository.  The normalizer below takes the two functions as a
    parameter [yaml], so that what is proved for every [yaml] holds for
    the library as it is.  [Yaml.pyyaml] describes what PyYAML 6 does on
    flat frontmatter: one [key: value] pair per line, the value a plain
    word, an integer or a quoted string; it follows the scanner, the
    implicit resolver, the representer and the emitter of the library.
    A text or a field set outside that fragment is answered with [None],
    and so is the normalizer on it. *)

Module Yaml.

(** The Python objects that a block of scalars, lists and mappings loads
    to: [None], [bool], [int], [str], [list] and [dict]. *)
#[warnings="-register-all"]
Inductive value :=
| Null
| Bool (b : bool)
| Int (z : Z)
| Str (s : str)
| Seq (l : list value)
| Map (m : list (value * value)).

(** [safe_load] returns an object or raises [yaml.YAMLError]. *)
Inductive load_result := Loaded (v : value) | YAMLError.

(** A Python [dict] with [str] keys, in insertion order. *)
Definition fields := list (str * value).

Fixpoint dict_set (d : fields) (k : str) (v : value) : fields :=
  match d with
  | [] => [(k, v)]
  | (k', v') :: d' =>
      if str_eqb k' k then (k', v) :: d' else (k', v') :: dict_set d' k v
  end.

(** The two functions of the [yaml] module that line 100 and line 120
    call; [dump] stands for the call with [default_flow_style=False,
    allow_unicode=True]. *)
Record yaml_module := {
  safe_load : str -> option load_result;
  dump : fields -> option str
}.

(** *** Loading *)

Definition is_digit (c : char) : bool := ((48 <=? c) && (c <=? 57))%N.
Definition is_letter (c : char) : bool :=
  ((65 <=? c) && (c <=? 90) || (97 <=? c) && (c <=? 122))%N.
Definition is_ident (c : char) : bool :=
  is_letter c || is_digit c || (c =? 95)%N.
Definition is_printable (c : char) : bool := ((32 <=? c) && (c <=? 126))%N.

Fixpoint take_while (p : char -> bool) (s : str) : str :=
  match s with
  | x :: s' => if p x then x :: take_while p s' else []
  | [] => []
  end.

Fixpoint split_on (c : char) (s : str) : list str :=
  match s with
  | [] => [[]]
  | x :: s' =>
      match split_on c s' with
      | l :: ls => if (x =? c)%N then [] :: l :: ls else (x :: l) :: ls
      | [] => [[x]]
      end
  end.

Definition decimal_value (s : str) : Z :=
  fold_left (fun acc c => (10 * acc + Z.of_N (c - 48))%Z) s 0%Z.

(** The implicit resolver on a plain scalar made of letters, digits and
    inner spaces: the words of [bool] and [null], a decimal [int], and
    [str] for the rest.  A scalar that starts with a digit and is not a
    decimal number (octal, hexadecimal, ...) is left out. *)
Definition resolve_plain (s : str) : option value :=
  if existsb (str_eqb s)
       [lit "yes"; lit "Yes"; lit "YES"; lit "true"; lit "True"; lit "TRUE";
        lit "on"; lit "On"; lit "ON"]
  then Some (Bool true)
  else if existsb (str_eqb s)
       [lit "no"; lit "No"; lit "NO"; lit "false"; lit "False"; lit "FALSE";
        lit "off"; lit "Off"; lit "OFF"]
  then Some (Bool false)
  else if existsb (str_eqb s) [lit "null"; lit "Null"; lit "NULL"]
  then Some Null
  else
    match s with
    | [] => None
    | c :: s' =>
        if is_digit c then
          if forallb is_digit s && (negb (c =? 48)%N || str_eqb s (lit "0"))
          then Some (Int (decimal_value s))
          else None
        else if is_letter c || (c =? 95)%N then Some (Str s)
        else None
    end.

Definition plain_text (s : str) : bool :=
  forallb (fun c => is_letter c || is_digit c || (c =? space)%N) s
  && match s, rev s with
     | a :: _, b :: _ => negb (a =? space)%N && negb (b =? space)%N
     | _, _ => false
     end.

Definition quoted_text (q : char) (s : str) : bool :=
  forallb (fun c => is_printable c && negb (c =? q)%N
                    && negb (c =? backslash)%N) s.

(** The scalar after [key: ].  [last] says that the line ends the text:
    a double-quoted scalar that is still open there makes the scanner
    raise. *)
Definition load_scalar (last : bool) (s : str) : option (option value) :=
  match s with
  | [] => None
  | q :: s' =>
      if (q =? dquote)%N || (q =? squote)%N then
        match rev s' with
        | q' :: body =>
            if (q' =? q)%N && quoted_text q (rev body)
            then Some (Some (Str (rev body)))
            else if (q =? dquote)%N && last && quoted_text q s'
            then Some None
            else None
        | [] => if (q =? dquote)%N && last then Some None else None
        end
      else if plain_text s then option_map Some (resolve_plain s)
      else None
  end.

(** One line [key: value] or [key:].  The answer is the pair, or [None]
    inside for a scanner error.  The key is a word of letters, digits and
    underscores, short enough to be a simple key for the scanner. *)
Definition load_line (last : bool) (line : str)
  : option (option (value * value)) :=
  let key := take_while is_ident line in
  match key, skipn (length key) line with
  | c :: _, colon :: after =>
      if negb (is_digit c) && (colon =? 58)%N
         && (length key <=? 1000)%nat then
        match resolve_plain key, after with
        | Some k, [] => Some (Some (k, Null))
        | Some k, sp :: text =>
            if (sp =? space)%N then
              match load_scalar last text with
              | Some (Some v) => Some (Some (k, v))
              | Some None => Some None
              | None => None
              end
            else None
        | None, _ => None
        end
      else None
  | _, _ => None
  end.

(** Python's [==] on the scalars that can be keys. *)
Definition scalar_eqb (a b : value) : bool :=
  match a, b with
  | Null, Null => true
  | Bool x, Bool y => Bool.eqb x y
  | Int x, Int y => (x =? y)%Z
  | Bool x, Int y | Int y, Bool x => (y =? (if x then 1 else 0))%Z
  | Str x, Str y => str_eqb x y
  | _, _ => false
  end.

(** [mapping[key] = value] while the mapping is constructed *)
Fixpoint map_set (m : list (value * value)) (k v : value)
  : list (value * value) :=
  match m with
  | [] => [(k, v)]
  | (k', v') :: m' =>
      if scalar_eqb k' k then (k', v) :: m' else (k', v') :: map_set m' k v
  end.

Fixpoint load_lines (lines : list str) (m : list (value * value))
  : option load_result :=
  match lines with
  | [] => Some (Loaded (Map m))
  | line :: rest =>
      match load_line (match rest with [] => true | _ => false end) line with
      | Some (Some (k, v)) => load_lines rest (map_set m k v)
      | Some None => Some YAMLError
      | None => None
      end
  end.

Definition load_flat (text : str) : option load_result :=
  match text with
  | [] => Some (Loaded Null)
  | _ => load_lines (split_on nl text) []
  end.

(** *** Dumping: [yaml.dump(data, default_flow_style=False,
    allow_unicode=True)] of a [dict] *)

Fixpoint str_ltb (a b : str) : bool :=
  match a, b with
  | [], [] => false
  | [], _ :: _ => true
  | _ :: _, [] => false
  | x :: a', y :: b' => (x <? y)%N || (x =? y)%N && str_ltb a' b'
  end.

(** [sorted(mapping.items())] in [represent_mapping]: [sort_keys] is
    [True] unless the caller says otherwise, and line 120 does not.  The
    keys of a [dict] differ, so the values are never compared. *)
Fixpoint insert_sorted (kv : str * value) (d : fields) : fields :=
  match d with
  | [] => [kv]
  | kv' :: d' =>
      if str_ltb (fst kv') (fst kv) then kv' :: insert_sorted kv d'
      else kv :: d
  end.

Definition sorted_items (d : fields) : fields :=
  fold_right insert_sorted [] d.

(** The order of two entries in the sorted list *)
Definition key_le (a b : str * value) : Prop :=
  str_ltb (fst b) (fst a) = false.

Definition decimal (z : Z) : str :=
  map N_of_ascii
    (list_ascii_of_string (NilZero.string_of_int (Z.to_int z))).

Fixpoint double_squotes (s : str) : str :=
  match s with
  | [] => []
  | c :: s' =>
      if (c =? squote)%N then squote :: squote :: double_squotes s'
      else c :: double_squotes s'
  end.

(** How the emitter writes a scalar value.  [None], [bool] and [int] are
    written plain.  A [str] that starts with a double quote cannot be
    written plain (the quote is an indicator), so [choose_scalar_style]
    takes the single-quoted style and [write_single_quoted] doubles every
    single quote.  A text of printable characters that takes at most 60
    columns stays on one line.  Other strings are left out. *)
Definition dump_scalar (v : value) : option str :=
  match v with
  | Null => Some (lit "null")
  | Bool true => Some (lit "true")
  | Bool false => Some (lit "false")
  | Int z => Some (decimal z)
  | Str s =>
      if starts_with [dquote] s && forallb is_printable s
         && (length (double_squotes s) <=? 60)%nat
      then Some ([squote] ++ double_squotes s ++ [squote])
      else None
  | Seq _ | Map _ => None
  end.

(** The keys that the normalizer can set are written plain. *)
Definition plain_key (k : str) : bool :=
  existsb (str_eqb k) [lit "title"; lit "sidebar_label"; lit "description"].

Fixpoint dump_items (d : fields) : option str :=
  match d with
  | [] => Some []
  | (k, v) :: d' =>
      match dump_scalar v, dump_items d' with
      | Some text, Some more =>
          if plain_key k then Some (k ++ lit ": " ++ text ++ [nl] ++ more)
          else None
      | _, _ => None
      end
  end.

Definition dump_block (d : fields) : option str :=
  match d with
  | [] => Some (lit "{}\n")
  | _ => dump_items (sorted_items d)
  end.

Definition pyyaml : yaml_module :=
  {| safe_load := load_flat; dump := dump_block |}.

End Yaml.

Import Yaml.

(* ================================================================== *)
(** ** DocsMigrator *)

Module DocsMigrator.

(** The local list [components].  The source writes ['TagFilters'
    'Properties'] without a comma between the two literals, which Python
    joins into the single name [TagFiltersProperties]. *)
Definition components : list str :=
  [ lit "Card"; lit "CardGroup"; lit "Tabs"; lit "TabItem";
    lit "ResponseField"; lit "ParamField"; lit "Expandable";
    lit "RequestExample"; lit "ResponseExample"; lit "CodeGroup";
    lit "Tip"; lit "Info"; lit "Warning"; lit "Note"; lit "Steps";
    lit "Step"; lit "Frame"; lit "Check"; lit "CodeBlock"; lit "Col";
    lit "TagFilters" ++ lit "Properties"; lit "Property"; lit "Accordion";
    lit "AccordionGroup"; lit "Update"; lit "Snippet" ].

(** [r'\{/\*\s*Mintlify.*?\*/\}'] with DOTALL *)
Definition comment_re : regex :=
  chars (lit "{/*") ++ [Star Greedy Space] ++ chars (lit "Mintlify")
  ++ [Star Lazy Any] ++ chars (lit "*/}").

(** [f'<{component}[^>]*>.*?</{component}>'] with DOTALL *)
Definition paired_re (component : str) : regex :=
  chars (lit "<" ++ component) ++ [Star Greedy (Not gt)] ++ chars (lit ">")
  ++ [Star Lazy Any] ++ chars (lit "</" ++ component ++ lit ">").

(** [f'<{component}[^>]*/>'] *)
Definition self_closing_re (component : str) : regex :=
  chars (lit "<" ++ component) ++ [Star Greedy (Not gt)] ++ chars (lit "/>").

(** [f'<{component}[^>]*>'] *)
Definition open_re (component : str) : regex :=
  chars (lit "<" ++ component) ++ [Star Greedy (Not gt)] ++ chars (lit ">").

(** [f'</{component}>'] *)
Definition close_re (component : str) : regex :=
  chars (lit "</" ++ component ++ lit ">").

(** [r'\n\s*\n\s*\n'] *)
Definition blank_lines_re : regex :=
  [One (Is nl); Star Greedy Space; One (Is nl); Star Greedy Space;
   One (Is nl)].

(** [r'^\s+$'] with MULTILINE *)
Definition space_line_re : regex :=
  [Bol; One Space; Star Greedy Space; Eol].

(** [r'\s+\n'] *)
Definition trailing_space_re : regex :=
  [One Space; Star Greedy Space; One (Is nl)].

(** Line 67 *)
Definition remove_comments (content : str) : str :=
  sub comment_re [] content.

(** Lines 70 to 72: the first loop over [components] *)
Definition remove_paired (content : str) : str :=
  fold_left (fun acc c => sub (paired_re c) [] acc) components content.

(** Lines 75 to 77: the second loop *)
Definition remove_self_closing (content : str) : str :=
  fold_left (fun acc c => sub (self_closing_re c) [] acc) components content.

(** Lines 80 to 82: the third loop, two substitutions per component *)
Definition remove_bare (content : str) : str :=
  fold_left (fun acc c => sub (close_re c) [] (sub (open_re c) [] acc))
    components content.

(** Line 85 *)
Definition collapse_blank_lines (content : str) : str :=
  sub blank_lines_re [nl; nl] content.

(** Line 86 *)
Definition blank_space_lines (content : str) : str :=
  sub space_line_re [] content.

(** Line 87 *)
Definition strip_before_newline (content : str) : str :=
  sub trailing_space_re [nl] content.

Definition normalize_whitespace (content : str) : str :=
  strip_before_newline (blank_space_lines (collapse_blank_lines content)).

Definition strip_markup (content : str) : str :=
  remove_bare (remove_self_closing (remove_paired (remove_comments content))).

(** The method, with [content.strip()] of line 89 at the end *)
Definition process_mdx_content (content : str) : str :=
  strip (normalize_whitespace (strip_markup content)).


(** *** clean_frontmatter *)

(** The exceptions that the method can let through, and a result that is
    a value or an exception. *)
Inductive exn := AttributeError | TypeError | KeyError.

Inductive result (A : Type) :=
| Ok (a : A)
| Raise (e : exn).
Arguments Ok {A} a.
Arguments Raise {A} e.

Definition bind {A B} (r : result A) (f : A -> result B) : result B :=
  match r with
  | Ok a => f a
  | Raise e => Raise e
  end.

Notation "x <- r ;; k" := (bind r (fun x => k))
  (at level 61, r at next level, right associativity).

(** [self.frontmatter_mapping], in the order of [dict.items()] *)
Definition frontmatter_mapping : list (str * str) :=
  [ (lit "sidebarTitle", lit "sidebar_label");
    (lit "description", lit "description");
    (lit "title", lit "title") ].

(** [r'^---\n(.*?)\n---'] with DOTALL, used through [re.match]: at the
    start of the text [^] is the same with and without MULTILINE. *)
Definition frontmatter_re : regex :=
  [Bol] ++ chars (lit "---\n") ++ [Star Lazy Any] ++ chars (lit "\n---").

(** [group(1)] and [content[len(group(0)):]] of the match *)
Definition frontmatter_match (content : str) : option (str * str) :=
  match match_start frontmatter_re content with
  | Some n => Some (firstn (n - 8) (skipn 4 content), skipn n content)
  | None => None
  end.

(** The truth value of an object, for [yaml.safe_load(fm_content) or {}] *)
Definition truthy (v : value) : bool :=
  match v with
  | Null => false
  | Bool b => b
  | Int z => negb (z =? 0)%Z
  | Str s => match s with [] => false | _ => true end
  | Seq l => match l with [] => false | _ => true end
  | Map m => match m with [] => false | _ => true end
  end.

Definition or_empty_dict (v : value) : value :=
  if truthy v then v else Map [].

Definition is_key (key : str) (v : value) : bool :=
  match v with
  | Str s => str_eqb s key
  | _ => false
  end.

(** [key in data] *)
Definition py_in (key : str) (data : value) : result bool :=
  match data with
  | Map m => Ok (existsb (fun kv => is_key key (fst kv)) m)
  | Seq l => Ok (existsb (is_key key) l)
  | Str s => Ok (contains key s)
  | Null | Bool _ | Int _ => Raise TypeError
  end.

(** [data[key]] for a [str] key *)
Definition py_getitem (data : value) (key : str) : result value :=
  match data with
  | Map m =>
      match find (fun kv => is_key key (fst kv)) m with
      | Some kv => Ok (snd kv)
      | None => Raise KeyError
      end
  | _ => Raise TypeError
  end.

(** Lines 107 and 108: strip the double and single quote characters from
    both ends, then put one pair of double quotes around the text. *)
Definition requote (value : str) : str :=
  [dquote] ++ strip_with (mem_chars [dquote; squote]) value ++ [dquote].

(** Lines 106 to 108 *)
Definition handle_title (fm_data : value) (new_fm : fields) : result fields :=
  present <- py_in (lit "title") fm_data ;;
  if (present : bool) then
    v <- py_getitem fm_data (lit "title") ;;
    match v with
    | Str s => Ok (dict_set new_fm (lit "title") (Str (requote s)))
    | _ => Raise AttributeError
    end
  else Ok new_fm.

(** The body of the loop of lines 111 to 117 *)
Definition map_field (fm_data : value) (new_fm : fields) (item : str * str)
  : result fields :=
  let (old_key, new_key) := item in
  present <- py_in old_key fm_data ;;
  if (present : bool) && negb (str_eqb old_key (lit "title")) then
    v <- py_getitem fm_data old_key ;;
    Ok (dict_set new_fm new_key
          match v with
          | Str s => Str (requote s)
          | _ => v
          end)
  else Ok new_fm.

Fixpoint map_fields (fm_data : value) (new_fm : fields)
  (items : list (str * str)) : result fields :=
  match items with
  | [] => Ok new_fm
  | item :: items' =>
      new_fm' <- map_field fm_data new_fm item ;;
      map_fields fm_data new_fm' items'
  end.

(** Lines 103 to 117: the new field set *)
Definition new_fields (fm_data : value) : result fields :=
  new_fm <- handle_title fm_data [] ;;
  map_fields fm_data new_fm frontmatter_mapping.

Section Normalizer.

Variable yaml : yaml_module.

(** Lines 93 to 127.  The handler of line 125 catches [yaml.YAMLError]
    only and returns the content (its log line is not modelled); another
    exception leaves the method.  The outer [option] is [None] when the
    description of the library does not cover the text at hand. *)
Definition clean_frontmatter (content : str) : option (result str) :=
  match frontmatter_match content with
  | None => Some (Ok content)
  | Some (fm_content, rest) =>
      match safe_load yaml fm_content with
      | None => None
      | Some YAMLError => Some (Ok content)
      | Some (Loaded v) =>
          match new_fields (or_empty_dict v) with
          | Raise e => Some (Raise e)
          | Ok new_fm =>
              match dump yaml new_fm with
              | None => None
              | Some new_fm_str =>
                  Some (Ok (lit "---\n" ++ new_fm_str ++ lit "---\n" ++ rest))
              end
          end
      end
  end.

End Normalizer.

End DocsMigrator.

Import DocsMigrator.

(* ================================================================== *)
(** ** Frontmatter: notions to speak about the field sets *)

Module Frontmatter.

Definition head_key (d : fields) : option str :=
  match d with
  | [] => None
  | (k, _) :: _ => Some k
  end.

(** Every key of the field set is the target of a mapping entry whose
    source is in the parsed data. *)
Definition from_mapping (fm : value) (d : fields) : Prop :=
  forall k v, In (k, v) d ->
    exists src, In (src, k) frontmatter_mapping /\ py_in src fm = Ok true.

(** A pair of the parsed data whose key is a source name of the mapping *)
Definition mapped_field (kv : value * value) : bool :=
  existsb (fun item : str * str => is_key (fst item) (fst kv))
    frontmatter_mapping.

(** The serialized block starts with the title line. *)
Definition title_leads (out : str) : bool :=
  starts_with (lit "---\ntitle:") out.

End Frontmatter.

Import Frontmatter.

(* ================================================================== *)
(** ** Markup: documents seen as text and complete tags *)

Module Markup.

(** A piece of a document: one character of text, an opening tag
    [<name attrs>] (self-closing when [attrs] ends with a slash) or a
    closing tag [</name>]. *)
Inductive token :=
| Text (c : char)
| Open (name attrs : str)
| Close (name : str).

Definition render_token (t : token) : str :=
  match t with
  | Text c => [c]
  | Open name attrs => [lt] ++ name ++ attrs ++ [gt]
  | Close name => [lt; slash] ++ name ++ [gt]
  end.

Definition render (toks : list token) : str :=
  flat_map render_token toks.

Definition text (s : str) : list token := map Text s.

Definition is_component (name : str) : bool :=
  existsb (str_eqb name) components.

Definition angle_free (s : str) : bool :=
  forallb (fun c => negb (c =? lt)%N && negb (c =? gt)%N) s.

(** Text holds no [<]; every tag has the name of a component of the
    stripper and attribute text without [<] and [>]. *)
Definition component_token (t : token) : bool :=
  match t with
  | Text c => negb (c =? lt)%N
  | Open name attrs => is_component name && angle_free attrs
  | Close name => is_component name
  end.

Definition component_doc (toks : list token) : bool :=
  forallb component_token toks.

(** A token of a document whose tags are complete: text holds no [<],
    and what stands between [<] and [>] holds neither of the two.  The
    name can be any name. *)
Definition tag_token (t : token) : bool :=
  match t with
  | Text c => negb (c =? lt)%N
  | Open name attrs =>
      angle_free (name ++ attrs) && negb (starts_with [slash] (name ++ attrs))
  | Close name => angle_free name
  end.

Definition tag_doc (toks : list token) : bool :=
  forallb tag_token toks.

(** The same on the text itself: every [<] is closed by a [>] before the
    next [<].  [inside] says that a tag is open; a [>] outside of a tag is
    text. *)
Fixpoint complete_from (inside : bool) (s : str) : bool :=
  match s with
  | [] => negb inside
  | x :: s' =>
      if (x =? lt)%N then negb inside && complete_from true s'
      else if (x =? gt)%N then complete_from false s'
      else complete_from inside s'
  end.

Definition complete_tags (s : str) : bool := complete_from false s.

Definition space_free (p : str) : bool :=
  forallb (fun c => negb (is_space c)) p.

(** The character before the position is missing or is whitespace. *)
Definition after_space (prev : option char) : bool :=
  match prev with
  | None => true
  | Some c => is_space c
  end.

Definition self_closing (attrs : str) : bool :=
  match rev attrs with
  | c :: _ => (c =? slash)%N
  | [] => false
  end.

(** Tags are paired and no element lies inside an element of the same
    name.  [stack] holds the names of the elements that are open. *)
Fixpoint nested_from (stack : list str) (toks : list token) : bool :=
  match toks with
  | [] => match stack with [] => true | _ => false end
  | Text _ :: toks' => nested_from stack toks'
  | Open name attrs :: toks' =>
      if self_closing attrs then nested_from stack toks'
      else negb (existsb (str_eqb name) stack)
           && nested_from (name :: stack) toks'
  | Close name :: toks' =>
      match stack with
      | top :: stack' => str_eqb top name && nested_from stack' toks'
      | [] => false
      end
  end.

Definition no_same_tag_nesting (toks : list token) : bool :=
  nested_from [] toks.

Definition brace_free (s : str) : bool :=
  forallb (fun c => negb (c =? lbrace)%N) s.

(** No whitespace character stands right before a newline. *)
Fixpoint no_space_before_newline (s : str) : bool :=
  match s with
  | x :: s' =>
      match s' with
      | y :: _ => negb (is_space x && (y =? nl)%N)
      | [] => true
      end && no_space_before_newline s'
  | [] => true
  end.

(** The whitespace at the start of [s] holds a newline. *)
Fixpoint run_has_newline (s : str) : bool :=
  match s with
  | x :: s' => is_space x && ((x =? nl)%N || run_has_newline s')
  | [] => false
  end.

(** Step 5 (c) in the words of the specification: horizontal whitespace
    right before a newline is stripped, and nothing else. *)
Definition is_horizontal (c : char) : bool :=
  is_space c && negb (c =? nl)%N.

Fixpoint spec_strip_trailing_horizontal (s : str) : str :=
  match s with
  | [] => []
  | x :: s' =>
      let rest := spec_strip_trailing_horizontal s' in
      if is_horizontal x && starts_with [nl] rest then rest else x :: rest
  end.

(** The text of a tag between [<] and [>] *)
Definition inner (t : token) : str :=
  match t with
  | Text _ => []
  | Open name attrs => name ++ attrs
  | Close name => slash :: name
  end.

(** A name made of letters, as the names of [components] are *)
Definition name_ok (c : str) : Prop :=
  c <> [] /\ forallb is_letter c = true.

(** The document holds neither [<c] nor [</c>]. *)
Definition no_tag_of (c : str) (s : str) : Prop :=
  contains (lit "<" ++ c) s = false
  /\ contains (lit "</" ++ c ++ lit ">") s = false.

(** The pattern did not match where the token starts. *)
Definition survives (r : regex) (t : token) : Prop :=
  exists p rest, match_here r p (render (t :: rest)) = None.

Definition untouched (c : str) (t : token) : Prop :=
  survives (open_re c) t /\ survives (close_re c) t.

(** A pattern that starts with [<] and that, at a token, matches up to
    the end of that token or of a later one. *)
Definition tag_pattern (r : regex) : Prop :=
  (forall p s n, matches r p s n -> exists s', s = lt :: s')
  /\ (forall p t toks n,
        tag_token t = true -> tag_doc toks = true ->
        matches r p (render (t :: toks)) n ->
        exists pre post,
          toks = pre ++ post /\ n = length (render (t :: pre))).

(** A pattern that matches whitespace only and that, where the
    replacement is empty, matches only behind whitespace or at the start
    of the text. *)
Definition space_pattern (r : regex) (repl : str) : Prop :=
  forall prev s n,
    match_here r prev s = Some n ->
    exists m rest, s = m ++ rest /\ n = length m /\ m <> []
                   /\ forallb is_space m = true
                   /\ (repl = [] -> after_space prev = true).

(** What follows [\s+] in the pattern of line 87 *)
Definition newline_next : cont := match_here [One (Is nl)].

End Markup.

Import Markup.

Unset Implicit Arguments.

(* ================================================================== *)
(** ** Order: what a rewriting of a text keeps *)

Module Order.

(** [a] is [b] with some characters left out: the characters of [a] stand
    in [b], in the same order. *)
Inductive embeds : str -> str -> Prop :=
| embeds_nil : embeds [] []
| embeds_skip x a b : embeds a b -> embeds a (x :: b)
| embeds_keep x a b : embeds a b -> embeds (x :: a) (x :: b).

(** The same as a test, taking for each character of [a] its first
    occurrence in what is left of [b]. *)
Fixpoint subseq (a b : str) : bool :=
  match a, b with
  | [], _ => true
  | _ :: _, [] => false
  | x :: a', y :: b' => if (x =? y)%N then subseq a' b' else subseq a b'
  end.

(** A field set as the Python object that a later run would load. *)
Definition dict_value (d : fields) : value :=
  Map (map (fun kv : str * value => (Str (fst kv), snd kv)) d).

(** The characters that lines 107 and 115 strip *)
Definition is_quote (c : char) : bool := mem_chars [dquote; squote] c.

(** What lines 113 to 116 make of a value *)
Definition requoted (v : value) : value :=
  match v with
  | Str s => Str (requote s)
  | _ => v
  end.

(** The entry that the loop of lines 111 to 117 sets for the source name
    [src], if the mapping [m] holds it *)
Definition entry (m : list (value * value)) (src tgt : str) : fields :=
  match find (fun kv : value * value => is_key src (fst kv)) m with
  | Some kv => [(tgt, requoted (snd kv))]
  | None => []
  end.

Definition is_str (v : value) : bool :=
  match v with
  | Str _ => true
  | _ => false
  end.

Definition is_map (v : value) : bool :=
  match v with
  | Map _ => true
  | _ => false
  end.

End Order.

Import Order.

(* ================================================================== *)
(** ** Paths: [pathlib.Path] by its parts *)

Module Paths.

(** A path is the tuple [Path.parts] of a POSIX path: the root [/] is the
    first part of an absolute path, and the path [.] has no part. *)
Definition path := list str.

Definition root : str := lit "/".

Fixpoint path_eqb (p q : path) : bool :=
  match p, q with
  | [], [] => true
  | a :: p', b :: q' => str_eqb a b && path_eqb p' q'
  | _, _ => false
  end.

(** [q] is [p] or lies below [p]. *)
Fixpoint is_prefix (p q : path) : bool :=
  match p, q with
  | [], _ => true
  | a :: p', b :: q' => str_eqb a b && is_prefix p' q'
  | _ :: _, [] => false
  end.

(** [Path.parent]: the root is its own parent, and the parent of a single
    relative part is [.]. *)
Definition parent (p : path) : path :=
  match p with
  | [a] => if str_eqb a root then p else []
  | _ => removelast p
  end.

(** [Path.name]: the last part, and the empty text for [/] and [.] *)
Definition name (p : path) : str :=
  match p with
  | [a] => if str_eqb a root then [] else a
  | _ => last p []
  end.

(** [s.rfind(c)], with [None] for -1 *)
Fixpoint rfind (c : char) (s : str) : option nat :=
  match s with
  | [] => None
  | x :: s' =>
      match rfind c s' with
      | Some i => Some (S i)
      | None => if (x =? c)%N then Some 0 else None
      end
  end.

(** [Path.suffix], as in CPython 3.11: [name[i:]] for
    [i = name.rfind('.')] when [0 < i < len(name) - 1], and the empty
    text otherwise. *)
Definition suffix (p : path) : str :=
  let n := name p in
  match rfind 46%N n with
  | Some i =>
      if (0 <? i)%nat && (i <? length n - 1)%nat then skipn i n else []
  | None => []
  end.

(** [str.lower] on the letters A to Z.  No other character has a lower
    case that holds one of the characters of [.md] and [.mdx], so the
    test of line 140 is the same with the full case mapping. *)
Definition lower_char (c : char) : char :=
  if ((65 <=? c) && (c <=? 90))%N then (c + 32)%N else c.

Definition lower (s : str) : str := map lower_char s.

(** Line 140: [file_path.suffix.lower() in ['.md', '.mdx']] *)
Definition is_markdown (p : path) : bool :=
  existsb (str_eqb (lower (suffix p))) [lit ".md"; lit ".mdx"].

(** Line 163: [any(part.startswith('.') for part in file_path.parts)] *)
Definition hidden (p : path) : bool :=
  existsb (starts_with (lit ".")) p.

End Paths.

Import Paths.

(* ================================================================== *)
(** ** Disk: the file tree as the list of its entries

    Every entry stands under its full path.  Symbolic links, permissions
    and the other ways in which a file system can refuse an operation are
    not part of the description. *)

Module Disk.

Definition bytes := list N.

Inductive node := File (data : bytes) | Dir.

Definition tree := list (path * node).

Definition at_path (p : path) (e : path * node) : bool := path_eqb (fst e) p.

Definition lookup (t : tree) (p : path) : option node :=
  match find (at_path p) t with
  | Some e => Some (snd e)
  | None => None
  end.

(** [Path.exists] and [Path.is_file] *)
Definition path_exists (t : tree) (p : path) : bool :=
  match lookup t p with
  | Some _ => true
  | None => false
  end.

Definition is_file (t : tree) (p : path) : bool :=
  match lookup t p with
  | Some (File _) => true
  | _ => false
  end.


(** [open(p, 'w')] on a file that is there, and the write of [data] *)
Definition write_file (t : tree) (p : path) (data : bytes) : tree :=
  map (fun e : path * node => if at_path p e then (fst e, File data) else e) t.

(** [d.rglob('*')]: every entry below [d], in the order of the listing *)
Definition rglob (t : tree) (d : path) : list path :=
  filter (fun q => is_prefix d q && negb (path_eqb d q)) (map fst t).

(** [shutil.copytree(src, dst)]: the entries at and below [src] are put
    at and below [dst]. *)
Definition rebase (src dst q : path) : path := dst ++ skipn (length src) q.

Definition copytree (t : tree) (src dst : path) : tree :=
  t ++ map (fun e : path * node => (rebase src dst (fst e), snd e))
         (filter (fun e : path * node => is_prefix src (fst e)) t).

End Disk.

Import Disk.

(* ================================================================== *)
(** ** Codec: what the interpreter does when a file is opened as text

    [decode_default] is [open(path, 'tr').read()] with the encoding of the
    locale, [decode_utf8] is [open(path, 'r', encoding='utf-8').read()],
    and [encode_utf8] is the [write] of a file opened with
    [encoding='utf-8'].  [None] stands for [UnicodeDecodeError] and
    [UnicodeEncodeError].  The methods below take the three functions as
    a parameter; [utf8] is the interpreter under a UTF-8 locale on a POSIX
    system. *)

Module Codec.

Record runtime := {
  decode_default : bytes -> option str;
  decode_utf8 : bytes -> option str;
  encode_utf8 : str -> option bytes
}.

Definition continuation (b : N) : bool := ((128 <=? b) && (b <=? 191))%N.

(** The strict UTF-8 decoder: no overlong form, no surrogate, nothing
    above U+10FFFF. *)
Fixpoint utf8_decode (b : bytes) : option str :=
  match b with
  | [] => Some []
  | b0 :: r0 =>
      if (b0 <? 128)%N then option_map (cons b0) (utf8_decode r0)
      else
        match r0 with
        | [] => None
        | b1 :: r1 =>
            if ((194 <=? b0) && (b0 <=? 223))%N then
              if continuation b1
              then option_map (cons ((b0 - 192) * 64 + (b1 - 128))%N)
                     (utf8_decode r1)
              else None
            else
              match r1 with
              | [] => None
              | b2 :: r2 =>
                  if ((224 <=? b0) && (b0 <=? 239))%N then
                    let c := ((b0 - 224) * 4096 + (b1 - 128) * 64
                              + (b2 - 128))%N in
                    if continuation b1 && continuation b2
                       && (2048 <=? c)%N
                       && negb ((55296 <=? c) && (c <=? 57343))%N
                    then option_map (cons c) (utf8_decode r2)
                    else None
                  else
                    match r2 with
                    | [] => None
                    | b3 :: r3 =>
                        if ((240 <=? b0) && (b0 <=? 244))%N then
                          let c := ((b0 - 240) * 262144 + (b1 - 128) * 4096
                                    + (b2 - 128) * 64 + (b3 - 128))%N in
                          if continuation b1 && continuation b2
                             && continuation b3
                             && (65536 <=? c)%N && (c <=? 1114111)%N
                          then option_map (cons c) (utf8_decode r3)
                          else None
                        else None
                    end
              end
        end
  end.

(** Reading in text mode turns [\r\n] and a lone [\r] into [\n]. *)
Fixpoint universal_newlines (s : str) : str :=
  match s with
  | [] => []
  | c :: s' =>
      if (c =? 13)%N then
        nl :: match s' with
              | d :: s'' =>
                  if (d =? nl)%N then universal_newlines s''
                  else universal_newlines s'
              | [] => []
              end
      else c :: universal_newlines s'
  end.

Definition read_utf8 (b : bytes) : option str :=
  option_map universal_newlines (utf8_decode b).

Definition utf8_char (c : char) : option bytes :=
  if (c <? 128)%N then Some [c]
  else if (c <? 2048)%N then Some [192 + c / 64; 128 + c mod 64]%N
  else if ((55296 <=? c) && (c <=? 57343))%N then None
  else if (c <? 65536)%N
  then Some [224 + c / 4096; 128 + (c / 64) mod 64; 128 + c mod 64]%N
  else if (c <=? 1114111)%N
  then Some [240 + c / 262144; 128 + (c / 4096) mod 64;
             128 + (c / 64) mod 64; 128 + c mod 64]%N
  else None.

Fixpoint utf8_encode (s : str) : option bytes :=
  match s with
  | [] => Some []
  | c :: s' =>
      match utf8_char c, utf8_encode s' with
      | Some b, Some more => Some (b ++ more)
      | _, _ => None
      end
  end.

Definition utf8 : runtime :=
  {| decode_default := read_utf8;
     decode_utf8 := read_utf8;
     encode_utf8 := utf8_encode |}.

End Codec.

Import Codec.

(* ================================================================== *)
(** ** Migration: the methods that work on files

    The state is the file tree and the lines that [logging] has written,
    oldest first.  The line that [clean_frontmatter] logs before it
    returns the content unchanged is not in the list. *)

Module Migration.

(** What [except Exception] of line 153 can catch *)
Inductive error :=
| Python (e : exn)
| UnicodeDecodeError
| UnicodeEncodeError.

Inductive event :=
| Created_backup (dst : path)
| Skipping_binary (p : path)
| Transformed (p : path)
| Error_processing (p : path) (e : error)
| Docs_not_found (d : path)
| Migration_completed.

Record world := { disk : tree; log : list event }.

Definition say (w : world) (ev : event) : world :=
  {| disk := disk w; log := log w ++ [ev] |}.

(** A method returns, or an [OSError] leaves it (a path that is opened is
    not a file, the tree to copy is not a directory), or the description
    of the YAML library does not cover the frontmatter at hand. *)
Inductive outcome (A : Type) :=
| Done (a : A)
| Raised
| Uncovered.
Arguments Done {A} a.
Arguments Raised {A}.
Arguments Uncovered {A}.

(** Lines 12 to 14: the two paths of a [DocsMigrator] *)
Record migrator := { docs_dir : path }.

Definition backup_dir (self : migrator) : path :=
  parent (docs_dir self) ++ [lit "docs_backup"].

(** Lines 44 to 48 *)
Definition create_backup (self : migrator) (w : world) : outcome world :=
  if path_exists (disk w) (backup_dir self) then Done w
  else
    match lookup (disk w) (docs_dir self) with
    | Some Dir =>
        Done (say {| disk := copytree (disk w) (docs_dir self)
                               (backup_dir self);
                     log := log w |}
                (Created_backup (backup_dir self)))
    | _ => Raised
    end.

Section Methods.

Variable yaml : yaml_module.
Variable py : runtime.

(** Lines 50 to 57 *)
Definition is_binary_file (t : tree) (file_path : path) : outcome bool :=
  match lookup t file_path with
  | Some (File data) =>
      match decode_default py data with
      | Some _ => Done false
      | None => Done true
      end
  | _ => Raised
  end.

(** Lines 143 to 145: the two transformations, one after the other *)
Definition transform (content : str) : option (result str) :=
  match clean_frontmatter yaml content with
  | Some (Ok content') => Some (Ok (process_mdx_content content'))
  | Some (Raise e) => Some (Raise e)
  | None => None
  end.

(** Lines 129 to 154.  The file is opened for writing before the text is
    encoded, so a text that cannot be encoded leaves the file empty. *)
Definition clean_file (w : world) (file_path : path) : outcome world :=
  match is_binary_file (disk w) file_path with
  | Raised => Raised
  | Uncovered => Uncovered
  | Done true => Done (say w (Skipping_binary file_path))
  | Done false =>
      match lookup (disk w) file_path with
      | Some (File data) =>
          match decode_utf8 py data with
          | None => Done (say w (Error_processing file_path UnicodeDecodeError))
          | Some content =>
              if negb (is_markdown file_path) then Done w
              else
                match transform content with
                | None => Uncovered
                | Some (Raise e) =>
                    Done (say w (Error_processing file_path (Python e)))
                | Some (Ok content') =>
                    match encode_utf8 py content' with
                    | Some data' =>
                        Done (say {| disk := write_file (disk w) file_path data';
                                     log := log w |}
                                (Transformed file_path))
                    | None =>
                        Done (say {| disk := write_file (disk w) file_path [];
                                     log := log w |}
                                (Error_processing file_path UnicodeEncodeError))
                    end
                end
          end
      | _ => Raised
      end
  end.

(** Lines 162 to 164: the loop over the paths that [rglob] gives *)
Fixpoint clean_each (w : world) (paths : list path) : outcome world :=
  match paths with
  | [] => Done w
  | file_path :: paths' =>
      if is_file (disk w) file_path && negb (hidden file_path) then
        match clean_file w file_path with
        | Done w' => clean_each w' paths'
        | Raised => Raised
        | Uncovered => Uncovered
        end
      else clean_each w paths'
  end.

(** Lines 156 to 164 *)
Definition process_directory (self : migrator) (w : world) : outcome world :=
  match create_backup self w with
  | Done w' => clean_each w' (rglob (disk w') (docs_dir self))
  | Raised => Raised
  | Uncovered => Uncovered
  end.

(** Line 167 *)
Definition main_docs_dir : path :=
  [root; lit "Users"; lit "abdullahenesgules"; lit "Upstash";
   lit "Projects"; lit "process-docs"; lit "docs"].

(** Lines 166 to 174 *)
Definition main (w : world) : outcome world :=
  if negb (path_exists (disk w) main_docs_dir)
  then Done (say w (Docs_not_found main_docs_dir))
  else
    match process_directory {| docs_dir := main_docs_dir |} w with
    | Done w' => Done (say w' Migration_completed)
    | Raised => Raised
    | Uncovered => Uncovered
    end.

End Methods.

End Migration.

Import Migration.

(* ================================================================== *)
(** ** Sample: a small tree to run the methods on *)

Module Sample.

(** PyYAML on a block that is one plain scalar on one line, a word or
    words of letters and digits: the block loads to the scalar itself and
    not to a mapping.  The other blocks are those of [pyyaml]. *)
Definition load_document (text : str) : option load_result :=
  if plain_text text then option_map Loaded (resolve_plain text)
  else load_flat text.

Definition pyyaml_scalars : yaml_module :=
  {| safe_load := load_document; dump := dump_block |}.

Definition site : path := [root; lit "site"].
Definition docs : path := site ++ [lit "docs"].

Definition intro_md : bytes :=
  lit "---\ntitle: Hello\nicon: star\n---\n# Intro\n\n<Tip>short</Tip>\nText  \n".
Definition broken_md : bytes := lit "---\ntitle: 5\n---\nBody\n".
Definition logo_png : bytes := [137; 80; 78; 71; 13; 10; 26; 10; 255]%N.

Definition sample_tree : tree :=
  [ ([root], Dir);
    (site, Dir);
    (docs, Dir);
    (docs ++ [lit "intro.md"], File intro_md);
    (docs ++ [lit "broken.md"], File broken_md);
    (docs ++ [lit "logo.png"], File logo_png);
    (docs ++ [lit "notes.txt"], File (lit "<Tip>kept</Tip>\n"));
    (docs ++ [lit ".drafts"], Dir);
    (docs ++ [lit ".drafts"; lit "old.md"], File (lit "<Tip>kept</Tip>\n"));
    (site ++ [lit "README.md"], File (lit "<Tip>outside</Tip>\n")) ].

Definition sample_world : world := {| disk := sample_tree; log := [] |}.

Definition sample_migrator : migrator := {| docs_dir := docs |}.

(** The state after a method has returned, and the state before when it
    has not *)
Definition after (w : world) (o : outcome world) : world :=
  match o with
  | Done w' => w'
  | _ => w
  end.

(** A tree at the place where [main] looks for the documents *)
Definition home : path := [root; lit "Users"; lit "abdullahenesgules"].

Definition home_tree : tree :=
  [ (main_docs_dir, Dir);
    (main_docs_dir ++ [lit "guide.mdx"],
     File (lit "<Note>short</Note>Text\n"));
    (home ++ [lit "notes.md"],
     File (lit "# Notes\n\n<Note>mine</Note>\nText\n")) ].

Definition home_world : world := {| disk := home_tree; log := [] |}.

End Sample.

Set Implicit Arguments.

(* ================================================================== *)
(** * The examples of section 8 of the specification, run on the model *)

Module Examples.

Example comment_removal :
  process_mdx_content
    (lit "text {/* Mintlify note here spanning\nlines */} more text")
  = lit "text  more text".
Proof. vm_compute. reflexivity. Qed.

Example self_closing_removal :
  process_mdx_content (lit "before<Frame src=\qx\q/>after")
  = lit "beforeafter".
Proof. vm_compute. reflexivity. Qed.

Example paired_removal_drops_body :
  process_mdx_content
    (lit "# T\n<Tabs>\n<Tab title=\qA\q>one</Tab>\n</Tabs>\nend")
  = lit "# T\nend".
Proof. vm_compute. reflexivity. Qed.

(** [Tab] is a key of [self.mintlify_components] but not a member of the
    list [components] of [process_mdx_content]. *)
Example tab_alone_is_kept :
  process_mdx_content (lit "<Tab title=\qA\q>one</Tab>")
  = lit "<Tab title=\qA\q>one</Tab>".
Proof. vm_compute. reflexivity. Qed.

Example frontmatter_rebuilt :
  clean_frontmatter pyyaml
    (lit "---\ntitle: Hello\nsidebarTitle: 'Hi'\nicon: star\n---\n# Doc")
  = Some (Ok (lit "---\nsidebar_label: '\qHi\q'\ntitle: '\qHello\q'\n---\n\n# Doc")).
Proof. vm_compute. reflexivity. Qed.

Example no_frontmatter :
  clean_frontmatter pyyaml (lit "# Doc\n---\ntitle: x\n---") =
  Some (Ok (lit "# Doc\n---\ntitle: x\n---")).
Proof. vm_compute. reflexivity. Qed.

Example unreadable_frontmatter :
  clean_frontmatter pyyaml (lit "---\ntitle: \qHello\n---\nrest") =
  Some (Ok (lit "---\ntitle: \qHello\n---\nrest")).
Proof. vm_compute. reflexivity. Qed.

End Examples.

(* ================================================================== *)
(** * Facts about text *)

Module TextFacts.

Lemma starts_with_app (p s : str) : starts_with p (p ++ s) = true.
Proof.
  induction p as [|a p IH]; simpl; [reflexivity|].
  now rewrite N.eqb_refl, IH.
Qed.

Lemma starts_with_split (p s : str) :
  starts_with p s = true -> exists s', s = p ++ s'.
Proof.
  revert s. induction p as [|a p IH]; intros s H.
  - now exists s.
  - destruct s as [|b s]; simpl in H; [discriminate|].
    apply andb_true_iff in H as [Hab H].
    apply N.eqb_eq in Hab. subst b.
    destruct (IH _ H) as [s' ->]. now exists s'.
Qed.

Lemma str_eqb_eq (a b : str) : str_eqb a b = true <-> a = b.
Proof.
  unfold str_eqb. split.
  - intros H. apply andb_true_iff in H as [Hl Hs].
    apply Nat.eqb_eq in Hl.
    destruct (starts_with_split _ _ Hs) as [s' ->].
    rewrite length_app in Hl.
    destruct s'; [now rewrite app_nil_r|simpl in Hl; lia].
  - intros ->. rewrite Nat.eqb_refl. simpl.
    rewrite <- (app_nil_r b) at 2. apply starts_with_app.
Qed.

Lemma contains_suffix (p u s : str) :
  contains p (u ++ s) = false -> contains p s = false.
Proof.
  induction u as [|x u IH]; simpl; [tauto|].
  intros H. apply orb_false_iff in H as [_ H]. now apply IH.
Qed.

Lemma contains_head (p s : str) :
  contains p s = false -> starts_with p s = false.
Proof.
  destruct s; simpl; intros H; now apply orb_false_iff in H as [H _].
Qed.

Lemma contains_In (c : char) (p s : str) :
  contains (c :: p) s = true -> In c s.
Proof.
  induction s as [|x s IH]; simpl; [discriminate|].
  intros H. apply orb_true_iff in H as [H|H].
  - apply andb_true_iff in H as [H _]. apply N.eqb_eq in H. now left.
  - right. now apply IH.
Qed.

(** *** [drop_while] and [strip] *)

Lemma drop_while_all (p : char -> bool) (w s : str) :
  forallb p w = true -> drop_while p (w ++ s) = drop_while p s.
Proof.
  induction w as [|x w IH]; simpl; [reflexivity|].
  intros H. apply andb_true_iff in H as [Hx H]. rewrite Hx. now apply IH.
Qed.

Lemma drop_while_split (p : char -> bool) (s : str) :
  exists w, s = w ++ drop_while p s /\ forallb p w = true.
Proof.
  induction s as [|x s [w [Hs Hw]]]; simpl.
  - now exists [].
  - destruct (p x) eqn:Hx.
    + exists (x :: w). simpl. rewrite Hx, Hw. split; [now f_equal|reflexivity].
    + exists []. now split.
Qed.

Lemma drop_while_head (p : char -> bool) (s : str) x t :
  drop_while p s = x :: t -> p x = false.
Proof.
  induction s as [|y s IH]; simpl; [discriminate|].
  destruct (p y) eqn:Hy; [assumption|].
  intros H. now inversion H; subst.
Qed.

Lemma drop_while_fixed (p : char -> bool) (s : str) :
  match s with x :: _ => p x = false | [] => True end ->
  drop_while p s = s.
Proof. destruct s; simpl; [reflexivity|]. now intros ->. Qed.

Lemma drop_while_app_keep (p : char -> bool) (t w : str) :
  drop_while p t <> [] -> drop_while p (t ++ w) = drop_while p t ++ w.
Proof.
  induction t as [|x t IH]; simpl; [congruence|].
  destruct (p x); [assumption|reflexivity].
Qed.

Lemma drop_while_app_gone (p : char -> bool) (t w : str) :
  drop_while p t = [] -> drop_while p (t ++ w) = drop_while p w.
Proof.
  induction t as [|x t IH]; simpl; [reflexivity|].
  destruct (p x); [assumption|discriminate].
Qed.

(** [strip] leaves a slice of the text: what is cut on both sides is
    made of the stripped characters. *)
Lemma strip_with_slice (p : char -> bool) (s : str) :
  exists a b, s = a ++ strip_with p s ++ b
              /\ forallb p a = true /\ forallb p b = true.
Proof.
  unfold strip_with.
  destruct (drop_while_split p s) as [a [Hs Ha]].
  destruct (drop_while_split p (rev (drop_while p s))) as [b [Hr Hb]].
  exists a, (rev b). split; [|split].
  - rewrite Hs at 1. f_equal.
    rewrite <- rev_app_distr, <- Hr. now rewrite rev_involutive.
  - assumption.
  - rewrite forallb_forall in *. intros x Hx. apply Hb.
    now apply in_rev.
Qed.

Lemma strip_with_In (p : char -> bool) (s : str) x :
  In x (strip_with p s) -> In x s.
Proof.
  destruct (strip_with_slice p s) as [a [b [Hs _]]].
  intros H. rewrite Hs. apply in_or_app. right. apply in_or_app. now left.
Qed.

Lemma strip_with_idem (p : char -> bool) (s : str) :
  strip_with p (strip_with p s) = strip_with p s.
Proof.
  unfold strip_with.
  set (a := drop_while p s).
  set (b := drop_while p (rev a)).
  assert (Hfront : drop_while p (rev b) = rev b).
  { apply drop_while_fixed.
    destruct (rev b) as [|x t] eqn:Hb; [exact I|].
    destruct (drop_while_split p (rev a)) as [w [Hw _]]. fold b in Hw.
    assert (Ha : a = rev b ++ rev w).
    { rewrite <- (rev_involutive a), Hw. now rewrite rev_app_distr. }
    rewrite Hb in Ha. simpl in Ha.
    apply (drop_while_head p s (t := t ++ rev w)). fold a. exact Ha. }
  rewrite Hfront, rev_involutive.
  assert (Hback : drop_while p b = b).
  { apply drop_while_fixed. destruct b as [|x t] eqn:Hb; [exact I|].
    subst b. eapply drop_while_head. exact Hb. }
  now rewrite Hback.
Qed.

Lemma strip_with_trailing (p : char -> bool) (t w : str) :
  forallb p w = true -> strip_with p (t ++ w) = strip_with p t.
Proof.
  intros Hw. unfold strip_with.
  assert (Hrev : forallb p (rev w) = true).
  { rewrite forallb_forall in *. intros x Hx. apply Hw. now apply in_rev. }
  destruct (drop_while p t) as [|x u] eqn:Ht.
  - rewrite (drop_while_app_gone p t w Ht).
    destruct (drop_while_split p w) as [v [Hv _]].
    assert (Hdw : drop_while p w = []).
    { generalize (drop_while_all p w [] Hw). now rewrite app_nil_r. }
    now rewrite Hdw.
  - rewrite drop_while_app_keep by (rewrite Ht; discriminate).
    rewrite Ht, rev_app_distr. now rewrite drop_while_all.
Qed.

End TextFacts.

Import TextFacts.

(* ================================================================== *)
(** * Facts about the matcher *)

Module ReFacts.

(** ** The matcher finds what the pattern can match *)

Lemma star_greedy_sound k r
  (IH : forall p s n, match_here r p s = Some n -> matches r p s n) :
  forall s p n,
    star_greedy k (match_here r) p s = Some n ->
    matches (Star Greedy k :: r) p s n.
Proof.
  induction s as [|x s IHs]; intros p n H; simpl in H.
  - now apply m_star_stop, IH.
  - destruct (mem k x) eqn:Hx; [|now apply m_star_stop, IH].
    destruct (star_greedy k (match_here r) (Some x) s) as [n0|] eqn:Hs.
    + inversion H; subst. apply m_star_step; auto.
    + now apply m_star_stop, IH.
Qed.

Lemma star_lazy_sound k r
  (IH : forall p s n, match_here r p s = Some n -> matches r p s n) :
  forall s p n,
    star_lazy k (match_here r) p s = Some n ->
    matches (Star Lazy k :: r) p s n.
Proof.
  induction s as [|x s IHs]; intros p n H; simpl in H.
  - destruct (match_here r p []) eqn:Hn; [|discriminate].
    inversion H; subst. now apply m_star_stop, IH.
  - destruct (match_here r p (x :: s)) eqn:Hn.
    + inversion H; subst. now apply m_star_stop, IH.
    + destruct (mem k x) eqn:Hx; [|discriminate].
      destruct (star_lazy k (match_here r) (Some x) s) eqn:Hs;
        [|discriminate].
      inversion H; subst. apply m_star_step; auto.
Qed.

Lemma match_here_sound r :
  forall p s n, match_here r p s = Some n -> matches r p s n.
Proof.
  induction r as [|a r IH]; intros p s n H.
  - inversion H. constructor.
  - destruct a as [k|[|] k| |]; simpl in H.
    + destruct s as [|x s]; [discriminate|].
      destruct (mem k x) eqn:Hx; [|discriminate].
      destruct (match_here r (Some x) s) eqn:Hs; [|discriminate].
      inversion H; subst. constructor; auto.
    + now apply star_greedy_sound.
    + now apply star_lazy_sound.
    + destruct (at_line_start p) eqn:Hp; [|discriminate].
      constructor; auto.
    + destruct (at_line_end s) eqn:Hp; [|discriminate].
      constructor; auto.
Qed.

Lemma star_lazy_unfold k next p s :
  star_lazy k next p s =
  match next p s with
  | Some n => Some n
  | None =>
      match s with
      | x :: s' =>
          if mem k x then option_map S (star_lazy k next (Some x) s')
          else None
      | [] => None
      end
  end.
Proof. destruct s; reflexivity. Qed.

Lemma match_here_complete r p s n :
  matches r p s n -> exists n', match_here r p s = Some n'.
Proof.
  induction 1 as [p s|k r p x s n Hx _ [n' IH]|g k r p s n _ [n' IH]
                 |g k r p x s n Hx _ [n' IH]|r p s n Hp _ [n' IH]
                 |r p s n Hp _ [n' IH]].
  - now exists 0.
  - simpl. rewrite Hx, IH. now eexists.
  - destruct g; simpl.
    + destruct s as [|x s]; simpl; [rewrite IH; now eexists|].
      destruct (mem k x); [|rewrite IH; now eexists].
      destruct (star_greedy k (match_here r) (Some x) s);
        [|rewrite IH]; now eexists.
    + rewrite star_lazy_unfold, IH. now eexists.
  - destruct g; simpl in *.
    + rewrite Hx, IH. now eexists.
    + destruct (match_here r p (x :: s)); [now eexists|].
      rewrite Hx, IH. now eexists.
  - simpl. rewrite Hp, IH. now eexists.
  - simpl. rewrite Hp, IH. now eexists.
Qed.

Lemma no_match r p s :
  (forall n, ~ matches r p s n) -> match_here r p s = None.
Proof.
  intros H. destruct (match_here r p s) eqn:Hm; [|reflexivity].
  exfalso. eapply H, match_here_sound, Hm.
Qed.

(** ** Reading a match apart *)

Lemma matches_le r p s n : matches r p s n -> n <= length s.
Proof. induction 1; simpl; lia. Qed.

Lemma matches_chars l r p s n :
  matches (chars l ++ r) p s n ->
  exists s' n', s = l ++ s' /\ n = length l + n'
                /\ matches r (last_of p l) s' n'.
Proof.
  revert p s n. induction l as [|c l IH]; intros p s n H; simpl in *.
  - now exists s, n.
  - inversion H as [|k r0 p0 x s0 n0 Hx Hm| | | |]; subst.
    simpl in Hx. apply N.eqb_eq in Hx. subst x.
    destruct (IH _ _ _ Hm) as [s' [n' [-> [-> Hr]]]].
    now exists s', n'.
Qed.

Lemma chars_matches l r p s n :
  matches r (last_of p l) s n ->
  matches (chars l ++ r) p (l ++ s) (length l + n).
Proof.
  revert p. induction l as [|c l IH]; intros p H; simpl in *; auto.
  constructor; [simpl; apply N.eqb_refl|now apply IH].
Qed.

Lemma matches_star g k r p s n :
  matches (Star g k :: r) p s n ->
  exists u s' n', s = u ++ s' /\ forallb (mem k) u = true
                  /\ n = length u + n' /\ matches r (last_of p u) s' n'.
Proof.
  remember (Star g k :: r) as e eqn:He.
  induction 1 as [| |g0 k0 r0 p s n Hm _|g0 k0 r0 p x s n Hx Hm IH| |];
    inversion He; subst.
  - now exists [], s, n.
  - destruct (IH eq_refl) as [u [s' [n' [-> [Hu [-> Hr]]]]]].
    exists (x :: u), s', n'. simpl. now rewrite Hx, Hu.
Qed.

Lemma star_matches g k r p u s n :
  forallb (mem k) u = true ->
  matches r (last_of p u) s n ->
  matches (Star g k :: r) p (u ++ s) (length u + n).
Proof.
  revert p. induction u as [|x u IH]; intros p Hu H; simpl in *.
  - now apply m_star_stop.
  - apply andb_true_iff in Hu as [Hx Hu]. apply m_star_step; auto.
Qed.

Lemma matches_one k r p s n :
  matches (One k :: r) p s n ->
  exists x s' n', s = x :: s' /\ mem k x = true /\ n = S n'
                  /\ matches r (Some x) s' n'.
Proof. inversion 1; subst. now eexists _, _, _. Qed.

Lemma matches_nil p s n : matches [] p s n -> n = 0.
Proof. now inversion 1. Qed.

(** ** [re.sub] *)

Lemma sub_from_skip r repl (u v : str) p :
  sub_from r repl p (length u) (u ++ v)
  = sub_from r repl (last_of p u) 0 v.
Proof.
  revert p. induction u as [|x u IH]; intros p; simpl.
  - destruct v; reflexivity.
  - apply IH.
Qed.

Lemma sub_from_end r repl p :
  match_here r p [] = None -> sub_from r repl p 0 [] = [].
Proof. intros H. simpl. now rewrite H. Qed.

(** A match of [n > 0] characters is replaced and the scan goes on
    behind it. *)
Lemma sub_from_match r repl (u v : str) p :
  u <> [] -> match_here r p (u ++ v) = Some (length u) ->
  sub_from r repl p 0 (u ++ v)
  = repl ++ sub_from r repl (last_of p u) 0 v.
Proof.
  destruct u as [|x u]; [congruence|]. intros _ H. simpl in *.
  rewrite H. f_equal. apply sub_from_skip.
Qed.

(** Without a match the character is kept. *)
Lemma sub_from_keep r repl x (s : str) p :
  match_here r p (x :: s) = None ->
  sub_from r repl p 0 (x :: s) = x :: sub_from r repl (Some x) 0 s.
Proof. intros H. simpl. now rewrite H. Qed.

Lemma sub_from_keep_all r repl (u v : str) p :
  (forall u1 x u2, u = u1 ++ x :: u2 ->
     match_here r (last_of p u1) (x :: u2 ++ v) = None) ->
  sub_from r repl p 0 (u ++ v) = u ++ sub_from r repl (last_of p u) 0 v.
Proof.
  revert p. induction u as [|x u IH]; intros p H; [reflexivity|].
  simpl app. rewrite sub_from_keep by (apply (H [] x u eq_refl)).
  f_equal. apply IH. intros u1 y u2 ->. apply (H (x :: u1) y u2 eq_refl).
Qed.

(** Where the pattern matches nowhere, [re.sub] returns its input. *)
Lemma sub_from_no_match r repl (s : str) p :
  search_from r p s = false -> sub_from r repl p 0 s = s.
Proof.
  revert p. induction s as [|x s IH]; intros p H; simpl in *.
  - now destruct (match_here r p []).
  - destruct (match_here r p (x :: s)); [discriminate|].
    f_equal. now apply IH.
Qed.

Lemma search_from_none r (s : str) :
  (forall p u v, s = u ++ v -> match_here r p v = None) ->
  forall p, search_from r p s = false.
Proof.
  induction s as [|x s IH]; intros H p; simpl.
  - now rewrite (H p [] [] eq_refl).
  - rewrite (H p [] (x :: s) eq_refl). apply IH.
    intros q u v ->. apply (H q (x :: u) v eq_refl).
Qed.

(** The characters of the result come from the input or from the
    replacement. *)
Lemma sub_from_In r repl x : forall (s : str) p k,
  In x (sub_from r repl p k s) -> In x s \/ In x repl.
Proof.
  induction s as [|y s IH]; intros p k H; simpl in H.
  - destruct k; [|contradiction].
    destruct (match_here r p []); [now right|contradiction].
  - destruct k as [|k].
    + destruct (match_here r p (y :: s)) as [[|n]|].
      * apply in_app_or in H as [H|[H|H]]; [now right|left; now left|].
        destruct (IH _ _ H); [left; now right|now right].
      * apply in_app_or in H as [H|H]; [now right|].
        destruct (IH _ _ H); [left; now right|now right].
      * destruct H as [H|H]; [left; now left|].
        destruct (IH _ _ H); [left; now right|now right].
    + destruct (IH _ _ H); [left; now right|now right].
Qed.

End ReFacts.

Import ReFacts.

(* ================================================================== *)
(** * Facts about the whitespace passes *)

Module WhitespaceFacts.

Lemma is_space_nl : is_space nl = true.
Proof. reflexivity. Qed.

Lemma nsbn_app (u v : str) :
  no_space_before_newline (u ++ v) = true ->
  no_space_before_newline u = true /\ no_space_before_newline v = true.
Proof.
  induction u as [|x u IH]; simpl; [tauto|].
  intros H. apply andb_true_iff in H as [Hx H].
  destruct (IH H) as [Hu Hv]. split; [|assumption].
  rewrite Hu, andb_true_r. destruct u as [|y u]; [reflexivity|exact Hx].
Qed.

(** A run of whitespace that ends in a newline breaks the property. *)
Lemma nsbn_run x (u rest : str) :
  is_space x = true -> forallb is_space u = true ->
  no_space_before_newline (x :: u ++ nl :: rest) = false.
Proof.
  revert x. induction u as [|y u IH]; intros x Hx Hu.
  - simpl. now rewrite Hx.
  - simpl in Hu. apply andb_true_iff in Hu as [Hy Hu].
    change (no_space_before_newline (x :: (y :: u) ++ nl :: rest))
      with (negb (is_space x && (y =? nl)%N)
            && no_space_before_newline (y :: u ++ nl :: rest)).
    rewrite (IH y Hy Hu). apply andb_false_r.
Qed.

Lemma blank_lines_no_match (s : str) p :
  no_space_before_newline s = true -> match_here blank_lines_re p s = None.
Proof.
  intros Hs. apply no_match. intros n H. unfold blank_lines_re in H.
  apply matches_one in H as [x [s1 [n1 [-> [Hx [-> H]]]]]].
  apply matches_star in H as [u [s2 [n2 [-> [Hu [-> H]]]]]].
  apply matches_one in H as [y [s3 [n3 [-> [Hy [-> _]]]]]].
  simpl in Hx, Hy. apply N.eqb_eq in Hx, Hy. subst x y.
  now rewrite (nsbn_run nl u s3 is_space_nl Hu) in Hs.
Qed.

Lemma trailing_space_no_match (s : str) p :
  no_space_before_newline s = true ->
  match_here trailing_space_re p s = None.
Proof.
  intros Hs. apply no_match. intros n H. unfold trailing_space_re in H.
  apply matches_one in H as [x [s1 [n1 [-> [Hx [-> H]]]]]].
  apply matches_star in H as [u [s2 [n2 [-> [Hu [-> H]]]]]].
  apply matches_one in H as [y [s3 [n3 [-> [Hy [-> _]]]]]].
  simpl in Hx, Hy. apply N.eqb_eq in Hy. subst y.
  now rewrite (nsbn_run x u s3 Hx Hu) in Hs.
Qed.

Lemma collapse_blank_lines_id (s : str) :
  no_space_before_newline s = true -> collapse_blank_lines s = s.
Proof.
  intros Hs. apply sub_from_no_match, search_from_none.
  intros p u v ->. apply blank_lines_no_match. now apply nsbn_app in Hs.
Qed.

Lemma strip_before_newline_id (s : str) :
  no_space_before_newline s = true -> strip_before_newline s = s.
Proof.
  intros Hs. apply sub_from_no_match, search_from_none.
  intros p u v ->. apply trailing_space_no_match. now apply nsbn_app in Hs.
Qed.

(** On such a text [^\s+$] can only match whitespace that runs up to the
    end of the text. *)
Lemma space_line_match (s : str) p n :
  no_space_before_newline s = true ->
  match_here space_line_re p s = Some n ->
  n = length s /\ forallb is_space s = true /\ s <> [].
Proof.
  intros Hs H. apply match_here_sound in H. unfold space_line_re in H.
  inversion H as [| | | |r0 p0 s0 n0 _ H1|]; subst. clear H.
  apply matches_one in H1 as [x [s1 [n1 [-> [Hx [-> H]]]]]].
  apply matches_star in H as [u [s2 [n2 [-> [Hu [-> H]]]]]].
  inversion H as [| | | | |r0 p0 s0 n0 He H2]; subst. clear H.
  apply matches_nil in H2. subst n2. simpl in Hx.
  change (forallb is_space u = true) in Hu.
  destruct s2 as [|y s2].
  - rewrite app_nil_r. simpl. rewrite Hx, Hu. repeat split; [lia|discriminate].
  - simpl in He. apply N.eqb_eq in He. subst y.
    now rewrite (nsbn_run x u s2 Hx Hu) in Hs.
Qed.

Lemma space_line_empty p : match_here space_line_re p [] = None.
Proof. simpl. now destruct (at_line_start p). Qed.

Lemma blank_space_lines_from (s : str) : forall p,
  no_space_before_newline s = true ->
  exists t w, s = t ++ w
              /\ sub_from space_line_re [] p 0 s = t
              /\ forallb is_space w = true.
Proof.
  induction s as [|x s IH]; intros p Hs.
  - exists [], []. rewrite (sub_from_end _ _ _ (space_line_empty p)).
    now repeat split.
  - destruct (match_here space_line_re p (x :: s)) as [n|] eqn:Hm.
    + destruct (space_line_match _ _ Hs Hm) as [-> [Hall _]].
      exists [], (x :: s). repeat split; [|exact Hall].
      rewrite <- (app_nil_r (x :: s)).
      rewrite sub_from_match; [|discriminate|now rewrite app_nil_r].
      now rewrite (sub_from_end _ _ _ (space_line_empty _)).
    + rewrite (sub_from_keep _ _ _ _ _ Hm).
      assert (Hs' : no_space_before_newline s = true).
      { simpl in Hs. now apply andb_true_iff in Hs as [_ Hs]. }
      destruct (IH (Some x) Hs') as [t [w [-> [Ht Hw]]]].
      exists (x :: t), w. now rewrite Ht.
Qed.

(** ** What [\s+\n] leaves behind, on every text *)

Lemma trailing_space_unfold p x (t : str) :
  match_here trailing_space_re p (x :: t)
  = if is_space x
    then option_map S (star_greedy Space newline_next (Some x) t)
    else None.
Proof. reflexivity. Qed.

Lemma newline_next_cons p x (t : str) :
  newline_next p (x :: t) = if (x =? nl)%N then Some 1 else None.
Proof. reflexivity. Qed.

Lemma greedy_none (t : str) : forall p,
  star_greedy Space newline_next p t = None -> run_has_newline t = false.
Proof.
  induction t as [|x t IH]; intros p H; [reflexivity|].
  simpl in H. simpl run_has_newline.
  destruct (is_space x) eqn:Hx; [|reflexivity].
  destruct (star_greedy Space newline_next (Some x) t) eqn:Ht;
    [discriminate|].
  rewrite newline_next_cons in H.
  rewrite (IH _ Ht). destruct (x =? nl)%N; [discriminate|reflexivity].
Qed.

Lemma greedy_some (t : str) : forall p m,
  star_greedy Space newline_next p t = Some m ->
  1 <= m <= length t /\ run_has_newline t = true
  /\ run_has_newline (skipn m t) = false.
Proof.
  induction t as [|x t IH]; intros p m H; [discriminate|].
  simpl in H. rewrite !newline_next_cons in H. simpl run_has_newline.
  destruct (is_space x) eqn:Hx.
  - destruct (star_greedy Space newline_next (Some x) t) as [m0|] eqn:Ht.
    + inversion H; subst. destruct (IH _ _ Ht) as [Hm [Hr Hk]].
      simpl. rewrite Hr, orb_true_r. repeat split; try lia. exact Hk.
    + destruct (x =? nl)%N eqn:Hn; [|discriminate].
      inversion H; subst. simpl. repeat split; try lia.
      exact (greedy_none _ _ Ht).
  - destruct (x =? nl)%N eqn:Hn; [|discriminate].
    apply N.eqb_eq in Hn. subst x. discriminate.
Qed.

Lemma starts_with_nl y (o : str) :
  starts_with [nl] (y :: o) = (y =? nl)%N.
Proof. cbn [starts_with]. now rewrite andb_true_r, N.eqb_sym. Qed.

Lemma nsbn_cons x (o : str) :
  no_space_before_newline o = true ->
  (is_space x = true -> starts_with [nl] o = false) ->
  no_space_before_newline (x :: o) = true.
Proof.
  intros Ho Hx. cbn [no_space_before_newline]. rewrite Ho, andb_true_r.
  destruct o as [|y o]; [reflexivity|].
  destruct (is_space x); [|reflexivity].
  specialize (Hx eq_refl). rewrite starts_with_nl in Hx. now rewrite Hx.
Qed.

Lemma strip_before_newline_from (n : nat) : forall (s : str) p,
  length s <= n ->
  no_space_before_newline (sub_from trailing_space_re [nl] p 0 s) = true
  /\ (run_has_newline s = false ->
      starts_with [nl] (sub_from trailing_space_re [nl] p 0 s) = false).
Proof.
  induction n as [|n IH]; intros s p Hn.
  - destruct s; [|simpl in Hn; lia]. now split.
  - destruct s as [|x t]; [now split|]. simpl in Hn.
    destruct (match_here trailing_space_re p (x :: t)) as [[|m]|] eqn:Hm.
    + rewrite trailing_space_unfold in Hm.
      destruct (is_space x); [|discriminate].
      now destruct (star_greedy Space newline_next (Some x) t).
    + pose proof Hm as Hm'. rewrite trailing_space_unfold in Hm'.
      destruct (is_space x) eqn:Hx; [|discriminate].
      destruct (star_greedy Space newline_next (Some x) t) as [m0|] eqn:Hg;
        [|discriminate].
      inversion Hm'; subst m0. clear Hm'.
      destruct (greedy_some _ _ Hg) as [[Hm1 Hm2] [Hr Hk]].
      assert (Hlen : length (firstn (S m) (x :: t)) = S m).
      { rewrite length_firstn. simpl. lia. }
      assert (Hsub : sub_from trailing_space_re [nl] p 0 (x :: t)
                     = [nl] ++ sub_from trailing_space_re [nl]
                                 (last_of p (firstn (S m) (x :: t))) 0
                                 (skipn (S m) (x :: t))).
      { rewrite <- (firstn_skipn (S m) (x :: t)) at 1.
        apply sub_from_match; [simpl; discriminate|].
        now rewrite firstn_skipn, Hlen. }
      rewrite Hsub. cbn [skipn].
      destruct (IH (skipn m t) (last_of p (firstn (S m) (x :: t)))) as [H1 H2].
      { rewrite length_skipn. lia. }
      split.
      * apply nsbn_cons; [exact H1|]. intros _. exact (H2 Hk).
      * cbn [run_has_newline]. rewrite Hx, Hr, orb_true_r. discriminate.
    + rewrite (sub_from_keep _ _ _ _ _ Hm).
      destruct (IH t (Some x) ltac:(lia)) as [H1 H2].
      rewrite trailing_space_unfold in Hm.
      split.
      * apply nsbn_cons; [exact H1|]. intros Hx. apply H2.
        rewrite Hx in Hm.
        destruct (star_greedy Space newline_next (Some x) t) eqn:Hg;
          [discriminate|exact (greedy_none _ _ Hg)].
      * rewrite starts_with_nl. cbn [run_has_newline].
        destruct (x =? nl)%N eqn:Hxn; [|reflexivity].
        apply N.eqb_eq in Hxn. subst x. discriminate.
Qed.

(** After line 87 no whitespace character, newline or not, stands right
    before a newline: no blank line is left. *)
Lemma strip_before_newline_spec (s : str) :
  no_space_before_newline (strip_before_newline s) = true.
Proof. exact (proj1 (strip_before_newline_from (n := length s) s None (le_n _))). Qed.

Lemma nsbn_strip (s : str) :
  no_space_before_newline s = true ->
  no_space_before_newline (strip s) = true.
Proof.
  intros H. destruct (strip_with_slice is_space s) as [a [b [Hs _]]].
  fold (strip s) in Hs. rewrite Hs in H.
  apply nsbn_app in H as [_ H]. now apply nsbn_app in H as [H _].
Qed.

End WhitespaceFacts.

Import WhitespaceFacts.

(* ================================================================== *)
(** * Facts about the tag passes on documents of complete tags *)

Module StripperFacts.

(** ** Names of components *)

Lemma component_name_ok c : In c components -> name_ok c.
Proof.
  assert (H : forallb (fun c => negb (str_eqb c []) && forallb is_letter c)
                components = true) by reflexivity.
  rewrite forallb_forall in H. intros Hc.
  apply H, andb_true_iff in Hc as [Hne Hl]. split; [|exact Hl].
  intros ->. discriminate.
Qed.

Lemma letter_bounds x : is_letter x = true -> (65 <= x)%N.
Proof.
  unfold is_letter. intros H. apply orb_true_iff in H as [H|H];
    apply andb_true_iff in H as [H _]; apply N.leb_le in H; lia.
Qed.

Lemma letters_no (d : char) (c : str) :
  (d < 65)%N -> forallb is_letter c = true -> ~ In d c.
Proof.
  intros Hd Hc Hin. rewrite forallb_forall in Hc.
  apply Hc, letter_bounds in Hin. lia.
Qed.

Lemma angle_free_no_lt (s : str) : angle_free s = true -> ~ In lt s.
Proof.
  unfold angle_free. rewrite forallb_forall. intros H Hin.
  apply H, andb_true_iff in Hin as [Hin _]. now rewrite N.eqb_refl in Hin.
Qed.

Lemma angle_free_no_gt (s : str) : angle_free s = true -> ~ In gt s.
Proof.
  unfold angle_free. rewrite forallb_forall. intros H Hin.
  apply H, andb_true_iff in Hin as [_ Hin]. now rewrite N.eqb_refl in Hin.
Qed.

Lemma not_gt_all (u : str) : forallb (mem (Not gt)) u = true <-> ~ In gt u.
Proof.
  rewrite forallb_forall. split.
  - intros H Hin. apply H in Hin. discriminate Hin.
  - intros H x Hx. simpl. destruct (x =? gt)%N eqn:E; [|reflexivity].
    apply N.eqb_eq in E. now subst.
Qed.

(** ** Lists cut at the first occurrence of a character *)

Lemma first_occurrence (d : char) (a b r1 r2 : str) :
  a ++ d :: r1 = b ++ d :: r2 -> ~ In d a -> ~ In d b ->
  a = b /\ r1 = r2.
Proof.
  revert b. induction a as [|x a IH]; intros b H Ha Hb.
  - destruct b as [|y b]; simpl in H.
    + now inversion H.
    + inversion H; subst. exfalso. apply Hb. now left.
  - destruct b as [|y b]; simpl in H.
    + inversion H; subst. exfalso. apply Ha. now left.
    + inversion H; subst.
      destruct (IH b H2) as [-> ->].
      * intros Hin. apply Ha. now right.
      * intros Hin. apply Hb. now right.
      * now split.
Qed.

Lemma before_occurrence (d : char) (u r y z : str) :
  u ++ r = y ++ d :: z -> ~ In d u ->
  exists y', y = u ++ y' /\ r = y' ++ d :: z.
Proof.
  revert y. induction u as [|x u IH]; intros y H Hu.
  - now exists y.
  - destruct y as [|x' y]; simpl in H.
    + inversion H; subst. exfalso. apply Hu. now left.
    + inversion H; subst.
      destruct (IH y H2) as [y' [-> ->]].
      * intros Hin. apply Hu. now right.
      * now exists y'.
Qed.

(** ** The shape of a rendered token *)

Lemma render_cons t toks :
  render (t :: toks) = render_token t ++ render toks.
Proof. reflexivity. Qed.

Lemma render_app a b : render (a ++ b) = render a ++ render b.
Proof. apply flat_map_app. Qed.

Lemma tag_shape t :
  tag_token t = true ->
  (exists c, t = Text c /\ c <> lt)
  \/ (render_token t = lt :: inner t ++ [gt]
      /\ ~ In lt (inner t) /\ ~ In gt (inner t)).
Proof.
  destruct t as [c|name attrs|name]; simpl; intros H.
  - left. exists c. split; [reflexivity|].
    intros ->. now rewrite N.eqb_refl in H.
  - right. apply andb_true_iff in H as [Ha _].
    split; [now rewrite <- app_assoc|].
    split; [now apply angle_free_no_lt|now apply angle_free_no_gt].
  - right. split; [reflexivity|].
    split; intros [Hin|Hin]; try discriminate; revert Hin;
      [now apply angle_free_no_lt|now apply angle_free_no_gt].
Qed.

(** A tag pattern that matches at a token reads the whole tag up to its
    closing [>]. *)
Lemma tag_head t toks (a r : str) :
  tag_token t = true ->
  render (t :: toks) = lt :: a ++ gt :: r -> ~ In gt a ->
  render_token t = lt :: inner t ++ [gt] /\ inner t = a /\ render toks = r.
Proof.
  intros Ht H Ha. rewrite render_cons in H.
  destruct (tag_shape t Ht) as [[c [-> Hc]]|[Hr [_ Hgt]]].
  - simpl in H. inversion H. congruence.
  - rewrite Hr in H. simpl in H. inversion H as [H'].
    rewrite <- app_assoc in H'. simpl in H'.
    destruct (first_occurrence gt _ _ _ _ H' Hgt Ha) as [E1 E2].
    repeat split; assumption.
Qed.

(** A closing tag in the text of a document is a [Close] token. *)
Lemma close_in_render c : name_ok c ->
  forall toks (y rest : str),
    tag_doc toks = true ->
    render toks = y ++ [lt; slash] ++ c ++ gt :: rest ->
    exists pre post, toks = pre ++ Close c :: post
                     /\ y = render pre /\ rest = render post.
Proof.
  intros [_ Hc]. induction toks as [|t toks IH]; intros y rest Hd H.
  - destruct y; discriminate.
  - simpl in Hd. apply andb_true_iff in Hd as [Ht Hd].
    rewrite render_cons in H.
    destruct (tag_shape t Ht) as [[x [-> Hx]]|[Hr [Hlt Hgt]]].
    + destruct y as [|y0 y]; simpl in H; inversion H; subst; [congruence|].
      destruct (IH _ _ Hd H2) as [pre [post [-> [-> ->]]]].
      now exists (Text y0 :: pre), post.
    + rewrite Hr in H. destruct y as [|y0 y].
      * simpl in H. inversion H as [H'].
        rewrite <- app_assoc in H'. simpl in H'.
        change (slash :: c ++ gt :: rest)
          with ((slash :: c) ++ gt :: rest) in H'.
        destruct (first_occurrence gt _ _ _ _ H' Hgt) as [Hi <-].
        { intros [Hin|Hin]; [discriminate|]. revert Hin.
          apply letters_no; [reflexivity|exact Hc]. }
        destruct t as [x|name attrs|name]; simpl in Hi.
        -- discriminate.
        -- simpl in Ht. apply andb_true_iff in Ht as [_ Hs].
           rewrite Hi in Hs. discriminate Hs.
        -- inversion Hi; subst. now exists [], toks.
      * simpl in H. inversion H as [[Hy H']]. subst y0.
        destruct (before_occurrence lt _ _ _ _ H') as [y' [-> Hrest]].
        { intros Hin. apply in_app_or in Hin as [Hin|[Hin|[]]];
            [now apply Hlt|discriminate]. }
        destruct (IH _ _ Hd Hrest) as [pre [post [-> [-> ->]]]].
        exists (t :: pre), post. repeat split.
        rewrite render_cons, Hr. simpl. now rewrite <- app_assoc.
Qed.

(** ** What the four tag patterns match *)

Lemma lit_lt : lit "<" = [lt].
Proof. reflexivity. Qed.
Lemma lit_gt : lit ">" = [gt].
Proof. reflexivity. Qed.
Lemma lit_lt_slash : lit "</" = [lt; slash].
Proof. reflexivity. Qed.
Lemma lit_slash_gt : lit "/>" = [slash; gt].
Proof. reflexivity. Qed.

Lemma open_shape c p s n :
  matches (open_re c) p s n ->
  exists u rest, s = lt :: (c ++ u) ++ gt :: rest /\ ~ In gt u
                 /\ n = length c + length u + 2.
Proof.
  unfold open_re. rewrite lit_lt, lit_gt. intros H.
  apply matches_chars in H as [s1 [n1 [-> [-> H]]]].
  apply matches_star in H as [u [s2 [n2 [-> [Hu [-> H]]]]]].
  apply matches_one in H as [x [s3 [n3 [-> [Hx [-> H]]]]]].
  apply matches_nil in H. subst n3.
  simpl in Hx. apply N.eqb_eq in Hx. subst x.
  exists u, s3. split; [|split].
  - simpl. now rewrite <- app_assoc.
  - now apply not_gt_all.
  - rewrite length_app. simpl. lia.
Qed.

Lemma self_closing_shape c p s n :
  matches (self_closing_re c) p s n ->
  exists u rest, s = lt :: (c ++ u ++ [slash]) ++ gt :: rest /\ ~ In gt u
                 /\ n = length c + length u + 3.
Proof.
  unfold self_closing_re. rewrite lit_lt, lit_slash_gt. intros H.
  apply matches_chars in H as [s1 [n1 [-> [-> H]]]].
  apply matches_star in H as [u [s2 [n2 [-> [Hu [-> H]]]]]].
  apply matches_one in H as [x [s3 [n3 [-> [Hx [-> H]]]]]].
  apply matches_one in H as [y [s4 [n4 [-> [Hy [-> H]]]]]].
  apply matches_nil in H. subst n4.
  simpl in Hx, Hy. apply N.eqb_eq in Hx, Hy. subst x y.
  exists u, s4. split; [|split].
  - simpl. now rewrite <- !app_assoc.
  - now apply not_gt_all.
  - rewrite length_app. simpl. lia.
Qed.

Lemma close_shape c p s n :
  matches (close_re c) p s n ->
  exists rest, s = lt :: (slash :: c) ++ gt :: rest /\ n = length c + 3.
Proof.
  unfold close_re. rewrite lit_lt_slash, lit_gt. intros H.
  rewrite <- (app_nil_r (chars _)) in H.
  apply matches_chars in H as [s1 [n1 [-> [-> H]]]].
  apply matches_nil in H. subst n1.
  exists s1. split.
  - simpl. now rewrite <- app_assoc.
  - rewrite !length_app. simpl. lia.
Qed.

Lemma paired_shape c p s n :
  matches (paired_re c) p s n ->
  exists u y rest,
    s = lt :: (c ++ u) ++ gt :: y ++ [lt; slash] ++ c ++ gt :: rest
    /\ ~ In gt u
    /\ n = (length c + length u + 2) + length y + (length c + 3).
Proof.
  unfold paired_re. rewrite lit_lt, lit_gt, lit_lt_slash. intros H.
  apply matches_chars in H as [s1 [n1 [-> [-> H]]]].
  apply matches_star in H as [u [s2 [n2 [-> [Hu [-> H]]]]]].
  apply matches_one in H as [x [s3 [n3 [-> [Hx [-> H]]]]]].
  apply matches_star in H as [y [s4 [n4 [-> [_ [-> H]]]]]].
  rewrite <- (app_nil_r (chars _)) in H.
  apply matches_chars in H as [s5 [n5 [-> [-> H]]]].
  apply matches_nil in H. subst n5.
  simpl in Hx. apply N.eqb_eq in Hx. subst x.
  exists u, y, s5. split; [|split].
  - simpl. rewrite <- !app_assoc. reflexivity.
  - now apply not_gt_all.
  - rewrite !length_app. simpl. lia.
Qed.

(** An opening tag whose text starts with the name is matched by the
    pattern of line 81, a closing tag of that name by the one of line 82. *)
Lemma open_found c (a rest : str) p :
  ~ In gt a -> match_here (open_re c) p (lt :: (c ++ a) ++ gt :: rest) <> None.
Proof.
  intros Ha.
  destruct (match_here_complete (r := open_re c) (p := p)
              (s := lt :: (c ++ a) ++ gt :: rest)
              (n := length (lit "<" ++ c) + (length a + 1))) as [n' Hn'].
  - unfold open_re. rewrite <- app_assoc.
    change (lt :: c ++ a ++ gt :: rest)
      with ((lit "<" ++ c) ++ a ++ gt :: rest).
    apply chars_matches. apply star_matches; [now apply not_gt_all|].
    rewrite lit_gt. simpl. constructor; [apply N.eqb_refl|constructor].
  - congruence.
Qed.

Lemma close_found c (rest : str) p :
  match_here (close_re c) p (lt :: (slash :: c) ++ gt :: rest) <> None.
Proof.
  destruct (match_here_complete (r := close_re c) (p := p)
              (s := lt :: (slash :: c) ++ gt :: rest)
              (n := length (lit "</" ++ c ++ lit ">") + 0)) as [n' Hn'].
  - unfold close_re. rewrite <- (app_nil_r (chars _)).
    change (lt :: (slash :: c) ++ gt :: rest)
      with (lit "</" ++ c ++ lit ">" ++ rest).
    rewrite !app_assoc. rewrite <- (app_assoc (lit "</")).
    apply chars_matches. constructor.
  - congruence.
Qed.

(** ** One substitution on a document of complete tags *)

Lemma render_token_tail t (u1 u2 : str) x y :
  tag_token t = true ->
  render_token t = (x :: u1) ++ y :: u2 -> y <> lt.
Proof.
  intros Ht H. destruct (tag_shape t Ht) as [[c [-> _]]|[Hr [Hlt _]]].
  - simpl in H. inversion H. now destruct u1.
  - rewrite Hr in H. simpl in H. inversion H as [[Hx H']]. intros ->.
    assert (Hin : In lt (inner t ++ [gt])).
    { rewrite H'. apply in_or_app. right. now left. }
    apply in_app_or in Hin as [Hin|[Hin|[]]]; [now apply Hlt|discriminate].
Qed.

Lemma tag_doc_incl toks toks' :
  incl toks' toks -> tag_doc toks = true -> tag_doc toks' = true.
Proof.
  unfold tag_doc. rewrite !forallb_forall. intros Hi H t Ht.
  now apply H, Hi.
Qed.

Lemma sub_tokens r : tag_pattern r ->
  forall k toks p,
    length toks <= k -> tag_doc toks = true ->
    exists toks', sub_from r [] p 0 (render toks) = render toks'
                  /\ incl toks' toks /\ Forall (survives r) toks'.
Proof.
  intros [Hlt Hal]. induction k as [|k IH]; intros toks p Hk Hd.
  - destruct toks; [|simpl in Hk; lia].
    exists []. simpl. split; [now destruct (match_here r p [])|].
    split; [apply incl_refl|constructor].
  - destruct toks as [|t rest].
    { exists []. simpl. split; [now destruct (match_here r p [])|].
      split; [apply incl_refl|constructor]. }
    simpl in Hk, Hd. apply andb_true_iff in Hd as [Ht Hd].
    destruct (match_here r p (render (t :: rest))) as [n|] eqn:Hm.
    + pose proof (match_here_sound _ _ _ Hm) as Hs.
      destruct (Hal _ _ _ _ Ht Hd Hs) as [pre [post [-> ->]]].
      assert (Hpost : tag_doc post = true).
      { unfold tag_doc in *. rewrite forallb_app in Hd.
        now apply andb_true_iff in Hd as [_ Hd]. }
      destruct (IH post (last_of p (render (t :: pre)))) as [toks' [He [Hi Hf]]];
        [rewrite length_app in Hk; lia|exact Hpost|].
      exists toks'.
      change (t :: pre ++ post) with ((t :: pre) ++ post) in Hm |- *.
      rewrite render_app in Hm |- *.
      rewrite sub_from_match; [|
        rewrite render_cons;
        destruct (tag_shape t Ht) as [[c [-> _]]|[Hr _]];
        [|rewrite Hr]; discriminate | exact Hm ].
      split; [exact He|]. split; [|exact Hf].
      intros x Hx. right. apply in_or_app. right. now apply Hi.
    + destruct (IH rest (last_of p (render_token t))) as [toks' [He [Hi Hf]]];
        [lia|exact Hd|].
      exists (t :: toks'). rewrite !render_cons.
      rewrite sub_from_keep_all.
      * rewrite He. split; [reflexivity|]. split.
        -- intros x [->|Hx]; [now left|right; now apply Hi].
        -- constructor; [now exists p, rest|exact Hf].
      * intros u1 y u2 Hu. destruct u1 as [|x u1].
        -- rewrite render_cons, Hu in Hm. exact Hm.
        -- apply no_match. intros n Hn.
           destruct (Hlt _ _ _ Hn) as [s' Hs']. inversion Hs'; subst y.
           eapply render_token_tail; [exact Ht|exact Hu|reflexivity].
Qed.

Lemma pass_tokens r toks :
  tag_pattern r -> tag_doc toks = true ->
  exists toks', sub r [] (render toks) = render toks'
                /\ incl toks' toks /\ Forall (survives r) toks'.
Proof. intros Hr Hd. now apply (sub_tokens Hr (k := length toks)). Qed.

(** ** The four patterns are tag patterns *)

Lemma length_render_one t : length (render [t]) = length (render_token t).
Proof. unfold render. simpl. now rewrite app_nil_r. Qed.

Lemma open_tag_pattern c : name_ok c -> tag_pattern (open_re c).
Proof.
  intros [_ Hc]. split.
  - intros p s n H. apply open_shape in H as [u [rest [-> _]]]. now eexists.
  - intros p t toks n Ht Hd H.
    apply open_shape in H as [u [rest [Hs [Hu ->]]]].
    destruct (tag_head t toks _ _ Ht Hs) as [Hr [Hi _]].
    { intros Hin. apply in_app_or in Hin as [Hin|Hin]; [|now apply Hu].
      revert Hin. apply letters_no; [reflexivity|exact Hc]. }
    exists [], toks. split; [reflexivity|].
    rewrite length_render_one, Hr, Hi. simpl.
    rewrite !length_app. simpl. lia.
Qed.

Lemma self_closing_tag_pattern c : name_ok c -> tag_pattern (self_closing_re c).
Proof.
  intros [_ Hc]. split.
  - intros p s n H. apply self_closing_shape in H as [u [rest [-> _]]].
    now eexists.
  - intros p t toks n Ht Hd H.
    apply self_closing_shape in H as [u [rest [Hs [Hu ->]]]].
    destruct (tag_head t toks _ _ Ht Hs) as [Hr [Hi _]].
    { intros Hin. apply in_app_or in Hin as [Hin|Hin].
      - revert Hin. apply letters_no; [reflexivity|exact Hc].
      - apply in_app_or in Hin as [Hin|[Hin|[]]];
          [now apply Hu|discriminate]. }
    exists [], toks. split; [reflexivity|].
    rewrite length_render_one, Hr, Hi. simpl.
    rewrite !length_app. simpl. lia.
Qed.

Lemma close_tag_pattern c : name_ok c -> tag_pattern (close_re c).
Proof.
  intros [_ Hc]. split.
  - intros p s n H. apply close_shape in H as [rest [-> _]]. now eexists.
  - intros p t toks n Ht Hd H.
    apply close_shape in H as [rest [Hs ->]].
    destruct (tag_head t toks _ _ Ht Hs) as [Hr [Hi _]].
    { intros [Hin|Hin]; [discriminate|]. revert Hin.
      apply letters_no; [reflexivity|exact Hc]. }
    exists [], toks. split; [reflexivity|].
    rewrite length_render_one, Hr, Hi. simpl.
    rewrite !length_app. simpl. lia.
Qed.

Lemma paired_tag_pattern c : name_ok c -> tag_pattern (paired_re c).
Proof.
  intros Hok. pose proof Hok as [_ Hc]. split.
  - intros p s n H. apply paired_shape in H as [u [y [rest [-> _]]]].
    now eexists.
  - intros p t toks n Ht Hd H.
    apply paired_shape in H as [u [y [rest [Hs [Hu ->]]]]].
    destruct (tag_head t toks _ _ Ht Hs) as [Hr [Hi Hrest]].
    { intros Hin. apply in_app_or in Hin as [Hin|Hin]; [|now apply Hu].
      revert Hin. apply letters_no; [reflexivity|exact Hc]. }
    destruct (close_in_render Hok toks y rest Hd Hrest)
      as [pre [post [-> [-> _]]]].
    exists (pre ++ [Close c]), post. split; [now rewrite <- app_assoc|].
    rewrite render_cons, render_app, !length_app, Hr, Hi.
    rewrite length_render_one. simpl. rewrite !length_app. simpl. lia.
Qed.

Unset Implicit Arguments.

(** ** The loops over [components] *)

Lemma fold_tokens (f : str -> regex) (cs : list str) :
  (forall c, In c cs -> tag_pattern (f c)) ->
  forall toks, tag_doc toks = true ->
    exists toks',
      fold_left (fun acc c => sub (f c) [] acc) cs (render toks) = render toks'
      /\ incl toks' toks.
Proof.
  induction cs as [|c cs IH]; intros Hf toks Hd.
  - exists toks. split; [reflexivity|apply incl_refl].
  - destruct (@pass_tokens _ toks (Hf c (or_introl eq_refl)) Hd)
      as [toks1 [E1 [I1 _]]].
    destruct (IH (fun c' H => Hf c' (or_intror H)) toks1
                (tag_doc_incl I1 Hd)) as [toks2 [E2 I2]].
    exists toks2. simpl. rewrite E1, E2. split; [reflexivity|].
    eapply incl_tran; eassumption.
Qed.

Lemma remove_bare_tokens (cs : list str) :
  (forall c, In c cs -> name_ok c) ->
  forall toks, tag_doc toks = true ->
    exists toks',
      fold_left (fun acc c => sub (close_re c) [] (sub (open_re c) [] acc))
        cs (render toks) = render toks'
      /\ incl toks' toks
      /\ forall c, In c cs -> Forall (untouched c) toks'.
Proof.
  induction cs as [|c cs IH]; intros Hok toks Hd.
  - exists toks. split; [reflexivity|]. split; [apply incl_refl|].
    intros c [].
  - pose proof (Hok c (or_introl eq_refl)) as Hc.
    destruct (@pass_tokens _ toks (open_tag_pattern Hc) Hd) as [toks1 [E1 [I1 F1]]].
    pose proof (tag_doc_incl I1 Hd) as Hd1.
    destruct (@pass_tokens _ toks1 (close_tag_pattern Hc) Hd1)
      as [toks2 [E2 [I2 F2]]].
    pose proof (tag_doc_incl I2 Hd1) as Hd2.
    destruct (IH (fun c' H => Hok c' (or_intror H)) toks2 Hd2)
      as [toks3 [E3 [I3 F3]]].
    exists toks3. simpl. rewrite E1, E2, E3. split; [reflexivity|].
    split; [eapply incl_tran; [exact I3|eapply incl_tran; eassumption]|].
    intros c' [<-|Hc']; [|now apply F3].
    apply Forall_forall. intros t Ht. split.
    + eapply Forall_forall; [exact F1|]. now apply I2, I3.
    + eapply Forall_forall; [exact F2|]. now apply I3.
Qed.

(** A tag that the patterns of the last loop did not touch has not the
    name of the component. *)
Lemma untouched_open c name attrs :
  tag_token (Open name attrs) = true -> untouched c (Open name attrs) ->
  starts_with c (name ++ attrs) = false.
Proof.
  intros Ht [[p [rest Hm]] _].
  destruct (starts_with c (name ++ attrs)) eqn:E; [|reflexivity]. exfalso.
  apply starts_with_split in E as [u E].
  apply (open_found c u (render rest) p).
  - simpl in Ht. apply andb_true_iff in Ht as [Ha _].
    apply angle_free_no_gt in Ha. rewrite E in Ha.
    intros Hin. apply Ha, in_or_app. now right.
  - rewrite <- Hm, render_cons. cbn [render_token].
    rewrite <- E, <- !app_assoc. reflexivity.
Qed.

Lemma untouched_close c : ~ untouched c (Close c).
Proof.
  intros [_ [p [rest Hm]]]. apply (close_found c (render rest) p).
  rewrite <- Hm, render_cons. cbn [render_token].
  rewrite <- !app_assoc. reflexivity.
Qed.

(** ** Where a tag can start in the text of a document *)

Lemma starts_with_more (p s b : str) :
  starts_with p s = true -> starts_with p (s ++ b) = true.
Proof.
  intros H. apply starts_with_split in H as [s' ->].
  rewrite <- app_assoc. apply starts_with_app.
Qed.

Lemma starts_with_cut (p u r : str) d :
  ~ In d p -> starts_with p (u ++ d :: r) = true -> starts_with p u = true.
Proof.
  revert u. induction p as [|a p IH]; intros u Hd H; [reflexivity|].
  destruct u as [|b u]; simpl in H |- *.
  - apply andb_true_iff in H as [H _]. apply N.eqb_eq in H. subst.
    exfalso. apply Hd. now left.
  - apply andb_true_iff in H as [H1 H2]. rewrite H1. simpl.
    apply (IH u); [|exact H2]. intros Hin. apply Hd. now right.
Qed.

Lemma contains_cons (p : str) x (s : str) :
  contains p (x :: s) = starts_with p (x :: s) || contains p s.
Proof. reflexivity. Qed.

Lemma starts_with_cons a (p : str) b (s : str) :
  starts_with (a :: p) (b :: s) = (a =? b)%N && starts_with p s.
Proof. reflexivity. Qed.

Lemma contains_lt_run (q u s : str) :
  ~ In lt u -> contains (lt :: q) (u ++ s) = contains (lt :: q) s.
Proof.
  induction u as [|y u IH]; intros Hu; [reflexivity|].
  cbn [app]. rewrite contains_cons, starts_with_cons.
  destruct (lt =? y)%N eqn:E.
  - apply N.eqb_eq in E. subst y. exfalso. apply Hu. now left.
  - cbn [andb orb]. apply IH. intros Hin. apply Hu. now right.
Qed.

Lemma occurrence_at_tag (q : str) toks :
  tag_doc toks = true ->
  contains (lt :: q) (render toks) = true ->
  exists t rest,
    In t toks /\ render_token t = lt :: inner t ++ [gt]
    /\ starts_with q (inner t ++ gt :: rest) = true.
Proof.
  induction toks as [|t toks IH]; intros Hd H; [discriminate H|].
  cbn [tag_doc forallb] in Hd. apply andb_true_iff in Hd as [Ht Hd].
  rewrite render_cons in H.
  destruct (tag_shape t Ht) as [[x [-> Hx]]|[Hr [Hlt Hgt]]].
  - cbn [render_token] in H. rewrite contains_lt_run in H.
    + destruct (IH Hd H) as [t' [rest [Hin H']]].
      exists t', rest. split; [now right|exact H'].
    + intros [Hin|[]]. congruence.
  - rewrite Hr in H.
    change ((lt :: inner t ++ [gt]) ++ render toks)
      with (lt :: (inner t ++ [gt]) ++ render toks) in H.
    rewrite contains_cons, starts_with_cons, N.eqb_refl in H.
    cbn [andb] in H. apply orb_true_iff in H as [H|H].
    + exists t, (render toks). split; [now left|]. split; [exact Hr|].
      rewrite <- app_assoc in H. exact H.
    + rewrite contains_lt_run in H.
      * destruct (IH Hd H) as [t' [rest [Hin H']]].
        exists t', rest. split; [now right|exact H'].
      * intros Hin. apply in_app_or in Hin as [Hin|[Hin|[]]];
          [now apply Hlt|discriminate Hin].
Qed.

Lemma render_without_tag c toks :
  name_ok c -> tag_doc toks = true ->
  Forall (untouched c) toks -> no_tag_of c (render toks).
Proof.
  intros [Hne Hc] Hd Hu. unfold no_tag_of. rewrite lit_lt, lit_lt_slash, lit_gt.
  rewrite Forall_forall in Hu.
  assert (Hdt : forall t, In t toks -> tag_token t = true).
  { unfold tag_doc in Hd. now rewrite forallb_forall in Hd. }
  split; match goal with |- ?b = false => destruct b eqn:E end;
    try reflexivity; exfalso.
  - destruct (occurrence_at_tag c toks Hd E) as [t [rest [Hin [Hr Hs]]]].
    apply starts_with_cut in Hs;
      [|apply letters_no; [reflexivity|exact Hc]].
    destruct t as [x|name attrs|name]; simpl in Hs.
    + discriminate Hr.
    + rewrite (untouched_open c name attrs (Hdt _ Hin) (Hu _ Hin)) in Hs.
      discriminate Hs.
    + destruct c as [|c0 c]; [congruence|]. simpl in Hs, Hc.
      apply andb_true_iff in Hs as [Hs _]. apply N.eqb_eq in Hs. subst c0.
      discriminate Hc.
  - change ([lt; slash] ++ c ++ [gt]) with (lt :: (slash :: c) ++ [gt]) in E.
    destruct (occurrence_at_tag _ toks Hd E) as [t [rest [Hin [Hr Hs]]]].
    apply starts_with_split in Hs as [s' Hs].
    rewrite <- app_assoc in Hs. simpl in Hs.
    change (slash :: c ++ gt :: s') with ((slash :: c) ++ gt :: s') in Hs.
    destruct (tag_shape t (Hdt _ Hin)) as [[x [-> _]]|[_ [_ Hgt]]];
      [discriminate Hr|].
    apply first_occurrence in Hs as [Hi _]; [|exact Hgt|].
    + destruct t as [x|name attrs|name]; simpl in Hi.
      * discriminate Hi.
      * pose proof (Hdt _ Hin) as Ht. simpl in Ht.
        apply andb_true_iff in Ht as [_ Ht]. rewrite Hi in Ht.
        discriminate Ht.
      * inversion Hi; subst name. exact (untouched_close c (Hu _ Hin)).
    + intros [Hin'|Hin']; [discriminate Hin'|]. revert Hin'.
      apply letters_no; [reflexivity|exact Hc].
Qed.

Lemma remove_comments_id (s : str) :
  search comment_re s = false -> remove_comments s = s.
Proof. apply sub_from_no_match. Qed.

(** On a document of complete tags without a comment region the three
    loops leave no tag of a component. *)
Lemma strip_markup_tokens toks :
  tag_doc toks = true ->
  search comment_re (render toks) = false ->
  forall c, In c components -> no_tag_of c (strip_markup (render toks)).
Proof.
  intros Hd Hc c Hin. unfold strip_markup.
  rewrite (remove_comments_id _ Hc).
  destruct (fold_tokens paired_re components
              (fun c H => paired_tag_pattern (@component_name_ok c H)) toks Hd)
    as [toks1 [E1 I1]].
  pose proof (tag_doc_incl I1 Hd) as Hd1.
  destruct (fold_tokens self_closing_re components
              (fun c H => self_closing_tag_pattern (@component_name_ok c H))
              toks1 Hd1) as [toks2 [E2 I2]].
  pose proof (tag_doc_incl I2 Hd1) as Hd2.
  destruct (remove_bare_tokens components (@component_name_ok) toks2 Hd2)
    as [toks3 [E3 [I3 F3]]].
  pose proof (tag_doc_incl I3 Hd2) as Hd3.
  unfold remove_paired, remove_self_closing, remove_bare.
  rewrite E1, E2, E3. clear E1 E2 E3.
  exact (render_without_tag c toks3 (component_name_ok Hin) Hd3 (F3 c Hin)).
Qed.

(** A text whose tags are complete is the text of such a document. *)
Lemma complete_tokens (s : str) :
  (complete_from false s = true ->
   exists toks, s = render toks /\ tag_doc toks = true)
  /\ (complete_from true s = true ->
      exists body toks, s = body ++ gt :: render toks
                        /\ angle_free body = true /\ tag_doc toks = true).
Proof.
  induction s as [|x s [IHo IHi]].
  - split; [|discriminate]. intros _. now exists [].
  - split; cbn [complete_from]; destruct (x =? lt)%N eqn:El.
    + apply N.eqb_eq in El. subst x. cbn [negb andb]. intros H.
      destruct (IHi H) as [body [toks [-> [Hb Hd]]]].
      destruct (starts_with [slash] body) eqn:Es.
      * apply starts_with_split in Es as [name ->].
        exists (Close name :: toks). rewrite render_cons.
        cbn [render_token]. split.
        { cbn [app]. rewrite <- app_assoc. reflexivity. }
        cbn [tag_doc forallb tag_token]. fold (tag_doc toks).
        rewrite Hd, andb_true_r.
        unfold angle_free in Hb |- *. cbn [app forallb] in Hb.
        now apply andb_true_iff in Hb as [_ Hb].
      * exists (Open [] body :: toks). rewrite render_cons.
        cbn [render_token]. split.
        { cbn [app]. rewrite <- app_assoc. reflexivity. }
        cbn [tag_doc forallb tag_token app]. fold (tag_doc toks).
        now rewrite Hb, Es, Hd.
    + intros H.
      assert (H' : complete_from false s = true)
        by (destruct (x =? gt)%N; exact H).
      destruct (IHo H') as [toks [-> Hd]].
      exists (Text x :: toks). split; [reflexivity|].
      cbn [tag_doc forallb tag_token]. fold (tag_doc toks).
      now rewrite El, Hd.
    + cbn [negb andb]. discriminate.
    + destruct (x =? gt)%N eqn:Eg; intros H.
      * apply N.eqb_eq in Eg. subst x.
        destruct (IHo H) as [toks [-> Hd]]. now exists [], toks.
      * destruct (IHi H) as [body [toks [-> [Hb Hd]]]].
        exists (x :: body), toks. split; [reflexivity|].
        split; [|exact Hd]. unfold angle_free in Hb |- *.
        cbn [forallb]. now rewrite El, Eg, Hb.
Qed.

Lemma complete_tags_doc (s : str) :
  complete_tags s = true ->
  exists toks, s = render toks /\ tag_doc toks = true.
Proof. apply complete_tokens. Qed.

(** ** Documents without tags *)

Lemma contains_intro (l u v : str) :
  starts_with l v = true -> contains l (u ++ v) = true.
Proof.
  intros H. destruct (contains l (u ++ v)) eqn:E; [reflexivity|].
  apply contains_suffix, contains_head in E. congruence.
Qed.

Lemma sub_id_without (l : str) (r : regex) (s : str) :
  (forall p v n, matches r p v n -> starts_with l v = true) ->
  contains l s = false -> sub r [] s = s.
Proof.
  intros Hr Hs. apply sub_from_no_match, search_from_none.
  intros p u v ->. apply no_match. intros n Hn.
  apply Hr in Hn. now rewrite (contains_intro l u v Hn) in Hs.
Qed.

Lemma open_prefix c p v n :
  matches (open_re c) p v n -> starts_with (lit "<" ++ c) v = true.
Proof.
  intros H. apply open_shape in H as [u [rest [-> _]]]. rewrite lit_lt.
  replace (lt :: (c ++ u) ++ gt :: rest) with (([lt] ++ c) ++ u ++ gt :: rest)
    by (simpl; now rewrite <- app_assoc).
  apply starts_with_app.
Qed.

Lemma self_closing_prefix c p v n :
  matches (self_closing_re c) p v n -> starts_with (lit "<" ++ c) v = true.
Proof.
  intros H. apply self_closing_shape in H as [u [rest [-> _]]].
  rewrite lit_lt.
  replace (lt :: (c ++ u ++ [slash]) ++ gt :: rest)
    with (([lt] ++ c) ++ (u ++ [slash]) ++ gt :: rest)
    by (simpl; now rewrite <- !app_assoc).
  apply starts_with_app.
Qed.

Lemma paired_prefix c p v n :
  matches (paired_re c) p v n -> starts_with (lit "<" ++ c) v = true.
Proof.
  intros H. apply paired_shape in H as [u [y [rest [-> _]]]].
  rewrite lit_lt.
  match goal with
  | |- starts_with _ (lt :: (c ++ u) ++ ?r) = true =>
      replace (lt :: (c ++ u) ++ r) with (([lt] ++ c) ++ u ++ r)
        by (simpl; now rewrite <- app_assoc)
  end.
  apply starts_with_app.
Qed.

Lemma close_prefix c p v n :
  matches (close_re c) p v n ->
  starts_with (lit "</" ++ c ++ lit ">") v = true.
Proof.
  intros H. apply close_shape in H as [rest [-> _]].
  rewrite lit_lt_slash, lit_gt.
  replace (lt :: (slash :: c) ++ gt :: rest)
    with (([lt; slash] ++ c ++ [gt]) ++ rest)
    by (simpl; now rewrite <- app_assoc).
  apply starts_with_app.
Qed.

Lemma fold_id {A} (f : A -> str -> str) (cs : list A) (s : str) :
  (forall c, In c cs -> f c s = s) ->
  fold_left (fun acc c => f c acc) cs s = s.
Proof.
  induction cs as [|c cs IH]; intros H; [reflexivity|].
  simpl. rewrite (H c (or_introl eq_refl)).
  apply IH. intros c' Hc'. apply H. now right.
Qed.

Lemma strip_markup_id (s : str) :
  search comment_re s = false ->
  (forall c, In c components -> no_tag_of c s) ->
  strip_markup s = s.
Proof.
  intros Hc Ht. unfold strip_markup. rewrite (remove_comments_id _ Hc).
  unfold remove_paired, remove_self_closing, remove_bare.
  rewrite (fold_id (fun c acc => sub (paired_re c) [] acc) components s).
  rewrite (fold_id (fun c acc => sub (self_closing_re c) [] acc) components s).
  rewrite (fold_id (fun c acc => sub (close_re c) [] (sub (open_re c) [] acc))
             components s).
  - reflexivity.
  - intros c Hin. destruct (Ht c Hin) as [Ho Hcl].
    rewrite (sub_id_without (lit "<" ++ c) (open_re c) s (open_prefix c) Ho).
    exact (sub_id_without _ (close_re c) s (close_prefix c) Hcl).
  - intros c Hin. destruct (Ht c Hin) as [Ho _].
    exact (sub_id_without _ (self_closing_re c) s (self_closing_prefix c) Ho).
  - intros c Hin. destruct (Ht c Hin) as [Ho _].
    exact (sub_id_without _ (paired_re c) s (paired_prefix c) Ho).
Qed.

Lemma comment_prefix p v n :
  matches comment_re p v n -> exists v', v = lbrace :: v'.
Proof.
  unfold comment_re. intros H.
  apply matches_chars in H as [s1 [n1 [-> _]]]. now eexists.
Qed.

Lemma no_brace_no_comment (s : str) :
  ~ In lbrace s -> search comment_re s = false.
Proof.
  intros Hs. apply search_from_none. intros p u v ->.
  apply no_match. intros n Hn. apply comment_prefix in Hn as [v' ->].
  apply Hs, in_or_app. right. now left.
Qed.

(** ** Whitespace passes do not put words together *)

Lemma contains_nil (s : str) : contains [] s = true.
Proof. now destruct s. Qed.

Lemma contains_app_r (p a b : str) :
  contains p b = true -> contains p (a ++ b) = true.
Proof.
  intros H. destruct (contains p (a ++ b)) eqn:E; [reflexivity|].
  apply contains_suffix in E. congruence.
Qed.

Lemma contains_app_l (p a b : str) :
  contains p a = true -> contains p (a ++ b) = true.
Proof.
  induction a as [|x a IH]; intros H.
  - destruct p; [apply contains_nil|discriminate H].
  - simpl in H |- *. apply orb_true_iff in H as [H|H].
    + change (x :: a ++ b) with ((x :: a) ++ b).
      now rewrite (starts_with_more p (x :: a) b H).
    + rewrite (IH H). apply orb_true_r.
Qed.

Lemma space_free_head (p s : str) x :
  space_free p = true -> is_space x = true ->
  starts_with p (x :: s) = true -> p = [].
Proof.
  destruct p as [|y p]; [reflexivity|]. simpl. intros Hp Hx H.
  apply andb_true_iff in Hp as [Hy _].
  apply andb_true_iff in H as [H _]. apply N.eqb_eq in H. subst y.
  now rewrite Hx in Hy.
Qed.

Lemma contains_after_spaces (p w b : str) :
  space_free p = true -> forallb is_space w = true ->
  contains p (w ++ b) = true -> contains p b = true.
Proof.
  intros Hp. induction w as [|x w IH]; intros Hw H; [exact H|].
  simpl in Hw. apply andb_true_iff in Hw as [Hx Hw].
  simpl in H. apply orb_true_iff in H as [H|H].
  - rewrite (space_free_head p (w ++ b) x Hp Hx H). apply contains_nil.
  - now apply IH.
Qed.

Lemma contains_space_split (p a b : str) x :
  space_free p = true -> is_space x = true ->
  contains p (a ++ x :: b) = true ->
  contains p a = true \/ contains p b = true.
Proof.
  intros Hp Hx. induction a as [|y a IH]; intros H.
  - right. apply (contains_after_spaces p [x] b Hp); [|exact H].
    simpl. now rewrite Hx.
  - simpl in H. apply orb_true_iff in H as [H|H].
    + left. simpl. apply orb_true_iff. left.
      apply (starts_with_cut p (y :: a) b x); [|exact H].
      intros Hin. unfold space_free in Hp. rewrite forallb_forall in Hp.
      apply Hp in Hin. now rewrite Hx in Hin.
    + destruct (IH H) as [H'|H']; [left|now right].
      simpl. rewrite H'. apply orb_true_r.
Qed.

(** [t] is the word that the output ends with so far. *)
Lemma sub_keeps_words r repl (p : str) :
  space_free p = true -> forallb is_space repl = true ->
  space_pattern r repl ->
  forall k (s : str) prev (t : str),
    length s <= k ->
    (after_space prev = true -> t = []) ->
    contains p (t ++ sub_from r repl prev 0 s) = true ->
    contains p (t ++ s) = true.
Proof.
  intros Hp Hrepl Hr. induction k as [|k IH]; intros s prev t Hk Hinv H.
  - destruct s; [|simpl in Hk; lia].
    destruct (match_here r prev []) as [n|] eqn:Hm.
    + destruct (Hr _ _ _ Hm) as [m [rest [E [_ [Hne _]]]]].
      destruct m; [congruence|discriminate E].
    + now rewrite (@sub_from_end r repl prev Hm) in H.
  - destruct s as [|x s].
    { destruct (match_here r prev []) as [n|] eqn:Hm.
      + destruct (Hr _ _ _ Hm) as [m [rest [E [_ [Hne _]]]]].
        destruct m; [congruence|discriminate E].
      + now rewrite (@sub_from_end r repl prev Hm) in H. }
    simpl in Hk.
    destruct (match_here r prev (x :: s)) as [n|] eqn:Hm.
    + destruct (Hr _ _ _ Hm) as [m [rest [E [-> [Hne [Hm_sp Hprev]]]]]].
      rewrite E in Hm, H |- *.
      rewrite (@sub_from_match r repl m rest prev Hne Hm) in H.
      assert (Hlen : length rest <= k).
      { apply (f_equal (@length _)) in E. rewrite length_app in E.
        simpl in E. destruct m; [congruence|simpl in E; lia]. }
      assert (Hrest : contains p (sub_from r repl (last_of prev m) 0 rest)
                      = true -> contains p (t ++ m ++ rest) = true).
      { intros H'. rewrite app_assoc. apply contains_app_r.
        apply (IH rest (last_of prev m) [] Hlen (fun _ => eq_refl) H'). }
      destruct repl as [|y repl].
      * rewrite (Hinv (Hprev eq_refl)) in H. apply Hrest. exact H.
      * simpl in Hrepl. apply andb_true_iff in Hrepl as [Hy Hrepl'].
        change (t ++ (y :: repl) ++ sub_from r (y :: repl) (last_of prev m) 0 rest)
          with (t ++ y :: (repl ++ sub_from r (y :: repl) (last_of prev m) 0 rest))
          in H.
        apply (contains_space_split p t _ y Hp Hy) in H as [H|H].
        -- now apply contains_app_l.
        -- apply Hrest. exact (contains_after_spaces p repl _ Hp Hrepl' H).
    + rewrite (@sub_from_keep r repl x s prev Hm) in H.
      destruct (is_space x) eqn:Hx.
      * apply (contains_space_split p t _ x Hp Hx) in H as [H|H].
        -- now apply contains_app_l.
        -- change (t ++ x :: s) with (t ++ [x] ++ s). rewrite app_assoc.
           apply contains_app_r.
           apply (IH s (Some x) [] ltac:(lia) (fun _ => eq_refl) H).
      * change (t ++ x :: s) with (t ++ [x] ++ s). rewrite app_assoc.
        apply (IH s (Some x) (t ++ [x]) ltac:(lia)).
        -- simpl. rewrite Hx. discriminate.
        -- rewrite <- app_assoc. exact H.
Qed.

Lemma sub_keeps (r : regex) (repl p s : str) :
  space_free p = true -> forallb is_space repl = true ->
  space_pattern r repl ->
  contains p (sub r repl s) = true -> contains p s = true.
Proof.
  intros Hp Hrepl Hr H.
  exact (sub_keeps_words r repl p Hp Hrepl Hr (length s) s None []
           (le_n _) (fun _ => eq_refl) H).
Qed.

Ltac list_eq :=
  repeat (progress (cbn [app]; rewrite <- ?app_assoc)); reflexivity.

Lemma blank_lines_space : space_pattern blank_lines_re [nl; nl].
Proof.
  intros prev s n H. apply match_here_sound in H. unfold blank_lines_re in H.
  apply matches_one in H as [x [s1 [n1 [-> [Hx [-> H]]]]]].
  apply matches_star in H as [u1 [s2 [n2 [-> [Hu1 [-> H]]]]]].
  apply matches_one in H as [y [s3 [n3 [-> [Hy [-> H]]]]]].
  apply matches_star in H as [u2 [s4 [n4 [-> [Hu2 [-> H]]]]]].
  apply matches_one in H as [z [s5 [n5 [-> [Hz [-> H]]]]]].
  apply matches_nil in H. subst n5.
  simpl in Hx, Hy, Hz. apply N.eqb_eq in Hx, Hy, Hz. subst x y z.
  exists (nl :: u1 ++ nl :: u2 ++ [nl]), s5.
  split; [list_eq|].
  split; [cbn [length]; rewrite !length_app; cbn [length];
          rewrite !length_app; cbn [length]; lia|].
  split; [discriminate|]. split; [|discriminate].
  change (forallb is_space u1 = true) in Hu1.
  change (forallb is_space u2 = true) in Hu2.
  cbn [forallb]. rewrite forallb_app. cbn [forallb].
  rewrite forallb_app. cbn [forallb].
  now rewrite Hu1, Hu2, is_space_nl.
Qed.

Lemma space_line_space : space_pattern space_line_re [].
Proof.
  intros prev s n H. apply match_here_sound in H. unfold space_line_re in H.
  inversion H as [| | | |r0 p0 s0 n0 Hb H1|]; subst. clear H.
  apply matches_one in H1 as [x [s1 [n1 [-> [Hx [-> H]]]]]].
  apply matches_star in H as [u [s2 [n2 [-> [Hu [-> H]]]]]].
  inversion H as [| | | | |r0 p0 s0 n0 He H2]; subst. clear H.
  apply matches_nil in H2. subst n2.
  exists (x :: u), s2. split; [reflexivity|].
  split; [cbn [length]; lia|]. split; [discriminate|].
  change (forallb is_space u = true) in Hu.
  change (is_space x = true) in Hx.
  split; [cbn [forallb]; now rewrite Hx, Hu|].
  intros _. destruct prev as [c|]; [|reflexivity].
  cbn [at_line_start] in Hb. apply N.eqb_eq in Hb. now subst c.
Qed.

Lemma trailing_space_space : space_pattern trailing_space_re [nl].
Proof.
  intros prev s n H. apply match_here_sound in H.
  unfold trailing_space_re in H.
  apply matches_one in H as [x [s1 [n1 [-> [Hx [-> H]]]]]].
  apply matches_star in H as [u [s2 [n2 [-> [Hu [-> H]]]]]].
  apply matches_one in H as [y [s3 [n3 [-> [Hy [-> H]]]]]].
  apply matches_nil in H. subst n3.
  simpl in Hx, Hy. apply N.eqb_eq in Hy. subst y.
  exists (x :: u ++ [nl]), s3.
  split; [list_eq|].
  split; [cbn [length]; rewrite !length_app; cbn [length]; lia|].
  split; [discriminate|]. split; [|discriminate].
  change (forallb is_space u = true) in Hu.
  cbn [forallb]. rewrite forallb_app. cbn [forallb].
  now rewrite Hx, Hu, is_space_nl.
Qed.

Lemma normalize_whitespace_keeps (p s : str) :
  space_free p = true ->
  contains p (normalize_whitespace s) = true -> contains p s = true.
Proof.
  intros Hp H. unfold normalize_whitespace, strip_before_newline,
    blank_space_lines, collapse_blank_lines in H.
  apply (sub_keeps trailing_space_re [nl] p _ Hp eq_refl
           trailing_space_space) in H.
  apply (sub_keeps space_line_re [] p _ Hp eq_refl space_line_space) in H.
  exact (sub_keeps blank_lines_re [nl; nl] p s Hp eq_refl
           blank_lines_space H).
Qed.

Lemma strip_keeps (p s : str) :
  contains p (strip s) = true -> contains p s = true.
Proof.
  intros H. destruct (strip_with_slice is_space s) as [a [b [E _]]].
  fold (strip s) in E. rewrite E.
  apply contains_app_r, contains_app_l, H.
Qed.

Lemma component_tag_space_free c :
  In c components ->
  space_free (lit "<" ++ c) = true
  /\ space_free (lit "</" ++ c ++ lit ">") = true.
Proof.
  assert (H : forallb (fun c => space_free (lit "<" ++ c)
                                && space_free (lit "</" ++ c ++ lit ">"))
                components = true) by reflexivity.
  rewrite forallb_forall in H. intros Hc.
  now apply H, andb_true_iff in Hc.
Qed.

(** The whitespace passes and the final [strip] bring no tag of a
    component into the text. *)
Lemma process_no_new_tag c (s : str) :
  In c components ->
  no_tag_of c (strip_markup s) -> no_tag_of c (process_mdx_content s).
Proof.
  intros Hc [H1 H2]. destruct (component_tag_space_free c Hc) as [S1 S2].
  unfold process_mdx_content.
  split; match goal with |- ?b = false => destruct b eqn:E end;
    try reflexivity; exfalso.
  - apply strip_keeps, (normalize_whitespace_keeps _ _ S1) in E. congruence.
  - apply strip_keeps, (normalize_whitespace_keeps _ _ S2) in E. congruence.
Qed.

(** ** The whole of [process_mdx_content] *)

Lemma fold_In {A} (f : A -> str -> str) x (cs : list A) :
  (forall c s, In x (f c s) -> In x s) ->
  forall s, In x (fold_left (fun acc c => f c acc) cs s) -> In x s.
Proof.
  intros Hf. induction cs as [|c cs IH]; intros s H; [exact H|].
  simpl in H. now apply IH, Hf in H.
Qed.

Lemma sub_empty_In r x (s : str) : In x (sub r [] s) -> In x s.
Proof. intros H. now destruct (sub_from_In _ _ _ _ _ _ H). Qed.

Lemma remove_paired_In x (s : str) : In x (remove_paired s) -> In x s.
Proof.
  exact (fold_In (fun c acc => sub (paired_re c) [] acc) x components
           (fun c s' => sub_empty_In (paired_re c) x s') s).
Qed.

Lemma remove_self_closing_In x (s : str) :
  In x (remove_self_closing s) -> In x s.
Proof.
  exact (fold_In (fun c acc => sub (self_closing_re c) [] acc) x components
           (fun c s' => sub_empty_In (self_closing_re c) x s') s).
Qed.

Lemma remove_bare_In x (s : str) : In x (remove_bare s) -> In x s.
Proof.
  exact (fold_In (fun c acc => sub (close_re c) [] (sub (open_re c) [] acc))
           x components
           (fun c s' H => sub_empty_In (open_re c) x s'
                            (sub_empty_In (close_re c) x _ H)) s).
Qed.

Lemma strip_markup_In x (s : str) : In x (strip_markup s) -> In x s.
Proof.
  unfold strip_markup. intros H.
  apply remove_bare_In, remove_self_closing_In, remove_paired_In in H.
  exact (sub_empty_In comment_re x s H).
Qed.

Lemma normalize_whitespace_In x (s : str) :
  In x (normalize_whitespace s) -> In x s \/ x = nl.
Proof.
  unfold normalize_whitespace, strip_before_newline, blank_space_lines,
    collapse_blank_lines, sub.
  intros H.
  apply sub_from_In in H as [H|[<-|[]]]; [|now right].
  apply sub_from_In in H as [H|[]].
  apply sub_from_In in H as [H|[<-|[<-|[]]]]; auto.
Qed.

Lemma process_In x (s : str) :
  In x (process_mdx_content s) -> In x s \/ x = nl.
Proof.
  unfold process_mdx_content, strip. intros H.
  apply strip_with_In, normalize_whitespace_In in H as [H|H];
    [left|right; exact H].
  exact (strip_markup_In x s H).
Qed.

Lemma process_nsbn (s : str) :
  no_space_before_newline (process_mdx_content s) = true.
Proof. apply nsbn_strip, strip_before_newline_spec. Qed.

(** A text that the tag passes leave alone and that has no whitespace
    before a newline is only trimmed. *)
Lemma process_plain (s : str) :
  strip_markup s = s -> no_space_before_newline s = true ->
  process_mdx_content s = strip s.
Proof.
  intros Hm Hs. unfold process_mdx_content, normalize_whitespace.
  rewrite Hm, (collapse_blank_lines_id _ Hs).
  destruct (blank_space_lines_from s None Hs) as [t [w [E [Ht Hw]]]].
  unfold blank_space_lines, sub. rewrite Ht.
  assert (Hnt : no_space_before_newline t = true).
  { rewrite E in Hs. now apply nsbn_app in Hs. }
  rewrite (strip_before_newline_id _ Hnt).
  unfold strip. rewrite E. symmetry. apply strip_with_trailing. exact Hw.
Qed.

End StripperFacts.

Import StripperFacts.

Unset Implicit Arguments.

(* ================================================================== *)
(** * Facts about the new field set and its serialization *)

Module NormalizerFacts.

(** ** [dict] updates *)

Lemma dict_set_In d k v k1 v1 :
  In (k1, v1) (dict_set d k v) -> k1 = k \/ exists v0, In (k1, v0) d.
Proof.
  induction d as [|[k' v'] d IH]; simpl.
  - intros [H|[]]. inversion H. now left.
  - destruct (str_eqb k' k) eqn:E.
    + apply str_eqb_eq in E. subst k'.
      intros [H|H]; [inversion H; now left|].
      right. exists v1. now right.
    + intros [H|H].
      * inversion H; subst. right. exists v1. now left.
      * destruct (IH H) as [->|[v0 H0]]; [now left|].
        right. exists v0. now right.
Qed.

(** ** The new field set *)

Lemma map_field_head fm d item d' k0 :
  head_key d = Some k0 -> map_field fm d item = Ok d' -> head_key d' = Some k0.
Proof.
  destruct item as [old_key new_key]. unfold map_field, bind.
  destruct (py_in old_key fm) as [b|e]; [|discriminate].
  destruct (b && negb (str_eqb old_key (lit "title"))).
  - destruct (py_getitem fm old_key) as [v|e]; [|discriminate].
    destruct d as [|[k1 v1] d]; [discriminate|].
    intros H E. inversion H; subst. inversion E as [E'].
    now destruct (str_eqb k0 new_key).
  - intros H E. now inversion E; subst.
Qed.

Lemma map_fields_head fm items : forall d d' k0,
  head_key d = Some k0 -> map_fields fm d items = Ok d' ->
  head_key d' = Some k0.
Proof.
  induction items as [|item items IH]; intros d d' k0 H E; simpl in E.
  - now inversion E; subst.
  - unfold bind in E. destruct (map_field fm d item) as [d1|e] eqn:E1;
      [|discriminate].
    eapply IH; [|exact E]. eapply map_field_head; eassumption.
Qed.

(** The title is the first entry of the new field set. *)
Lemma new_fields_title_first fm new_fm :
  new_fields fm = Ok new_fm -> py_in (lit "title") fm = Ok true ->
  head_key new_fm = Some (lit "title").
Proof.
  unfold new_fields, handle_title, bind. intros E Hin. rewrite Hin in E.
  destruct (py_getitem fm (lit "title")) as [v|e]; [|discriminate].
  destruct v as [| | |s| |]; try discriminate.
  eapply map_fields_head; [|exact E]. reflexivity.
Qed.

Lemma map_field_from fm d item d' :
  In item frontmatter_mapping -> from_mapping fm d ->
  map_field fm d item = Ok d' -> from_mapping fm d'.
Proof.
  destruct item as [old_key new_key]. unfold map_field, bind.
  intros Hitem Hd.
  destruct (py_in old_key fm) as [b|e] eqn:Hin; [|discriminate].
  destruct b; simpl.
  - destruct (negb (str_eqb old_key (lit "title")));
      [|intros E; now inversion E; subst].
    destruct (py_getitem fm old_key) as [v|e]; [|discriminate].
    intros E. inversion E; subst. intros k v1 Hk.
    apply dict_set_In in Hk as [->|[v0 H0]].
    + now exists old_key.
    + exact (Hd k v0 H0).
  - intros E. now inversion E; subst.
Qed.

Lemma map_fields_from fm items : forall d d',
  incl items frontmatter_mapping -> from_mapping fm d ->
  map_fields fm d items = Ok d' -> from_mapping fm d'.
Proof.
  induction items as [|item items IH]; intros d d' Hi Hd E; simpl in E.
  - now inversion E; subst.
  - unfold bind in E. destruct (map_field fm d item) as [d1|e] eqn:E1;
      [|discriminate].
    apply (IH d1 d'); [|eapply map_field_from; eauto|exact E].
    + intros x Hx. apply Hi. now right.
    + apply Hi. now left.
Qed.

Lemma new_fields_from fm new_fm :
  new_fields fm = Ok new_fm -> from_mapping fm new_fm.
Proof.
  unfold new_fields, handle_title, bind. intros E.
  destruct (py_in (lit "title") fm) as [b|e] eqn:Hin; [|discriminate].
  assert (H0 : from_mapping fm []) by (intros k v []).
  destruct b.
  - destruct (py_getitem fm (lit "title")) as [v|e]; [|discriminate].
    destruct v as [| | |s| |]; try discriminate.
    eapply map_fields_from; [apply incl_refl| |exact E].
    intros k v [H|[]]. inversion H; subst.
    exists (lit "title"). split; [|exact Hin]. right. right. now left.
  - eapply map_fields_from; [apply incl_refl|exact H0|exact E].
Qed.

(** ** Fields without a mapping entry do not count *)

Lemma existsb_filter {A} (f g : A -> bool) (l : list A) :
  (forall x, f x = true -> g x = true) ->
  existsb f (filter g l) = existsb f l.
Proof.
  intros H. induction l as [|x l IH]; [reflexivity|]. simpl.
  destruct (g x) eqn:Hg; simpl; rewrite IH; [reflexivity|].
  destruct (f x) eqn:Hf; [|reflexivity]. apply H in Hf. congruence.
Qed.

Lemma find_filter {A} (f g : A -> bool) (l : list A) :
  (forall x, f x = true -> g x = true) ->
  find f (filter g l) = find f l.
Proof.
  intros H. induction l as [|x l IH]; [reflexivity|]. simpl.
  destruct (g x) eqn:Hg; simpl; rewrite IH; [reflexivity|].
  destruct (f x) eqn:Hf; [|reflexivity]. apply H in Hf. congruence.
Qed.

Lemma source_is_mapped src tgt kv :
  In (src, tgt) frontmatter_mapping ->
  is_key src (fst kv) = true -> mapped_field kv = true.
Proof.
  intros Hin Hk. unfold mapped_field. apply existsb_exists.
  now exists (src, tgt).
Qed.

Lemma py_in_filter src tgt m :
  In (src, tgt) frontmatter_mapping ->
  py_in src (Map (filter mapped_field m)) = py_in src (Map m).
Proof.
  intros Hin. simpl. f_equal. apply existsb_filter.
  intros kv. apply (source_is_mapped src tgt kv Hin).
Qed.

Lemma py_getitem_filter src tgt m :
  In (src, tgt) frontmatter_mapping ->
  py_getitem (Map (filter mapped_field m)) src = py_getitem (Map m) src.
Proof.
  intros Hin. simpl. rewrite find_filter; [reflexivity|].
  intros kv. apply (source_is_mapped src tgt kv Hin).
Qed.

Lemma map_fields_filter m items : forall d,
  incl items frontmatter_mapping ->
  map_fields (Map (filter mapped_field m)) d items
  = map_fields (Map m) d items.
Proof.
  induction items as [|[src tgt] items IH]; intros d Hi; [reflexivity|].
  cbn [map_fields map_field].
  rewrite (py_in_filter src tgt m (Hi _ (or_introl eq_refl))).
  rewrite (py_getitem_filter src tgt m (Hi _ (or_introl eq_refl))).
  unfold bind. destruct (py_in src (Map m)) as [b|e]; [|reflexivity].
  destruct (b && negb (str_eqb src (lit "title"))).
  - destruct (py_getitem (Map m) src); [|reflexivity].
    apply IH. intros x Hx. apply Hi. now right.
  - apply IH. intros x Hx. apply Hi. now right.
Qed.

Lemma new_fields_filter m :
  new_fields (Map (filter mapped_field m)) = new_fields (Map m).
Proof.
  unfold new_fields, handle_title.
  assert (Ht : In (lit "title", lit "title") frontmatter_mapping)
    by (right; right; now left).
  rewrite (py_in_filter _ _ m Ht), (py_getitem_filter _ _ m Ht).
  unfold bind. destruct (py_in (lit "title") (Map m)) as [b|e]; [|reflexivity].
  destruct b.
  - destruct (py_getitem (Map m) (lit "title")) as [v|e]; [|reflexivity].
    destruct v; try reflexivity. apply map_fields_filter, incl_refl.
  - apply map_fields_filter, incl_refl.
Qed.

(** ** The order of the serialized keys *)

Lemma str_ltb_asym a : forall b, str_ltb a b = true -> str_ltb b a = false.
Proof.
  induction a as [|x a IH]; intros [|y b] H; simpl in *;
    try reflexivity; try discriminate.
  apply orb_true_iff in H as [H|H].
  - apply N.ltb_lt in H.
    assert (H1 : (y <? x)%N = false) by (apply N.ltb_ge; lia).
    assert (H2 : (y =? x)%N = false) by (apply N.eqb_neq; lia).
    now rewrite H1, H2.
  - apply andb_true_iff in H as [H1 H2]. apply N.eqb_eq in H1. subst y.
    rewrite N.ltb_irrefl, N.eqb_refl. simpl. now apply IH.
Qed.

Lemma insert_sorted_perm kv d : Permutation (insert_sorted kv d) (kv :: d).
Proof.
  induction d as [|kv' d IH]; simpl; [apply Permutation_refl|].
  destruct (str_ltb (fst kv') (fst kv)); [|apply Permutation_refl].
  eapply perm_trans; [apply perm_skip, IH|apply perm_swap].
Qed.

Lemma insert_sorted_sorted kv d :
  Sorted key_le d -> Sorted key_le (insert_sorted kv d).
Proof.
  induction d as [|kv' d IH]; intros Hd; simpl.
  - repeat constructor.
  - destruct (str_ltb (fst kv') (fst kv)) eqn:E.
    + inversion Hd as [|? ? Hs Hh]; subst. constructor; [now apply IH|].
      destruct d as [|kv'' d]; simpl.
      * constructor. now apply str_ltb_asym.
      * destruct (str_ltb (fst kv'') (fst kv)); constructor.
        -- now inversion Hh.
        -- now apply str_ltb_asym.
    + constructor; [exact Hd|]. constructor. exact E.
Qed.

Lemma sorted_items_sorted d : Sorted key_le (sorted_items d).
Proof.
  induction d as [|kv d IH]; simpl; [constructor|].
  now apply insert_sorted_sorted.
Qed.

Lemma sorted_items_perm d : Permutation (sorted_items d) d.
Proof.
  induction d as [|kv d IH]; simpl; [constructor|].
  eapply perm_trans; [apply insert_sorted_perm|now apply perm_skip].
Qed.

(** ** The normalizer as a whole *)

Lemma clean_frontmatter_loaded yaml content fm_content rest v :
  frontmatter_match content = Some (fm_content, rest) ->
  safe_load yaml fm_content = Some (Loaded v) ->
  clean_frontmatter yaml content =
  match new_fields (or_empty_dict v) with
  | Raise e => Some (Raise e)
  | Ok new_fm =>
      match dump yaml new_fm with
      | None => None
      | Some new_fm_str =>
          Some (Ok (lit "---\n" ++ new_fm_str ++ lit "---\n" ++ rest))
      end
  end.
Proof. intros Hm Hl. unfold clean_frontmatter. now rewrite Hm, Hl. Qed.

(** A body that the library refuses leaves the document as it is. *)
Lemma clean_frontmatter_yaml_error yaml content fm_content rest :
  frontmatter_match content = Some (fm_content, rest) ->
  safe_load yaml fm_content = Some YAMLError ->
  clean_frontmatter yaml content = Some (Ok content).
Proof. intros Hm Hl. unfold clean_frontmatter. now rewrite Hm, Hl. Qed.

Lemma clean_frontmatter_no_block yaml content :
  frontmatter_match content = None ->
  clean_frontmatter yaml content = Some (Ok content).
Proof. intros Hm. unfold clean_frontmatter. now rewrite Hm. Qed.

Lemma or_empty_dict_map m : or_empty_dict (Map m) = Map m.
Proof. now destruct m. Qed.

End NormalizerFacts.

Import NormalizerFacts.

(* ================================================================== *)
(** * The markup stripper *)

Lemma brace_free_In (s : str) : brace_free s = true -> ~ In lbrace s.
Proof.
  unfold brace_free. rewrite forallb_forall. intros H Hin.
  apply H in Hin. now rewrite N.eqb_refl in Hin.
Qed.

Lemma process_no_component_tag (doc : str) :
  complete_tags doc = true ->
  search comment_re doc = false ->
  forall c, In c components -> no_tag_of c (process_mdx_content doc).
Proof.
  intros Hd Hc c Hin.
  destruct (complete_tags_doc doc Hd) as [toks [-> Ht]].
  apply process_no_new_tag; [exact Hin|].
  exact (strip_markup_tokens toks Ht Hc c Hin).
Qed.

(** C1, as stated, does not hold: an opening tag that is never closed by
    [>] matches none of the patterns and stays in the output. *)
Lemma C1_unclosed_tag_stays :
  ~ (forall doc name : str,
       In name components ->
       contains (lit "<" ++ name) (process_mdx_content doc) = false
       /\ contains (lit "</" ++ name ++ lit ">") (process_mdx_content doc)
          = false).
Proof.
  intros H.
  destruct (H (lit "see <Card title") (lit "Card")) as [H1 _].
  - left. reflexivity.
  - vm_compute in H1. discriminate H1.
Qed.

(** C1, amended: on a document in which every [<] is closed by a [>]
    before the next [<], and which has no Mintlify comment region, no
    [<TagName] and no [</TagName>] is left after [process_mdx_content]
    for any TagName in the list [components] of the stripper. *)
Theorem C1_component_tags_removed (doc : str) :
  complete_tags doc = true ->
  search comment_re doc = false ->
  forall name : str,
    In name components ->
    contains (lit "<" ++ name) (process_mdx_content doc) = false
    /\ contains (lit "</" ++ name ++ lit ">") (process_mdx_content doc)
       = false.
Proof. exact (process_no_component_tag doc). Qed.

Lemma C1_component_tags_removed_witness :
  let doc :=
    lit "Intro <b>x</b> <Card title=\qA\q>body</Card><Frame src=\qx.png\q /> a > b" in
  complete_tags doc = true
  /\ search comment_re doc = false
  /\ In (lit "Card") components
  /\ contains (lit "<" ++ lit "Card") (process_mdx_content doc) = false
  /\ contains (lit "</" ++ lit "Card" ++ lit ">") (process_mdx_content doc)
     = false.
Proof.
  intros doc.
  split; [vm_compute; reflexivity|].
  split; [vm_compute; reflexivity|].
  split; [left; reflexivity|].
  apply (C1_component_tags_removed doc);
    [vm_compute; reflexivity|vm_compute; reflexivity|left; reflexivity].
Defined.

(** C2, as stated, does not hold: a document without frontmatter and
    without any tag loses the space before a newline in its middle. *)
Lemma C2_inner_whitespace_changes :
  ~ (forall doc : str,
       frontmatter_match doc = None -> ~ In lt doc ->
       process_mdx_content doc = strip doc).
Proof.
  intros H. specialize (H (lit "a \nb")).
  assert (E : process_mdx_content (lit "a \nb") = strip (lit "a \nb")).
  { apply H; [vm_compute; reflexivity|].
    intros Hin. vm_compute in Hin.
    repeat (destruct Hin as [Hin|Hin]; [discriminate Hin|]). exact Hin. }
  vm_compute in E. discriminate E.
Qed.

(** C2, amended: a document with no Mintlify comment region, no tag of a
    component and no whitespace character right before a newline is
    returned with only its leading and trailing whitespace trimmed. *)
Theorem C2_plain_document_trimmed (doc : str) :
  search comment_re doc = false ->
  (forall c : str, In c components ->
     contains (lit "<" ++ c) doc = false
     /\ contains (lit "</" ++ c ++ lit ">") doc = false) ->
  no_space_before_newline doc = true ->
  process_mdx_content doc = strip doc.
Proof.
  intros Hc Ht Hs. apply process_plain; [|exact Hs].
  apply strip_markup_id; [exact Hc|exact Ht].
Qed.

Lemma C2_plain_document_trimmed_witness :
  let doc := lit "  # Title\nif a < b then {x}  \t" in
  process_mdx_content doc = strip doc.
Proof.
  intros doc. apply (C2_plain_document_trimmed doc).
  - vm_compute. reflexivity.
  - intros c Hc. vm_compute in Hc.
    repeat (destruct Hc as [Hc|Hc];
            [rewrite <- Hc; vm_compute; split; reflexivity|]).
    destruct Hc.
  - vm_compute. reflexivity.
Defined.

(** C3: the code at the input of the divergence.  Line 87 takes the
    newline of a blank line for whitespace before a newline, so the blank
    line that line 85 keeps is removed; step (c) in the words of the
    specification leaves it. *)
Theorem C3_blank_line_removed :
  strip_before_newline (lit "a\n\nb") = lit "a\nb"
  /\ spec_strip_trailing_horizontal (lit "a\n\nb") = lit "a\n\nb"
  /\ collapse_blank_lines (lit "a\n\n\n\nb") = lit "a\n\nb"
  /\ normalize_whitespace (lit "a\n\n\n\nb") = lit "a\nb"
  /\ (forall s : str,
        no_space_before_newline (normalize_whitespace s) = true).
Proof.
  repeat split; try (vm_compute; reflexivity).
  intros s. apply strip_before_newline_spec.
Qed.

(** C6, as stated, does not hold: the output is not [outer</Tabs>]. *)
Lemma C6_close_tag_not_left :
  process_mdx_content (lit "<Tabs><Tabs>inner</Tabs>outer</Tabs>")
  <> lit "outer</Tabs>".
Proof. vm_compute. discriminate. Qed.

(** C6, amended: the paired-tag pass ends the region at the first closing
    tag and leaves [outer</Tabs>]; the pass over the remaining tags then
    deletes the closing tag, and the stripper returns [outer]. *)
Theorem C6_nested_same_tag :
  remove_paired (remove_comments (lit "<Tabs><Tabs>inner</Tabs>outer</Tabs>"))
  = lit "outer</Tabs>"
  /\ process_mdx_content (lit "<Tabs><Tabs>inner</Tabs>outer</Tabs>")
     = lit "outer".
Proof. split; vm_compute; reflexivity. Qed.

(** C8, as stated, does not hold: removing a tag can put the two halves
    of a comment marker together, and the second run deletes the comment
    that the first run left. *)
Lemma C8_second_run_differs :
  ~ (forall toks : list token,
       component_doc toks = true -> no_same_tag_nesting toks = true ->
       process_mdx_content (process_mdx_content (render toks))
       = process_mdx_content (render toks)).
Proof.
  intros H.
  specialize (H (text (lit "{/* Mint") ++ [Open (lit "Tip") []]
                 ++ text (lit "x") ++ [Close (lit "Tip")]
                 ++ text (lit "lify */}"))).
  vm_compute in H. specialize (H eq_refl eq_refl). discriminate H.
Qed.

(** C8, amended: on a document in which every [<] is closed by a [>]
    before the next [<] and which holds no [{], a second run of the
    stripper returns the output of the first. *)
Theorem C8_idempotent_without_braces (doc : str) :
  complete_tags doc = true ->
  brace_free doc = true ->
  process_mdx_content (process_mdx_content doc) = process_mdx_content doc.
Proof.
  intros Hd Hb. apply brace_free_In in Hb.
  assert (Hbr : ~ In lbrace (process_mdx_content doc)).
  { intros Hin. apply process_In in Hin as [Hin|Hin];
      [exact (Hb Hin)|discriminate Hin]. }
  rewrite process_plain.
  - unfold process_mdx_content at 1, strip. apply strip_with_idem.
  - apply strip_markup_id; [exact (no_brace_no_comment _ Hbr)|].
    exact (process_no_component_tag doc Hd (no_brace_no_comment _ Hb)).
  - apply process_nsbn.
Qed.

Lemma C8_idempotent_without_braces_witness :
  let doc :=
    lit "Intro\n\n<Tabs><Card title=\qA\q>body  \n</Card></Tabs>\n\n\n<Tab>kept</Tab> end " in
  process_mdx_content (process_mdx_content doc) = process_mdx_content doc.
Proof.
  intros doc.
  apply (C8_idempotent_without_braces doc); vm_compute; reflexivity.
Defined.

(* ================================================================== *)
(** * The frontmatter normalizer *)

(** C4: the code at the input of the divergence.  Lines 107 and 108 strip
    the quotes at the two ends and put a pair of double quotes into the
    value itself, and [yaml.dump] has to quote that text once more.  The
    three spellings of the title come out as the line [title: '"Hello"']
    and not as [title: "Hello"]: the block that was read loads to the
    title [Hello], the block that is written loads to the title
    ["Hello"], quote characters included. *)
Theorem C4_title_quoted_twice :
  let out := lit "---\ntitle: '\qHello\q'\n---\n" in
  clean_frontmatter pyyaml (lit "---\ntitle: 'Hello'\n---") = Some (Ok out)
  /\ clean_frontmatter pyyaml (lit "---\ntitle: \qHello\q\n---") = Some (Ok out)
  /\ clean_frontmatter pyyaml (lit "---\ntitle: Hello\n---") = Some (Ok out)
  /\ contains (lit "title: \qHello\q\n") out = false
  /\ safe_load pyyaml (lit "title: 'Hello'")
     = Some (Loaded (Map [(Str (lit "title"), Str (lit "Hello"))]))
  /\ safe_load pyyaml (lit "title: '\qHello\q'")
     = Some (Loaded (Map [(Str (lit "title"), Str (lit "\qHello\q"))])).
Proof. repeat split; vm_compute; reflexivity. Qed.

(** C5: the code at the input of the divergence.  Lines 105 to 108 set
    the title first, and the description comes behind it in the new field
    set; line 120 calls [yaml.dump] without [sort_keys=False], so the
    library sorts the keys and the block that is written starts with the
    description line and ends with the title line. *)
Theorem C5_title_written_last :
  let fm_data :=
    Map [(Str (lit "title"), Str (lit "Hello"));
         (Str (lit "description"), Str (lit "World"))] in
  let out := lit "---\ndescription: '\qWorld\q'\ntitle: '\qHello\q'\n---\n\n" in
  safe_load pyyaml (lit "title: Hello\ndescription: World")
  = Some (Loaded fm_data)
  /\ new_fields fm_data
     = Ok [(lit "title", Str (lit "\qHello\q"));
           (lit "description", Str (lit "\qWorld\q"))]
  /\ clean_frontmatter pyyaml
       (lit "---\ntitle: Hello\ndescription: World\n---\n") = Some (Ok out)
  /\ title_leads out = false.
Proof. repeat split; vm_compute; reflexivity. Qed.

(** C7: the code at the input of the divergence.  A title that is not a
    string makes line 107 raise [AttributeError], which the handler for
    [yaml.YAMLError] does not catch; a description that is not a string is
    passed on, because the loop asks [isinstance(value, str)] first. *)
Theorem C7_non_string_title_raises :
  clean_frontmatter pyyaml (lit "---\ntitle: 5\n---\n")
  = Some (Raise AttributeError)
  /\ clean_frontmatter pyyaml (lit "---\ndescription: 5\n---\n")
     = Some (Ok (lit "---\ndescription: 5\n---\n\n")).
Proof. split; vm_compute; reflexivity. Qed.

(** C9: when the frontmatter parses and the normalizer returns, the
    output block is the serialization of a field set each of whose keys
    is the target of a mapping entry whose source is in the parsed data;
    and the parsed data without its unmapped fields gives the same field
    set. *)
Theorem C9_unmapped_fields_dropped (yaml : yaml_module)
  (content fm_content rest out : str) (fm_data : value) :
  frontmatter_match content = Some (fm_content, rest) ->
  safe_load yaml fm_content = Some (Loaded fm_data) ->
  clean_frontmatter yaml content = Some (Ok out) ->
  exists (new_fm : fields) (new_fm_str : str),
    new_fields (or_empty_dict fm_data) = Ok new_fm
    /\ dump yaml new_fm = Some new_fm_str
    /\ out = lit "---\n" ++ new_fm_str ++ lit "---\n" ++ rest
    /\ (forall k v, In (k, v) new_fm ->
          exists src, In (src, k) frontmatter_mapping
                      /\ py_in src (or_empty_dict fm_data) = Ok true)
    /\ (forall m, fm_data = Map m ->
          new_fields (Map (filter mapped_field m)) = Ok new_fm).
Proof.
  intros Hm Hl Hc.
  rewrite (clean_frontmatter_loaded yaml content fm_content rest fm_data Hm Hl)
    in Hc.
  destruct (new_fields (or_empty_dict fm_data)) as [new_fm|e] eqn:En;
    [|discriminate Hc].
  destruct (dump yaml new_fm) as [new_fm_str|] eqn:Ed; [|discriminate Hc].
  inversion Hc as [Ho]. exists new_fm, new_fm_str.
  split; [reflexivity|]. split; [exact Ed|]. split; [reflexivity|].
  split; [exact (new_fields_from _ _ En)|].
  intros m ->. rewrite new_fields_filter. now rewrite or_empty_dict_map in En.
Qed.

Lemma C9_unmapped_fields_dropped_witness :
  let content := lit "---\nsidebarTitle: Intro\nauthor: Me\ntitle: Hello\n---\n# Doc" in
  let out := lit "---\nsidebar_label: '\qIntro\q'\ntitle: '\qHello\q'\n---\n\n# Doc" in
  let fm_data :=
    Map [(Str (lit "sidebarTitle"), Str (lit "Intro"));
         (Str (lit "author"), Str (lit "Me"));
         (Str (lit "title"), Str (lit "Hello"))] in
  exists (new_fm : fields) (new_fm_str : str),
    new_fields (or_empty_dict fm_data) = Ok new_fm
    /\ dump pyyaml new_fm = Some new_fm_str
    /\ out = lit "---\n" ++ new_fm_str ++ lit "---\n" ++ lit "\n# Doc"
    /\ (forall k v, In (k, v) new_fm ->
          exists src, In (src, k) frontmatter_mapping
                      /\ py_in src (or_empty_dict fm_data) = Ok true)
    /\ (forall m, fm_data = Map m ->
          new_fields (Map (filter mapped_field m)) = Ok new_fm).
Proof.
  intros content out fm_data.
  apply (C9_unmapped_fields_dropped pyyaml content
           (lit "sidebarTitle: Intro\nauthor: Me\ntitle: Hello")
           (lit "\n# Doc") out fm_data); vm_compute; reflexivity.
Defined.

(** C10, as stated, does not hold: the body [5] parses, to the number 5,
    and holds none of the three names, but ['title' in 5] raises
    [TypeError], which the handler of line 125 does not catch. *)
Lemma C10_number_body_raises :
  frontmatter_match (lit "---\n5\n---\n# Doc") = Some (lit "5", lit "\n# Doc")
  /\ safe_load Sample.pyyaml_scalars (lit "5") = Some (Loaded (Int 5))
  /\ clean_frontmatter Sample.pyyaml_scalars (lit "---\n5\n---\n# Doc")
     = Some (Raise TypeError).
Proof. repeat split; vm_compute; reflexivity. Qed.

(** C10, amended: a document that starts with a frontmatter block whose
    body loads to a falsy value, an empty body among them, or to a value
    in which the test [in] answers [False] for each of the three source
    names, is rewritten to start with a block whose body is the line
    [{}], which is what [yaml.dump] writes for the empty field set. *)
Theorem C10_empty_field_set_written (yaml : yaml_module)
  (content fm_content rest : str) (v : value) :
  dump yaml [] = Some (lit "{}\n") ->
  frontmatter_match content = Some (fm_content, rest) ->
  safe_load yaml fm_content = Some (Loaded v) ->
  truthy v = false
  \/ (forall src tgt, In (src, tgt) frontmatter_mapping ->
        py_in src v = Ok false) ->
  clean_frontmatter yaml content = Some (Ok (lit "---\n{}\n---\n" ++ rest)).
Proof.
  intros Hd Hm Hl Hn.
  rewrite (clean_frontmatter_loaded yaml content fm_content rest v Hm Hl).
  assert (En : new_fields (or_empty_dict v) = Ok []).
  { unfold or_empty_dict. destruct (truthy v) eqn:Et; [|reflexivity].
    destruct Hn as [Hn|Hn]; [discriminate Hn|].
    unfold new_fields, handle_title, frontmatter_mapping.
    rewrite (Hn (lit "title") (lit "title"))
      by (right; right; left; reflexivity).
    cbn [bind map_fields map_field].
    rewrite (Hn (lit "sidebarTitle") (lit "sidebar_label"))
      by (left; reflexivity).
    rewrite (Hn (lit "description") (lit "description"))
      by (right; left; reflexivity).
    rewrite (Hn (lit "title") (lit "title"))
      by (right; right; left; reflexivity).
    reflexivity. }
  rewrite En, Hd. reflexivity.
Qed.

Lemma C10_empty_field_set_written_witness :
  clean_frontmatter pyyaml (lit "---\nauthor: Me\ndraft: true\n---\n# Doc")
  = Some (Ok (lit "---\n{}\n---\n" ++ lit "\n# Doc"))
  /\ clean_frontmatter pyyaml (lit "---\n\n---\n# Doc")
     = Some (Ok (lit "---\n{}\n---\n" ++ lit "\n# Doc")).
Proof.
  split.
  - apply (C10_empty_field_set_written pyyaml
             (lit "---\nauthor: Me\ndraft: true\n---\n# Doc")
             (lit "author: Me\ndraft: true") (lit "\n# Doc")
             (Map [(Str (lit "author"), Str (lit "Me"));
                   (Str (lit "draft"), Bool true)])).
    + vm_compute. reflexivity.
    + vm_compute. reflexivity.
    + vm_compute. reflexivity.
    + right. intros src tgt H. vm_compute in H.
      repeat (destruct H as [H|H];
              [inversion H; subst; vm_compute; reflexivity|]).
      destruct H.
  - apply (C10_empty_field_set_written pyyaml
             (lit "---\n\n---\n# Doc") [] (lit "\n# Doc") Null).
    + vm_compute. reflexivity.
    + vm_compute. reflexivity.
    + vm_compute. reflexivity.
    + left. reflexivity.
Defined.

(* ================================================================== *)
(** * What the stripper keeps of a text *)

Module OrderFacts.

Lemma embeds_nil_l (s : str) : embeds [] s.
Proof. induction s; constructor; assumption. Qed.

Lemma embeds_refl (s : str) : embeds s s.
Proof. induction s; constructor; assumption. Qed.

Lemma embeds_app (a b c d : str) :
  embeds a b -> embeds c d -> embeds (a ++ c) (b ++ d).
Proof.
  intros Hab Hcd. induction Hab; simpl.
  - exact Hcd.
  - now apply embeds_skip.
  - now apply embeds_keep.
Qed.

Lemma embeds_trans (a b c : str) : embeds a b -> embeds b c -> embeds a c.
Proof.
  intros Hab Hbc. revert a Hab.
  induction Hbc as [|x b c Hbc IH|x b c Hbc IH]; intros a Hab.
  - exact Hab.
  - constructor. now apply IH.
  - inversion Hab; subst; constructor; now apply IH.
Qed.

Lemma embeds_length (a b : str) : embeds a b -> length a <= length b.
Proof. induction 1; simpl; lia. Qed.

Lemma embeds_In (a b : str) x : embeds a b -> In x a -> In x b.
Proof.
  induction 1 as [|y a b _ IH|y a b _ IH]; intros Hin.
  - exact Hin.
  - right. now apply IH.
  - destruct Hin as [->|Hin]; [now left|right; now apply IH].
Qed.

(** The test finds every embedding. *)
Lemma subseq_step (b : str) :
  (forall a x, subseq a b = true -> subseq a (x :: b) = true)
  /\ (forall y a, subseq (y :: a) b = true -> subseq a b = true).
Proof.
  induction b as [|z b [IH1 IH2]].
  - split.
    + intros [|y a] x H; [reflexivity|discriminate H].
    + intros y a H. discriminate H.
  - assert (H2 : forall y a, subseq (y :: a) (z :: b) = true ->
                             subseq a (z :: b) = true).
    { intros y a H. cbn [subseq] in H. destruct (y =? z)%N.
      - now apply IH1.
      - now apply IH1, (IH2 y). }
    split; [|exact H2].
    intros [|y a] x H; [reflexivity|].
    change (subseq (y :: a) (x :: z :: b))
      with (if (y =? x)%N then subseq a (z :: b) else subseq (y :: a) (z :: b)).
    destruct (y =? x)%N; [now apply (H2 y)|exact H].
Qed.

Lemma embeds_subseq (a b : str) : embeds a b -> subseq a b = true.
Proof.
  induction 1 as [|x a b _ IH|x a b _ IH].
  - reflexivity.
  - now apply subseq_step.
  - cbn [subseq]. now rewrite N.eqb_refl.
Qed.

Lemma subseq_embeds (a : str) : forall b, subseq a b = true -> embeds a b.
Proof.
  induction a as [|x a IH]; intros b H; [apply embeds_nil_l|].
  induction b as [|y b IHb]; [discriminate H|].
  cbn [subseq] in H. destruct (x =? y)%N eqn:E.
  - apply N.eqb_eq in E. subst y. apply embeds_keep. now apply IH.
  - apply embeds_skip. now apply IHb.
Qed.

(** [re.sub] leaves characters out when each replacement is what is left
    of the match after leaving characters out. *)
Lemma sub_from_embeds r repl :
  (forall p s n, match_here r p s = Some n -> embeds repl (firstn n s)) ->
  forall (s : str) p k, embeds (sub_from r repl p k s) (skipn k s).
Proof.
  intros Hr. induction s as [|x s IH]; intros p k.
  - cbn [sub_from]. rewrite skipn_nil.
    destruct k as [|k]; [|constructor].
    destruct (match_here r p []) as [n|] eqn:Hm; [|constructor].
    specialize (Hr _ _ _ Hm). now rewrite firstn_nil in Hr.
  - destruct k as [|k]; cbn [sub_from skipn]; [|apply IH].
    destruct (match_here r p (x :: s)) as [[|n]|] eqn:Hm.
    + specialize (Hr _ _ _ Hm). cbn [firstn] in Hr. inversion Hr; subst.
      cbn [app]. apply embeds_keep. apply (IH (Some x) 0).
    + specialize (Hr _ _ _ Hm).
      rewrite <- (firstn_skipn (S n) (x :: s)).
      apply embeds_app; [exact Hr|]. cbn [skipn]. apply IH.
    + apply embeds_keep. apply (IH (Some x) 0).
Qed.

Lemma sub_embeds r repl (s : str) :
  (forall p s n, match_here r p s = Some n -> embeds repl (firstn n s)) ->
  embeds (sub r repl s) s.
Proof. intros Hr. exact (sub_from_embeds r repl Hr s None 0). Qed.

Lemma sub_empty_embeds r (s : str) : embeds (sub r [] s) s.
Proof. apply sub_embeds. intros p s' n _. apply embeds_nil_l. Qed.

Lemma fold_embeds {A} (f : A -> str -> str) (cs : list A) :
  (forall c s, embeds (f c s) s) ->
  forall s, embeds (fold_left (fun acc c => f c acc) cs s) s.
Proof.
  intros Hf. induction cs as [|c cs IH]; intros s; [apply embeds_refl|].
  simpl. eapply embeds_trans; [apply IH|apply Hf].
Qed.

Lemma strip_markup_embeds (s : str) : embeds (strip_markup s) s.
Proof.
  unfold strip_markup.
  eapply embeds_trans; [|apply (sub_empty_embeds comment_re)].
  eapply embeds_trans;
    [|exact (fold_embeds (fun c acc => sub (paired_re c) [] acc) components
               (fun c s' => sub_empty_embeds (paired_re c) s') _)].
  eapply embeds_trans;
    [|exact (fold_embeds (fun c acc => sub (self_closing_re c) [] acc)
               components
               (fun c s' => sub_empty_embeds (self_closing_re c) s') _)].
  exact (fold_embeds
           (fun c acc => sub (close_re c) [] (sub (open_re c) [] acc))
           components
           (fun c s' => embeds_trans _ _ _
                          (sub_empty_embeds (close_re c) _)
                          (sub_empty_embeds (open_re c) s')) _).
Qed.

Lemma firstn_length_app {A} (u v : list A) : firstn (length u) (u ++ v) = u.
Proof.
  rewrite <- (Nat.add_0_r (length u)), firstn_app_2.
  cbn [firstn]. apply app_nil_r.
Qed.

Lemma blank_lines_embeds p s n :
  match_here blank_lines_re p s = Some n -> embeds [nl; nl] (firstn n s).
Proof.
  intros H. apply match_here_sound in H. unfold blank_lines_re in H.
  apply matches_one in H as [x [s1 [n1 [-> [Hx [-> H]]]]]].
  apply matches_star in H as [u1 [s2 [n2 [-> [_ [-> H]]]]]].
  apply matches_one in H as [y [s3 [n3 [-> [Hy [-> H]]]]]].
  apply matches_star in H as [u2 [s4 [n4 [-> [_ [-> H]]]]]].
  apply matches_one in H as [z [s5 [n5 [-> [Hz [-> H]]]]]].
  apply matches_nil in H. subst n5.
  simpl in Hx, Hy, Hz. apply N.eqb_eq in Hx, Hy, Hz. subst x y z.
  replace (nl :: u1 ++ nl :: u2 ++ nl :: s5)
    with ((nl :: u1 ++ nl :: u2 ++ [nl]) ++ s5) by list_eq.
  replace (S (length u1 + S (length u2 + 1)))
    with (length (nl :: u1 ++ nl :: u2 ++ [nl]))
    by (cbn [length]; rewrite !length_app; cbn [length];
        rewrite !length_app; cbn [length]; lia).
  rewrite firstn_length_app. apply embeds_keep.
  change (embeds ([] ++ [nl]) (u1 ++ nl :: u2 ++ [nl])).
  apply embeds_app; [apply embeds_nil_l|]. apply embeds_keep.
  apply embeds_nil_l.
Qed.

Lemma trailing_space_embeds p s n :
  match_here trailing_space_re p s = Some n -> embeds [nl] (firstn n s).
Proof.
  intros H. apply match_here_sound in H. unfold trailing_space_re in H.
  apply matches_one in H as [x [s1 [n1 [-> [Hx [-> H]]]]]].
  apply matches_star in H as [u [s2 [n2 [-> [_ [-> H]]]]]].
  apply matches_one in H as [y [s3 [n3 [-> [Hy [-> H]]]]]].
  apply matches_nil in H. subst n3.
  simpl in Hy. apply N.eqb_eq in Hy. subst y.
  replace (x :: u ++ nl :: s3) with ((x :: u ++ [nl]) ++ s3) by list_eq.
  replace (S (length u + 1)) with (length (x :: u ++ [nl]))
    by (cbn [length]; rewrite !length_app; cbn [length]; lia).
  rewrite firstn_length_app. apply embeds_skip.
  change (embeds ([] ++ [nl]) (u ++ [nl])).
  apply embeds_app; [apply embeds_nil_l|apply embeds_refl].
Qed.

Lemma normalize_whitespace_embeds (s : str) :
  embeds (normalize_whitespace s) s.
Proof.
  unfold normalize_whitespace, strip_before_newline, blank_space_lines,
    collapse_blank_lines.
  eapply embeds_trans; [apply sub_embeds, trailing_space_embeds|].
  eapply embeds_trans; [apply sub_empty_embeds|].
  apply sub_embeds, blank_lines_embeds.
Qed.

Lemma strip_with_embeds (f : char -> bool) (s : str) :
  embeds (strip_with f s) s.
Proof.
  destruct (strip_with_slice f s) as [a [b [E _]]].
  rewrite E at 2.
  change (strip_with f s) with ([] ++ strip_with f s).
  apply embeds_app; [apply embeds_nil_l|].
  rewrite <- (app_nil_r (strip_with f s)) at 1.
  apply embeds_app; [apply embeds_refl|apply embeds_nil_l].
Qed.

Lemma process_embeds (s : str) : embeds (process_mdx_content s) s.
Proof.
  unfold process_mdx_content, strip.
  eapply embeds_trans; [apply strip_with_embeds|].
  eapply embeds_trans; [apply normalize_whitespace_embeds|].
  apply strip_markup_embeds.
Qed.

Lemma strip_with_all (f : char -> bool) (s : str) :
  forallb f s = true -> strip_with f s = [].
Proof.
  intros H. unfold strip_with.
  generalize (drop_while_all f s [] H). rewrite app_nil_r.
  intros ->. reflexivity.
Qed.

End OrderFacts.

Import OrderFacts.

(** X1: the stripper only takes characters away.  The output of
    [process_mdx_content] is its input with some characters left out:
    nothing is added, nothing changes place, and the output is never
    longer than the input. *)
Theorem X1_output_keeps_order (doc : str) :
  subseq (process_mdx_content doc) doc = true
  /\ length (process_mdx_content doc) <= length doc.
Proof.
  split.
  - apply embeds_subseq, process_embeds.
  - apply embeds_length, process_embeds.
Qed.

(** X2: a document made of whitespace only, the empty document among
    them, comes out empty. *)
Theorem X2_whitespace_document_empty (doc : str) :
  forallb is_space doc = true -> process_mdx_content doc = [].
Proof.
  intros H.
  assert (Hall : forallb is_space (process_mdx_content doc) = true).
  { apply forallb_forall. intros x Hx.
    rewrite forallb_forall in H. apply H.
    exact (embeds_In _ _ x (process_embeds doc) Hx). }
  assert (Hfix : strip (process_mdx_content doc) = process_mdx_content doc).
  { unfold process_mdx_content at 1 2, strip. apply strip_with_idem. }
  rewrite <- Hfix. now apply strip_with_all.
Qed.

Lemma X2_whitespace_document_empty_witness :
  process_mdx_content (lit " \n\t\n\n  ") = [].
Proof.
  apply (X2_whitespace_document_empty (lit " \n\t\n\n  ")).
  vm_compute. reflexivity.
Defined.

Module TrimFacts.

Lemma strip_with_first (f : char -> bool) (s : str) c rest :
  strip_with f s = c :: rest -> f c = false.
Proof.
  unfold strip_with. intros H.
  destruct (drop_while_split f (rev (drop_while f s))) as [w [Hw _]].
  assert (Ha : drop_while f s = (c :: rest) ++ rev w).
  { rewrite <- (rev_involutive (drop_while f s)), Hw, rev_app_distr.
    now rewrite H. }
  exact (drop_while_head f s (t := rest ++ rev w) Ha).
Qed.

Lemma strip_with_last (f : char -> bool) (s : str) c front :
  strip_with f s = front ++ [c] -> f c = false.
Proof.
  unfold strip_with. intros H. apply (f_equal (@rev _)) in H.
  rewrite rev_involutive, rev_app_distr in H. cbn [rev app] in H.
  exact (drop_while_head f _ H).
Qed.

End TrimFacts.

Import TrimFacts.

(** X3: the output of the stripper is trimmed.  It does not start and
    does not end with a whitespace character, so a file that
    [clean_file] has rewritten has no newline at its end; and trimming
    the output again changes nothing. *)
Theorem X3_output_is_trimmed (doc : str) :
  strip (process_mdx_content doc) = process_mdx_content doc
  /\ (forall c rest, process_mdx_content doc = c :: rest -> is_space c = false)
  /\ (forall c front,
        process_mdx_content doc = front ++ [c] -> is_space c = false).
Proof.
  unfold process_mdx_content, strip.
  split; [apply strip_with_idem|]. split.
  - intros c rest H. exact (strip_with_first _ _ _ _ H).
  - intros c front H. exact (strip_with_last _ _ _ _ H).
Qed.
(* ================================================================== *)
(** * More about the matcher: literal text, priorities, anchors *)

Module MatcherFacts.

Lemma option_map_S_add n (o : option nat) :
  option_map S (option_map (Nat.add n) o) = option_map (Nat.add (S n)) o.
Proof. now destruct o. Qed.

Lemma option_map_add_0 (o : option nat) : option_map (Nat.add 0) o = o.
Proof. now destruct o. Qed.

(** A pattern that starts with literal text reads that text. *)
Lemma match_here_chars l r p (s : str) :
  match_here (chars l ++ r) p (l ++ s)
  = option_map (Nat.add (length l)) (match_here r (last_of p l) s).
Proof.
  revert p. induction l as [|c l IH]; intros p.
  - cbn [chars map app length last_of]. now rewrite option_map_add_0.
  - cbn [chars map app length last_of match_here mem].
    rewrite N.eqb_refl. fold (chars l). rewrite IH.
    apply option_map_S_add.
Qed.

Lemma match_here_chars_fail l r p (s : str) :
  starts_with l s = false -> match_here (chars l ++ r) p s = None.
Proof.
  revert p s. induction l as [|c l IH]; intros p s H; [discriminate H|].
  destruct s as [|x s]; [reflexivity|].
  cbn [chars map app match_here mem]. cbn [starts_with] in H.
  destruct (c =? x)%N eqn:E.
  - apply N.eqb_eq in E. subst x. rewrite N.eqb_refl.
    fold (chars l). now rewrite IH.
  - rewrite N.eqb_sym, E. reflexivity.
Qed.

Lemma match_here_literal l p (s : str) :
  match_here (chars l) p s
  = if starts_with l s then Some (length l) else None.
Proof.
  destruct (starts_with l s) eqn:E.
  - apply starts_with_split in E as [s' ->].
    rewrite <- (app_nil_r (chars l)), match_here_chars.
    cbn [match_here option_map]. now rewrite Nat.add_0_r.
  - rewrite <- (app_nil_r (chars l)). now apply match_here_chars_fail.
Qed.

(** [k*?] stops at the first place where the rest of the pattern
    matches. *)
Lemma star_lazy_at k (next : cont) (u : str) : forall p (v : str) m,
  forallb (mem k) u = true ->
  next (last_of p u) v = Some m ->
  (forall u1 x u2, u = u1 ++ x :: u2 ->
     next (last_of p u1) (x :: u2 ++ v) = None) ->
  star_lazy k next p (u ++ v) = Some (length u + m).
Proof.
  induction u as [|x u IH]; intros p v m Hk Hn Hfirst.
  - cbn [app length last_of] in *. rewrite star_lazy_unfold. now rewrite Hn.
  - cbn [forallb] in Hk. apply andb_true_iff in Hk as [Hx Hk].
    cbn [app]. rewrite star_lazy_unfold.
    pose proof (Hfirst [] x u eq_refl) as H0. cbn [last_of] in H0.
    rewrite H0, Hx.
    rewrite (IH (Some x) v m Hk Hn).
    + reflexivity.
    + intros u1 y u2 ->. exact (Hfirst (x :: u1) y u2 eq_refl).
Qed.

Lemma star_lazy_inv k (next : cont) : forall (s : str) p n,
  star_lazy k next p s = Some n ->
  exists u v m,
    s = u ++ v /\ forallb (mem k) u = true
    /\ next (last_of p u) v = Some m /\ n = length u + m
    /\ (forall u1 x u2, u = u1 ++ x :: u2 ->
          next (last_of p u1) (x :: u2 ++ v) = None).
Proof.
  induction s as [|x s IH]; intros p n H; rewrite star_lazy_unfold in H.
  - destruct (next p []) as [m|] eqn:Hn; [|discriminate H].
    inversion H; subst. exists [], [], n. repeat split; try assumption.
    intros [|? ?] ? ? E; discriminate E.
  - destruct (next p (x :: s)) as [m|] eqn:Hn.
    + inversion H; subst. exists [], (x :: s), n.
      repeat split; try assumption.
      intros [|? ?] ? ? E; discriminate E.
    + destruct (mem k x) eqn:Hx; [|discriminate H].
      destruct (star_lazy k next (Some x) s) as [n0|] eqn:Hs;
        [|discriminate H].
      inversion H; subst.
      destruct (IH _ _ Hs) as [u [v [m [-> [Hk [Hm [-> Hfirst]]]]]]].
      exists (x :: u), v, m. cbn [forallb]. rewrite Hx, Hk.
      repeat split; try assumption.
      intros [|y u1] z u2 E; cbn [app] in E; inversion E; subst.
      * exact Hn.
      * exact (Hfirst u1 z u2 eq_refl).
Qed.

(** [k*] takes all the characters of the class when the rest of the
    pattern matches behind them and the next character is not of the
    class. *)
Lemma star_greedy_at k (next : cont) (u : str) : forall p (v : str) m,
  forallb (mem k) u = true ->
  match v with y :: _ => mem k y = false | [] => True end ->
  next (last_of p u) v = Some m ->
  star_greedy k next p (u ++ v) = Some (length u + m).
Proof.
  induction u as [|x u IH]; intros p v m Hk Hv Hn.
  - cbn [app length last_of] in *.
    destruct v as [|y v]; cbn [star_greedy]; [exact Hn|].
    now rewrite Hv.
  - cbn [forallb] in Hk. apply andb_true_iff in Hk as [Hx Hk].
    cbn [app star_greedy]. rewrite Hx.
    now rewrite (IH (Some x) v m Hk Hv Hn).
Qed.

(** ** A pattern without [^] does not look at the character before *)

Lemma star_greedy_prev k (next : cont) :
  (forall p q s, next p s = next q s) ->
  forall (s : str) p q, star_greedy k next p s = star_greedy k next q s.
Proof.
  intros Hn. induction s as [|x s IH]; intros p q; cbn [star_greedy].
  - apply Hn.
  - destruct (mem k x); [|apply Hn].
    destruct (star_greedy k next (Some x) s); [reflexivity|apply Hn].
Qed.

Lemma star_lazy_prev k (next : cont) :
  (forall p q s, next p s = next q s) ->
  forall (s : str) p q, star_lazy k next p s = star_lazy k next q s.
Proof.
  intros Hn s p q. rewrite !star_lazy_unfold. now rewrite (Hn p q s).
Qed.

Lemma match_here_prev r :
  ~ In Bol r -> forall p q s, match_here r p s = match_here r q s.
Proof.
  induction r as [|a r IH]; intros Hb p q s; [reflexivity|].
  assert (Hr : forall p q s, match_here r p s = match_here r q s).
  { apply IH. intros Hin. apply Hb. now right. }
  destruct a as [k|[|] k| |]; cbn [match_here].
  - reflexivity.
  - now apply star_greedy_prev.
  - now apply star_lazy_prev.
  - exfalso. apply Hb. now left.
  - destruct (at_line_end s); [apply Hr|reflexivity].
Qed.

Lemma sub_from_prev r repl :
  ~ In Bol r ->
  forall (s : str) p q k, sub_from r repl p k s = sub_from r repl q k s.
Proof.
  intros Hb. induction s as [|x s IH]; intros p q k; cbn [sub_from].
  - now rewrite (match_here_prev r Hb p q).
  - now rewrite (match_here_prev r Hb p q).
Qed.

(** ** Where a text can be found *)

Lemma starts_with_short (p a b : str) :
  length p <= length a -> starts_with p (a ++ b) = starts_with p a.
Proof.
  revert a. induction p as [|x p IH]; intros a H; [reflexivity|].
  destruct a as [|y a]; [simpl in H; lia|].
  cbn [app starts_with]. rewrite IH; [reflexivity|]. simpl in H. lia.
Qed.

Lemma contains_split (p u t : str) :
  contains p (u ++ t) = false <->
  (forall u1 x u2, u = u1 ++ x :: u2 -> starts_with p (x :: u2 ++ t) = false)
  /\ contains p t = false.
Proof.
  induction u as [|y u IH].
  - cbn [app]. split.
    + intros H. split; [|exact H]. intros [|? ?] ? ? E; discriminate E.
    + now intros [_ H].
  - cbn [app]. rewrite contains_cons, orb_false_iff, IH. split.
    + intros [H1 [H2 H3]]. split; [|exact H3].
      intros [|z u1] x u2 E; cbn [app] in E; inversion E; subst.
      * exact H1.
      * exact (H2 u1 x u2 eq_refl).
    + intros [H1 H2]. split; [exact (H1 [] y u eq_refl)|].
      split; [|exact H2].
      intros u1 x u2 ->. exact (H1 (y :: u1) x u2 eq_refl).
Qed.

Lemma contains_short (p s : str) : length s < length p -> contains p s = false.
Proof.
  induction s as [|x s IH]; intros H.
  - destruct p; [simpl in H; lia|reflexivity].
  - rewrite contains_cons. rewrite IH by (simpl in H; lia).
    rewrite orb_false_r.
    destruct (starts_with p (x :: s)) eqn:E; [|reflexivity].
    apply starts_with_split in E as [s' E].
    apply (f_equal (@length _)) in E. rewrite length_app in E. lia.
Qed.

End MatcherFacts.

Import MatcherFacts.

(* ================================================================== *)
(** * The comment pass *)

Module CommentFacts.

Lemma comment_shape p s n :
  matches comment_re p s n ->
  exists ws y rest,
    s = lit "{/*" ++ ws ++ lit "Mintlify" ++ y ++ lit "*/}" ++ rest
    /\ forallb is_space ws = true.
Proof.
  unfold comment_re. intros H.
  apply matches_chars in H as [s1 [n1 [-> [-> H]]]].
  change ([Star Greedy Space] ++ chars (lit "Mintlify")
          ++ [Star Lazy Any] ++ chars (lit "*/}"))
    with (Star Greedy Space :: chars (lit "Mintlify")
          ++ [Star Lazy Any] ++ chars (lit "*/}")) in H.
  apply matches_star in H as [ws [s2 [n2 [-> [Hws [-> H]]]]]].
  apply matches_chars in H as [s3 [n3 [-> [-> H]]]].
  change ([Star Lazy Any] ++ chars (lit "*/}"))
    with (Star Lazy Any :: chars (lit "*/}") ++ []) in H.
  apply matches_star in H as [y [s4 [n4 [-> [_ [-> H]]]]]].
  apply matches_chars in H as [s5 [n5 [-> [-> H]]]].
  exists ws, y, s5. split; [reflexivity|exact Hws].
Qed.

Lemma comment_no_bol : ~ In Bol comment_re.
Proof.
  intros H. vm_compute in H.
  repeat (destruct H as [H|H]; [discriminate H|]). exact H.
Qed.

(** The scan behind a comment does not depend on what stood before. *)
Lemma remove_comments_from p (s : str) :
  sub_from comment_re [] p 0 s = remove_comments s.
Proof. apply (sub_from_prev comment_re [] comment_no_bol). Qed.

Lemma comment_keep_run (u v : str) p :
  ~ In lbrace u ->
  sub_from comment_re [] p 0 (u ++ v)
  = u ++ sub_from comment_re [] (last_of p u) 0 v.
Proof.
  intros Hu. apply sub_from_keep_all. intros u1 x u2 ->.
  apply no_match. intros n Hn. apply comment_prefix in Hn as [v' E].
  inversion E; subst x. apply Hu, in_or_app. right. now left.
Qed.

(** The end marker is not found before the end of a body that does not
    hold it. *)
Lemma end_marker_first (body post : str) :
  contains (lit "*/}") body = false ->
  forall u1 x u2, body = u1 ++ x :: u2 ->
    starts_with (lit "*/}") (x :: u2 ++ lit "*/}" ++ post) = false.
Proof.
  intros Hb u1 x u2 ->.
  apply contains_suffix in Hb.
  rewrite contains_cons in Hb. apply orb_false_iff in Hb as [Hb Hc].
  destruct u2 as [|y u2].
  - cbn [app]. change (lit "*/}") with [42; 47; 125]%N.
    cbn [starts_with]. destruct (42 =? x)%N; reflexivity.
  - rewrite contains_cons in Hc. apply orb_false_iff in Hc as [Hc _].
    destruct u2 as [|z u2].
    + cbn [app]. change (lit "*/}") with [42; 47; 125]%N.
      cbn [starts_with].
      destruct (42 =? x)%N; [|reflexivity].
      destruct (47 =? y)%N; reflexivity.
    + change (x :: (y :: z :: u2) ++ lit "*/}" ++ post)
        with ((x :: y :: z :: u2) ++ lit "*/}" ++ post).
      rewrite starts_with_short; [exact Hb|]. simpl. lia.
Qed.

Lemma comment_match (ws body post : str) p :
  forallb is_space ws = true ->
  contains (lit "*/}") body = false ->
  match_here comment_re p
    (lit "{/*" ++ ws ++ lit "Mintlify" ++ body ++ lit "*/}" ++ post)
  = Some (length (lit "{/*" ++ ws ++ lit "Mintlify" ++ body ++ lit "*/}")).
Proof.
  intros Hws Hb. unfold comment_re. rewrite match_here_chars.
  change ([Star Greedy Space] ++ chars (lit "Mintlify")
          ++ [Star Lazy Any] ++ chars (lit "*/}"))
    with (Star Greedy Space :: chars (lit "Mintlify")
          ++ [Star Lazy Any] ++ chars (lit "*/}")).
  cbn [match_here].
  rewrite (star_greedy_at Space _ ws _ _
             (length (lit "Mintlify") + (length body + 3))).
  - cbn [option_map]. f_equal. rewrite !length_app.
    change (length (lit "*/}")) with 3. lia.
  - exact Hws.
  - reflexivity.
  - rewrite match_here_chars.
    change ([Star Lazy Any] ++ chars (lit "*/}"))
      with (Star Lazy Any :: chars (lit "*/}")).
    cbn [match_here].
    rewrite (star_lazy_at Any _ body _ _ 3).
    + reflexivity.
    + apply forallb_forall. reflexivity.
    + rewrite match_here_literal, starts_with_app. reflexivity.
    + intros u1 x u2 E. rewrite match_here_literal.
      now rewrite (end_marker_first body post Hb u1 x u2 E).
Qed.

End CommentFacts.

Import CommentFacts.

(** X4: a comment region that starts with [{/*], whitespace and the word
    [Mintlify] is removed up to the first [*/}] behind it, newlines
    included; the text before it is kept and the scan goes on behind the
    region. *)
Theorem X4_comment_region_removed (before ws body after : str) :
  ~ In lbrace before ->
  forallb is_space ws = true ->
  contains (lit "*/}") body = false ->
  remove_comments
    (before ++ lit "{/*" ++ ws ++ lit "Mintlify" ++ body ++ lit "*/}" ++ after)
  = before ++ remove_comments after.
Proof.
  intros Hb Hws Hbody. unfold remove_comments at 1, sub.
  rewrite comment_keep_run by exact Hb.
  f_equal.
  replace (lit "{/*" ++ ws ++ lit "Mintlify" ++ body ++ lit "*/}" ++ after)
    with ((lit "{/*" ++ ws ++ lit "Mintlify" ++ body ++ lit "*/}") ++ after)
    by (now rewrite <- !app_assoc).
  rewrite sub_from_match.
  - cbn [app]. apply remove_comments_from.
  - discriminate.
  - rewrite <- !app_assoc. now apply comment_match.
Qed.

Lemma X4_comment_region_removed_witness :
  remove_comments
    (lit "text " ++ lit "{/*" ++ lit " \n" ++ lit "Mintlify"
     ++ lit " note **/ over\ntwo lines " ++ lit "*/}" ++ lit " more */} text")
  = lit "text " ++ remove_comments (lit " more */} text").
Proof.
  apply (X4_comment_region_removed (lit "text ") (lit " \n")
           (lit " note **/ over\ntwo lines ") (lit " more */} text")).
  - intros H. vm_compute in H.
    repeat (destruct H as [H|H]; [discriminate H|]). exact H.
  - vm_compute. reflexivity.
  - vm_compute. reflexivity.
Defined.

(** X5: the comment pass leaves a text alone that does not hold the word
    [Mintlify], and one that does not hold the end marker [*/}]: other
    comments stay, and so does a comment that is never closed. *)
Theorem X5_other_comments_stay (doc : str) :
  contains (lit "Mintlify") doc = false \/ contains (lit "*/}") doc = false ->
  remove_comments doc = doc.
Proof.
  intros H. apply sub_from_no_match, search_from_none.
  intros p u v ->. apply no_match. intros n Hn.
  apply comment_shape in Hn as [ws [y [rest [-> _]]]].
  destruct H as [H|H]; apply contains_suffix in H.
  - rewrite app_assoc in H.
    rewrite (contains_intro (lit "Mintlify") (lit "{/*" ++ ws)) in H;
      [discriminate H|apply starts_with_app].
  - rewrite !app_assoc in H. rewrite <- app_assoc in H.
    rewrite (contains_intro (lit "*/}")) in H;
      [discriminate H|apply starts_with_app].
Qed.

Lemma X5_other_comments_stay_witness :
  remove_comments (lit "a {/* TODO: later */} b {/* mintlify */}")
  = lit "a {/* TODO: later */} b {/* mintlify */}".
Proof.
  apply (X5_other_comments_stay
           (lit "a {/* TODO: later */} b {/* mintlify */}")).
  left.
  vm_compute. reflexivity.
Defined.
(* ================================================================== *)
(** * The tag passes on a text with one tag or one element *)

Module ElementFacts.

Lemma not_in_app {A} (x : A) (u v : list A) :
  ~ In x u -> ~ In x v -> ~ In x (u ++ v).
Proof. intros Hu Hv H. apply in_app_or in H as [H|H]; auto. Qed.

Lemma not_in_cons (x y : char) (u : str) :
  y <> x -> ~ In x u -> ~ In x (y :: u).
Proof. intros Hy Hu [H|H]; auto. Qed.

Lemma name_no_lt c : name_ok c -> ~ In lt c.
Proof. intros [_ Hc]. apply letters_no; [reflexivity|exact Hc]. Qed.

Lemma name_no_gt c : name_ok c -> ~ In gt c.
Proof. intros [_ Hc]. apply letters_no; [reflexivity|exact Hc]. Qed.

Lemma name_no_slash c : name_ok c -> ~ In slash c.
Proof. intros [_ Hc]. apply letters_no; [reflexivity|exact Hc]. Qed.

Lemma name_no_lbrace c : name_ok c -> ~ In lbrace c.
Proof.
  intros [_ Hc] Hin. rewrite forallb_forall in Hc. apply Hc in Hin.
  discriminate Hin.
Qed.

Lemma contains_no_head x (p s : str) : ~ In x s -> contains (x :: p) s = false.
Proof.
  intros H. destruct (contains (x :: p) s) eqn:E; [|reflexivity].
  exfalso. now apply H, (contains_In x p).
Qed.

(** ** Patterns that start with [<] *)

Lemma sub_keep_no_lt r (u v : str) p :
  (forall q s n, matches r q s n -> exists s', s = lt :: s') ->
  ~ In lt u ->
  sub_from r [] p 0 (u ++ v) = u ++ sub_from r [] (last_of p u) 0 v.
Proof.
  intros Hr Hu. apply sub_from_keep_all. intros u1 x u2 ->.
  apply no_match. intros n Hn. destruct (Hr _ _ _ Hn) as [s' E].
  inversion E; subst x. apply Hu, in_or_app. right. now left.
Qed.

Lemma sub_none_no_lt r (s : str) p :
  (forall q s n, matches r q s n -> exists s', s = lt :: s') ->
  ~ In lt s -> sub_from r [] p 0 s = s.
Proof.
  intros Hr Hs. rewrite <- (app_nil_r s) at 1.
  rewrite (sub_keep_no_lt r s [] p Hr Hs).
  rewrite sub_from_end; [apply app_nil_r|].
  apply no_match. intros n Hn. destruct (Hr _ _ _ Hn) as [s' E].
  discriminate E.
Qed.

Lemma open_lt c q s n : matches (open_re c) q s n -> exists s', s = lt :: s'.
Proof. intros H. apply open_shape in H as [u [rest [-> _]]]. now eexists. Qed.

Lemma self_closing_lt c q s n :
  matches (self_closing_re c) q s n -> exists s', s = lt :: s'.
Proof.
  intros H. apply self_closing_shape in H as [u [rest [-> _]]]. now eexists.
Qed.

Lemma close_lt c q s n : matches (close_re c) q s n -> exists s', s = lt :: s'.
Proof. intros H. apply close_shape in H as [rest [-> _]]. now eexists. Qed.

Lemma paired_lt c q s n :
  matches (paired_re c) q s n -> exists s', s = lt :: s'.
Proof.
  intros H. apply paired_shape in H as [u [y [rest [-> _]]]]. now eexists.
Qed.

(** ** Patterns that match one whole tag *)

Lemma open_exact c : name_ok c ->
  forall p s n, matches (open_re c) p s n ->
    exists i rest, s = lt :: i ++ gt :: rest /\ ~ In gt i /\ n = length i + 2.
Proof.
  intros Hc p s n H. apply open_shape in H as [u [rest [-> [Hu ->]]]].
  exists (c ++ u), rest. split; [reflexivity|]. split.
  - apply not_in_app; [now apply name_no_gt|exact Hu].
  - rewrite length_app. lia.
Qed.

Lemma self_closing_exact c : name_ok c ->
  forall p s n, matches (self_closing_re c) p s n ->
    exists i rest, s = lt :: i ++ gt :: rest /\ ~ In gt i /\ n = length i + 2.
Proof.
  intros Hc p s n H. apply self_closing_shape in H as [u [rest [-> [Hu ->]]]].
  exists (c ++ u ++ [slash]), rest. split; [reflexivity|]. split.
  - apply not_in_app; [now apply name_no_gt|].
    apply not_in_app; [exact Hu|]. intros [H|[]]. discriminate H.
  - rewrite !length_app. simpl. lia.
Qed.

Lemma close_exact c : name_ok c ->
  forall p s n, matches (close_re c) p s n ->
    exists i rest, s = lt :: i ++ gt :: rest /\ ~ In gt i /\ n = length i + 2.
Proof.
  intros Hc p s n H. apply close_shape in H as [rest [-> ->]].
  exists (slash :: c), rest. split; [reflexivity|]. split.
  - apply not_in_cons; [discriminate|now apply name_no_gt].
  - simpl. lia.
Qed.

(** One substitution on a text whose only [<] opens a tag: the tag goes
    or the text stays. *)
Lemma sub_lone r (pre inner post : str) :
  (forall p s n, matches r p s n ->
     exists i rest, s = lt :: i ++ gt :: rest /\ ~ In gt i /\ n = length i + 2) ->
  ~ In lt pre -> ~ In lt inner -> ~ In gt inner -> ~ In lt post ->
  sub r [] (pre ++ lt :: inner ++ gt :: post)
  = match match_here r (last_of None pre) (lt :: inner ++ gt :: post) with
    | Some _ => pre ++ post
    | None => pre ++ lt :: inner ++ gt :: post
    end.
Proof.
  intros Hr Hpre Hin Hgt Hpost.
  assert (Hlt : forall q s n, matches r q s n -> exists s', s = lt :: s').
  { intros q s n H. destruct (Hr _ _ _ H) as [i [rest [-> _]]]. now eexists. }
  unfold sub. rewrite (sub_keep_no_lt r pre _ None Hlt Hpre).
  destruct (match_here r (last_of None pre) (lt :: inner ++ gt :: post))
    as [n|] eqn:Hm; f_equal.
  - pose proof (match_here_sound _ _ _ Hm) as Hs.
    destruct (Hr _ _ _ Hs) as [i [rest [E [Hi ->]]]].
    inversion E as [E'].
    destruct (first_occurrence gt _ _ _ _ E' Hgt Hi) as [<- <-].
    replace (lt :: inner ++ gt :: post)
      with ((lt :: inner ++ [gt]) ++ post) in Hm |- * by list_eq.
    rewrite sub_from_match.
    + cbn [app]. apply sub_none_no_lt; assumption.
    + discriminate.
    + rewrite Hm. f_equal. cbn [length]. rewrite length_app. simpl. lia.
  - rewrite (sub_from_keep _ _ _ _ _ Hm). f_equal.
    apply sub_none_no_lt; [exact Hlt|].
    apply not_in_app; [exact Hin|].
    apply not_in_cons; [discriminate|exact Hpost].
Qed.

Lemma sub_lone_choice r (pre inner post : str) :
  (forall p s n, matches r p s n ->
     exists i rest, s = lt :: i ++ gt :: rest /\ ~ In gt i /\ n = length i + 2) ->
  ~ In lt pre -> ~ In lt inner -> ~ In gt inner -> ~ In lt post ->
  sub r [] (pre ++ lt :: inner ++ gt :: post) = pre ++ lt :: inner ++ gt :: post
  \/ sub r [] (pre ++ lt :: inner ++ gt :: post) = pre ++ post.
Proof.
  intros Hr Hpre Hin Hgt Hpost.
  rewrite (sub_lone r pre inner post Hr Hpre Hin Hgt Hpost).
  destruct (match_here r _ _); [now right|now left].
Qed.

Lemma sub_lone_found r (pre inner post : str) :
  (forall p s n, matches r p s n ->
     exists i rest, s = lt :: i ++ gt :: rest /\ ~ In gt i /\ n = length i + 2) ->
  ~ In lt pre -> ~ In lt inner -> ~ In gt inner -> ~ In lt post ->
  (forall p, match_here r p (lt :: inner ++ gt :: post) <> None) ->
  sub r [] (pre ++ lt :: inner ++ gt :: post) = pre ++ post.
Proof.
  intros Hr Hpre Hin Hgt Hpost Hf.
  rewrite (sub_lone r pre inner post Hr Hpre Hin Hgt Hpost).
  destruct (match_here r _ _) eqn:E; [reflexivity|].
  now apply Hf in E.
Qed.

(** ** The paired pattern *)

Lemma paired_two_lt c p s n :
  matches (paired_re c) p s n -> exists a b, s = lt :: a ++ lt :: b.
Proof.
  intros H. apply paired_shape in H as [u [y [rest [-> _]]]].
  exists ((c ++ u) ++ gt :: y), (slash :: c ++ gt :: rest).
  f_equal. rewrite <- !app_assoc. reflexivity.
Qed.

(** No match of the paired pattern in a text with a single [<]. *)
Lemma paired_single_lt c (pre tail : str) :
  ~ In lt pre -> ~ In lt tail ->
  sub (paired_re c) [] (pre ++ lt :: tail) = pre ++ lt :: tail.
Proof.
  intros Hpre Htail. apply sub_from_no_match, search_from_none.
  intros p u v E. apply no_match. intros n Hn.
  apply paired_two_lt in Hn as [a [b ->]].
  destruct (before_occurrence lt _ _ _ _ E Hpre) as [y' [_ E']].
  destruct y' as [|z y']; cbn [app] in E'.
  - injection E' as Et. apply Htail. rewrite Et.
    apply in_or_app. right. now left.
  - injection E' as _ Et. apply Htail. rewrite Et.
    apply in_or_app. right. now left.
Qed.

Lemma paired_found c (attrs body rest : str) p :
  ~ In gt attrs ->
  match_here (paired_re c) p
    (lt :: (c ++ attrs) ++ gt :: body ++ [lt; slash] ++ c ++ gt :: rest)
  <> None.
Proof.
  intros Ha.
  destruct (match_here_complete (r := paired_re c) (p := p)
              (s := (lit "<" ++ c) ++ attrs ++ lit ">" ++ body
                    ++ (lit "</" ++ c ++ lit ">") ++ rest)
              (n := length (lit "<" ++ c)
                    + (length attrs
                       + (length (lit ">")
                          + (length body
                             + (length (lit "</" ++ c ++ lit ">") + 0))))))
    as [n' Hn'].
  - unfold paired_re. apply chars_matches.
    change ([Star Greedy (Not gt)] ++ chars (lit ">") ++ [Star Lazy Any]
            ++ chars (lit "</" ++ c ++ lit ">"))
      with (Star Greedy (Not gt) :: chars (lit ">") ++ [Star Lazy Any]
            ++ chars (lit "</" ++ c ++ lit ">")).
    apply star_matches; [now apply not_gt_all|].
    apply chars_matches.
    change ([Star Lazy Any] ++ chars (lit "</" ++ c ++ lit ">"))
      with (Star Lazy Any :: chars (lit "</" ++ c ++ lit ">")).
    apply star_matches; [apply forallb_forall; reflexivity|].
    rewrite <- (app_nil_r (chars _)). apply chars_matches. constructor.
  - intros E.
    replace (lt :: (c ++ attrs) ++ gt :: body ++ [lt; slash] ++ c ++ gt :: rest)
      with ((lit "<" ++ c) ++ attrs ++ lit ">" ++ body
            ++ (lit "</" ++ c ++ lit ">") ++ rest) in E
      by (rewrite lit_lt, lit_gt, lit_lt_slash; list_eq).
    rewrite E in Hn'. discriminate Hn'.
Qed.

(** A match of a paired pattern at the opening tag of an element without
    an inner [<] is the element, and the pattern is that of its name. *)
Lemma paired_at_element c' c (attrs body post : str) p n :
  name_ok c' -> name_ok c -> ~ In gt attrs -> ~ In lt body -> ~ In lt post ->
  match_here (paired_re c') p
    (lt :: (c ++ attrs) ++ gt :: body ++ [lt; slash] ++ c ++ gt :: post)
  = Some n ->
  n = length (lt :: (c ++ attrs) ++ gt :: body ++ [lt; slash] ++ c ++ [gt]).
Proof.
  intros Hc' Hc Ha Hb Hp Hm. apply match_here_sound in Hm.
  apply paired_shape in Hm as [u [y [rest [E [Hu ->]]]]].
  inversion E as [E1]. clear E.
  apply first_occurrence in E1 as [E1 E2];
    [|apply not_in_app; [now apply name_no_gt|exact Ha]
     |apply not_in_app; [now apply name_no_gt|exact Hu]].
  cbn [app] in E2.
  destruct (before_occurrence lt _ _ _ _ E2 Hb) as [y' [-> E3]].
  destruct y' as [|z y']; cbn [app] in E3.
  - injection E3 as E4.
    apply first_occurrence in E4 as [<- _];
      [|now apply name_no_gt|now apply name_no_gt].
    apply (f_equal (@length _)) in E1. rewrite !length_app in E1.
    cbn [length]. rewrite !length_app. cbn [length].
    rewrite !length_app. cbn [length]. lia.
  - exfalso. injection E3 as _ E4.
    assert (Hin : In lt (slash :: c ++ gt :: post)).
    { rewrite E4. apply in_or_app. right. now left. }
    destruct Hin as [Hin|Hin]; [discriminate Hin|].
    apply in_app_or in Hin as [Hin|[Hin|Hin]].
    + now apply (name_no_lt c Hc).
    + discriminate Hin.
    + now apply Hp.
Qed.

Lemma paired_on_element c' c (pre attrs body post : str) :
  name_ok c' -> name_ok c ->
  ~ In lt pre -> ~ In lt attrs -> ~ In gt attrs -> ~ In lt body ->
  ~ In lt post ->
  let D := pre ++ lt :: (c ++ attrs) ++ gt :: body
               ++ [lt; slash] ++ c ++ gt :: post in
  (sub (paired_re c') [] D = D \/ sub (paired_re c') [] D = pre ++ post)
  /\ (c' = c -> sub (paired_re c') [] D = pre ++ post).
Proof.
  intros Hc' Hc Hpre Hal Hag Hb Hp D. subst D.
  unfold sub. rewrite (sub_keep_no_lt _ pre _ None (paired_lt c') Hpre).
  set (T := lt :: (c ++ attrs) ++ gt :: body ++ [lt; slash] ++ c ++ gt :: post).
  destruct (match_here (paired_re c') (last_of None pre) T) as [n|] eqn:Hm.
  - assert (E : sub_from (paired_re c') [] (last_of None pre) 0 T = post).
    { pose proof (paired_at_element c' c attrs body post _ n
                    Hc' Hc Hag Hb Hp Hm) as Hn.
      subst T.
      replace (lt :: (c ++ attrs) ++ gt :: body ++ [lt; slash] ++ c ++ gt :: post)
        with ((lt :: (c ++ attrs) ++ gt :: body ++ [lt; slash] ++ c ++ [gt])
              ++ post) in Hm |- * by list_eq.
      rewrite sub_from_match.
      - cbn [app]. apply sub_none_no_lt; [apply paired_lt|exact Hp].
      - discriminate.
      - now rewrite Hm, Hn. }
    rewrite E. split; [now right|reflexivity].
  - split.
    + left. f_equal. rewrite (sub_from_keep _ _ _ _ _ Hm). subst T. f_equal.
      replace ((c ++ attrs) ++ gt :: body ++ [lt; slash] ++ c ++ gt :: post)
        with (((c ++ attrs) ++ gt :: body) ++ lt :: (slash :: c) ++ gt :: post)
        by list_eq.
      rewrite (sub_keep_no_lt _ _ _ _ (paired_lt c')).
      * f_equal.
        assert (Hn : match_here (paired_re c')
                       (last_of (Some lt) ((c ++ attrs) ++ gt :: body))
                       (lt :: (slash :: c) ++ gt :: post) = None).
        { apply no_match. intros n Hn.
          apply paired_two_lt in Hn as [a [b E]]. inversion E as [E'].
          assert (Hin : In lt ((slash :: c) ++ gt :: post)).
          { cbn [app]. rewrite E'. apply in_or_app. right. now left. }
          apply in_app_or in Hin as [[Hin|Hin]|[Hin|Hin]].
          - discriminate Hin.
          - now apply (name_no_lt c Hc).
          - discriminate Hin.
          - now apply Hp. }
        rewrite (sub_from_keep _ _ _ _ _ Hn). f_equal.
        apply sub_none_no_lt; [apply paired_lt|].
        apply not_in_app.
        -- apply not_in_cons; [discriminate|now apply name_no_lt].
        -- apply not_in_cons; [discriminate|exact Hp].
      * apply not_in_app.
        -- apply not_in_app; [now apply name_no_lt|exact Hal].
        -- apply not_in_cons; [discriminate|exact Hb].
    + intros ->. exfalso. revert Hm. subst T. now apply paired_found.
Qed.

(** ** Loops that take a text to one of two texts *)

Lemma fold_choice {A} (f : A -> str -> str) (D E : str) (cs : list A) :
  (forall c, f c E = E) ->
  (forall c, In c cs -> f c D = D \/ f c D = E) ->
  fold_left (fun acc c => f c acc) cs D = D
  \/ fold_left (fun acc c => f c acc) cs D = E.
Proof.
  intros HE. induction cs as [|c cs IH]; intros HD; [now left|].
  simpl. destruct (HD c (or_introl eq_refl)) as [->| ->].
  - apply IH. intros c' Hc'. apply HD. now right.
  - right. apply fold_id. intros c' _. apply HE.
Qed.

Lemma fold_reach {A} (f : A -> str -> str) (D E : str) (cs : list A) c :
  (forall c, f c E = E) ->
  (forall c, In c cs -> f c D = D \/ f c D = E) ->
  In c cs -> f c D = E ->
  fold_left (fun acc c => f c acc) cs D = E.
Proof.
  intros HE. induction cs as [|c0 cs IH]; intros HD Hin Hc; [destruct Hin|].
  simpl. destruct (HD c0 (or_introl eq_refl)) as [E0|E0]; rewrite E0.
  - destruct Hin as [->|Hin].
    + rewrite Hc in E0. subst D. apply fold_id. intros c' _. apply HE.
    + apply IH; [|exact Hin|exact Hc]. intros c' Hc'. apply HD. now right.
  - apply fold_id. intros c' _. apply HE.
Qed.

(** ** The three loops *)

Lemma passes_plain (s : str) :
  ~ In lt s ->
  remove_paired s = s /\ remove_self_closing s = s /\ remove_bare s = s.
Proof.
  intros Hs. unfold remove_paired, remove_self_closing, remove_bare.
  repeat split; apply fold_id; intros c _.
  - exact (sub_none_no_lt _ s None (paired_lt c) Hs).
  - exact (sub_none_no_lt _ s None (self_closing_lt c) Hs).
  - unfold sub. rewrite (sub_none_no_lt _ s None (open_lt c) Hs).
    exact (sub_none_no_lt _ s None (close_lt c) Hs).
Qed.

Lemma strip_markup_plain (s : str) :
  ~ In lt s -> ~ In lbrace s -> strip_markup s = s.
Proof.
  intros Hs Hb. unfold strip_markup.
  rewrite (remove_comments_id s (no_brace_no_comment s Hb)).
  destruct (passes_plain s Hs) as [-> [-> ->]]. reflexivity.
Qed.

(** A lone tag, opening or closing, is taken out by the loops. *)
Lemma loops_lone_tag c (pre inner post : str) :
  In c components ->
  ~ In lt pre -> ~ In lt inner -> ~ In gt inner -> ~ In lt post ->
  (forall p, match_here (open_re c) p (lt :: inner ++ gt :: post) <> None)
  \/ (forall p, match_here (close_re c) p (lt :: inner ++ gt :: post) <> None) ->
  remove_bare (remove_self_closing (remove_paired
    (pre ++ lt :: inner ++ gt :: post))) = pre ++ post.
Proof.
  intros Hc Hpre Hil Hig Hpost Hfound.
  set (D := pre ++ lt :: inner ++ gt :: post).
  set (E := pre ++ post).
  assert (HE : ~ In lt E) by (now apply not_in_app).
  destruct (passes_plain E HE) as [_ [HE2 HE3]].
  assert (H1 : remove_paired D = D).
  { unfold remove_paired. apply fold_id. intros c' _.
    apply paired_single_lt; [exact Hpre|].
    apply not_in_app; [exact Hil|].
    apply not_in_cons; [discriminate|exact Hpost]. }
  rewrite H1.
  assert (Hopen : forall c', In c' components ->
            sub (open_re c') [] D = D \/ sub (open_re c') [] D = E).
  { intros c' Hc'. apply sub_lone_choice; try assumption.
    apply open_exact, component_name_ok, Hc'. }
  assert (Hclose : forall c', In c' components ->
            sub (close_re c') [] D = D \/ sub (close_re c') [] D = E).
  { intros c' Hc'. apply sub_lone_choice; try assumption.
    apply close_exact, component_name_ok, Hc'. }
  assert (HcloseE : forall c', sub (close_re c') [] E = E).
  { intros c'. exact (sub_none_no_lt _ E None (close_lt c') HE). }
  assert (HopenE : forall c', sub (open_re c') [] E = E).
  { intros c'. exact (sub_none_no_lt _ E None (open_lt c') HE). }
  assert (H2 : remove_self_closing D = D \/ remove_self_closing D = E).
  { unfold remove_self_closing. apply fold_choice.
    - intros c'. exact (sub_none_no_lt _ E None (self_closing_lt c') HE).
    - intros c' Hc'. apply sub_lone_choice; try assumption.
      apply self_closing_exact, component_name_ok, Hc'. }
  destruct H2 as [-> | ->]; [|exact HE3].
  unfold remove_bare.
  apply (fold_reach
           (fun c' acc => sub (close_re c') [] (sub (open_re c') [] acc))
           D E components c).
  - intros c'. now rewrite HopenE, HcloseE.
  - intros c' Hc'. destruct (Hopen c' Hc') as [-> | ->].
    + now apply Hclose.
    + right. apply HcloseE.
  - exact Hc.
  - destruct Hfound as [Hf|Hf].
    + assert (Ho : sub (open_re c) [] D = E).
      { apply sub_lone_found; try assumption.
        apply open_exact, component_name_ok, Hc. }
      rewrite Ho. apply HcloseE.
    + destruct (Hopen c Hc) as [-> | ->]; [|apply HcloseE].
      apply sub_lone_found; try assumption.
      apply close_exact, component_name_ok, Hc.
Qed.

Lemma loops_element c (pre attrs body post : str) :
  In c components ->
  ~ In lt pre -> ~ In lt attrs -> ~ In gt attrs -> ~ In lt body ->
  ~ In lt post ->
  remove_bare (remove_self_closing (remove_paired
    (pre ++ lt :: (c ++ attrs) ++ gt :: body
     ++ [lt; slash] ++ c ++ gt :: post))) = pre ++ post.
Proof.
  intros Hc Hpre Hal Hag Hb Hpost.
  assert (HE : ~ In lt (pre ++ post)) by (now apply not_in_app).
  destruct (passes_plain _ HE) as [HE1 [HE2 HE3]].
  assert (H1 : remove_paired
                 (pre ++ lt :: (c ++ attrs) ++ gt :: body
                  ++ [lt; slash] ++ c ++ gt :: post) = pre ++ post).
  { unfold remove_paired.
    apply (fold_reach (fun c' acc => sub (paired_re c') [] acc) _ _
             components c).
    - intros c'. exact (sub_none_no_lt _ _ None (paired_lt c') HE).
    - intros c' Hc'.
      exact (proj1 (paired_on_element c' c pre attrs body post
                      (component_name_ok Hc') (component_name_ok Hc)
                      Hpre Hal Hag Hb Hpost)).
    - exact Hc.
    - exact (proj2 (paired_on_element c c pre attrs body post
                      (component_name_ok Hc) (component_name_ok Hc)
                      Hpre Hal Hag Hb Hpost) eq_refl). }
  now rewrite H1, HE2, HE3.
Qed.

Lemma brace_free_app (u v : str) :
  brace_free (u ++ v) = true -> brace_free u = true /\ brace_free v = true.
Proof.
  unfold brace_free. rewrite forallb_app. apply andb_true_iff.
Qed.

Lemma angle_free_both (s : str) :
  angle_free s = true -> ~ In lt s /\ ~ In gt s.
Proof.
  intros H. split; [now apply angle_free_no_lt|now apply angle_free_no_gt].
Qed.

Ltac no_char :=
  repeat (assumption || apply not_in_app
          || (apply not_in_cons; [discriminate|]) || (intros [])).

End ElementFacts.

Import ElementFacts.

(** X6: an element of a component, from its opening tag to its closing
    tag, goes with everything inside it.  When the text before, inside
    and behind holds no [<] and the document holds no [{], the stripper
    returns what it returns for the text before and behind alone. *)
Theorem X6_element_goes_with_body (before name attrs body after : str) :
  In name components ->
  angle_free attrs = true ->
  ~ In lt before -> ~ In lt body -> ~ In lt after ->
  brace_free (before ++ attrs ++ body ++ after) = true ->
  process_mdx_content
    (before ++ lit "<" ++ name ++ attrs ++ lit ">" ++ body
     ++ lit "</" ++ name ++ lit ">" ++ after)
  = process_mdx_content (before ++ after).
Proof.
  intros Hc Ha Hpre Hbody Hpost Hbr.
  apply angle_free_both in Ha as [Hal Hag].
  apply brace_free_app in Hbr as [B1 Hbr].
  apply brace_free_app in Hbr as [B2 Hbr].
  apply brace_free_app in Hbr as [B3 B4].
  apply brace_free_In in B1, B2, B3, B4.
  pose proof (name_no_lbrace name (component_name_ok Hc)) as Hname.
  unfold process_mdx_content. do 2 f_equal.
  rewrite (strip_markup_plain (before ++ after))
    by (apply not_in_app; assumption).
  unfold strip_markup. rewrite remove_comments_id.
  - rewrite lit_lt, lit_gt, lit_lt_slash.
    replace (before ++ [lt] ++ name ++ attrs ++ [gt] ++ body
             ++ [lt; slash] ++ name ++ [gt] ++ after)
      with (before ++ lt :: (name ++ attrs) ++ gt :: body
            ++ [lt; slash] ++ name ++ gt :: after) by list_eq.
    now apply loops_element.
  - apply no_brace_no_comment. no_char.
Qed.

Lemma X6_element_goes_with_body_witness :
  process_mdx_content
    (lit "Intro\n" ++ lit "<" ++ lit "Card" ++ lit " title=\qA\q" ++ lit ">"
     ++ lit "\n  the text of the card\n" ++ lit "</" ++ lit "Card" ++ lit ">"
     ++ lit "\nOutro")
  = process_mdx_content (lit "Intro\n" ++ lit "\nOutro").
Proof.
  apply (X6_element_goes_with_body (lit "Intro\n") (lit "Card")
           (lit " title=\qA\q") (lit "\n  the text of the card\n")
           (lit "\nOutro")).
  - left. reflexivity.
  - vm_compute. reflexivity.
  - intros H. vm_compute in H.
    repeat (destruct H as [H|H]; [discriminate H|]). exact H.
  - intros H. vm_compute in H.
    repeat (destruct H as [H|H]; [discriminate H|]). exact H.
  - intros H. vm_compute in H.
    repeat (destruct H as [H|H]; [discriminate H|]). exact H.
  - vm_compute. reflexivity.
Defined.

(** X7: a tag of a component that stands alone, an opening tag that is
    never closed, a self-closing tag or a closing tag without its opening
    tag, is taken out and the text around it is kept.  The tag can carry
    any text behind the name of the component. *)
Theorem X7_lone_tag_removed (before name attrs after : str) :
  In name components ->
  angle_free attrs = true ->
  ~ In lt before -> ~ In lt after ->
  brace_free (before ++ attrs ++ after) = true ->
  process_mdx_content (before ++ lit "<" ++ name ++ attrs ++ lit ">" ++ after)
  = process_mdx_content (before ++ after)
  /\ process_mdx_content (before ++ lit "</" ++ name ++ lit ">" ++ after)
     = process_mdx_content (before ++ after).
Proof.
  intros Hc Ha Hpre Hpost Hbr.
  apply angle_free_both in Ha as [Hal Hag].
  apply brace_free_app in Hbr as [B1 Hbr].
  apply brace_free_app in Hbr as [B2 B3].
  apply brace_free_In in B1, B2, B3.
  pose proof (component_name_ok Hc) as Hok.
  pose proof (name_no_lbrace name Hok) as Hname.
  unfold process_mdx_content.
  rewrite (strip_markup_plain (before ++ after))
    by (apply not_in_app; assumption).
  split; do 2 f_equal; unfold strip_markup; rewrite remove_comments_id.
  - rewrite lit_lt, lit_gt.
    replace (before ++ [lt] ++ name ++ attrs ++ [gt] ++ after)
      with (before ++ lt :: (name ++ attrs) ++ gt :: after) by list_eq.
    apply (loops_lone_tag name); try assumption.
    + apply not_in_app; [now apply name_no_lt|exact Hal].
    + apply not_in_app; [now apply name_no_gt|exact Hag].
    + left. intros p. now apply open_found.
  - apply no_brace_no_comment. no_char.
  - rewrite lit_lt_slash, lit_gt.
    replace (before ++ [lt; slash] ++ name ++ [gt] ++ after)
      with (before ++ lt :: (slash :: name) ++ gt :: after) by list_eq.
    apply (loops_lone_tag name); try assumption.
    + apply not_in_cons; [discriminate|now apply name_no_lt].
    + apply not_in_cons; [discriminate|now apply name_no_gt].
    + right. intros p. apply close_found.
  - apply no_brace_no_comment. no_char.
Qed.

Lemma X7_lone_tag_removed_witness :
  process_mdx_content
    (lit "See " ++ lit "<" ++ lit "Frame" ++ lit " src=\qa.png\q /" ++ lit ">"
     ++ lit " here")
  = process_mdx_content (lit "See " ++ lit " here")
  /\ process_mdx_content
       (lit "See " ++ lit "</" ++ lit "Frame" ++ lit ">" ++ lit " here")
     = process_mdx_content (lit "See " ++ lit " here").
Proof.
  apply (X7_lone_tag_removed (lit "See ") (lit "Frame")
           (lit " src=\qa.png\q /") (lit " here")).
  - do 16 right. left. reflexivity.
  - vm_compute. reflexivity.
  - intros H. vm_compute in H.
    repeat (destruct H as [H|H]; [discriminate H|]). exact H.
  - intros H. vm_compute in H.
    repeat (destruct H as [H|H]; [discriminate H|]). exact H.
  - vm_compute. reflexivity.
Defined.
(* ================================================================== *)
(** * More about the frontmatter normalizer *)

Module FrontmatterFacts.

(** ** The block at the start of the document *)

Lemma lit_fence : lit "---\n" = [45; 45; 45; 10]%N.
Proof. reflexivity. Qed.

Lemma lit_fence_end : lit "\n---" = [10; 45; 45; 45]%N.
Proof. reflexivity. Qed.

Lemma frontmatter_re_unfold (s : str) :
  match_start frontmatter_re s
  = match_here (chars (lit "---\n")
                ++ Star Lazy Any :: chars (lit "\n---")) None s.
Proof. reflexivity. Qed.

Lemma fence_end_here p (s : str) :
  match_here (chars (lit "\n---")) p s
  = if starts_with (lit "\n---") s then Some 4 else None.
Proof. apply match_here_literal. Qed.

Lemma all_any (u : str) : forallb (mem Any) u = true.
Proof. apply forallb_forall. reflexivity. Qed.

Lemma skipn_length_app {A} (u v : list A) : skipn (length u) (u ++ v) = v.
Proof. induction u as [|x u IH]; [reflexivity|exact IH]. Qed.

Lemma group_one (fm tail : str) :
  firstn (length (lit "---\n") + (length fm + 4) - 8)
    (skipn 4 (lit "---\n" ++ fm ++ tail)) = fm.
Proof.
  change (skipn 4 (lit "---\n" ++ fm ++ tail)) with (fm ++ tail).
  replace (length (lit "---\n") + (length fm + 4) - 8) with (length fm)
    by (change (length (lit "---\n")) with 4; lia).
  apply firstn_length_app.
Qed.

Lemma behind_group (fm rest : str) :
  skipn (length (lit "---\n") + (length fm + 4))
    (lit "---\n" ++ fm ++ lit "\n---" ++ rest) = rest.
Proof.
  replace (length (lit "---\n") + (length fm + 4))
    with (length (lit "---\n" ++ fm ++ lit "\n---"))
    by (rewrite !length_app; change (length (lit "\n---")) with 4; lia).
  replace (lit "---\n" ++ fm ++ lit "\n---" ++ rest)
    with ((lit "---\n" ++ fm ++ lit "\n---") ++ rest)
    by (now rewrite <- !app_assoc).
  apply skipn_length_app.
Qed.

Lemma frontmatter_match_found (fm rest : str) :
  contains (lit "\n---") (fm ++ lit "\n--") = false ->
  frontmatter_match (lit "---\n" ++ fm ++ lit "\n---" ++ rest)
  = Some (fm, rest).
Proof.
  intros Hmin. unfold frontmatter_match.
  rewrite frontmatter_re_unfold, match_here_chars.
  cbn [match_here].
  rewrite (star_lazy_at Any _ fm _ (lit "\n---" ++ rest) 4 (all_any fm)).
  - cbn [option_map]. now rewrite group_one, behind_group.
  - rewrite fence_end_here, starts_with_app. reflexivity.
  - intros u1 x u2 E. rewrite fence_end_here.
    apply contains_split in Hmin as [Hmin _].
    specialize (Hmin u1 x u2 E).
    replace (x :: u2 ++ lit "\n---" ++ rest)
      with ((x :: u2 ++ lit "\n--") ++ lit "-" ++ rest)
      by (rewrite lit_fence_end; list_eq).
    rewrite starts_with_short; [now rewrite Hmin|].
    rewrite lit_fence_end. cbn [length]. rewrite length_app. simpl. lia.
Qed.

Lemma frontmatter_match_split (content fm rest : str) :
  frontmatter_match content = Some (fm, rest) ->
  content = lit "---\n" ++ fm ++ lit "\n---" ++ rest
  /\ contains (lit "\n---") (fm ++ lit "\n--") = false.
Proof.
  unfold frontmatter_match. rewrite frontmatter_re_unfold.
  destruct (starts_with (lit "---\n") content) eqn:Es.
  - apply starts_with_split in Es as [s1 ->].
    rewrite match_here_chars. cbn [match_here].
    destruct (star_lazy Any (match_here (chars (lit "\n---")))
                (last_of None (lit "---\n")) s1) as [n|] eqn:Hs;
      [|discriminate].
    apply star_lazy_inv in Hs as [u [v [m [-> [_ [Hm [-> Hfirst]]]]]]].
    rewrite fence_end_here in Hm.
    destruct (starts_with (lit "\n---") v) eqn:Ev; [|discriminate Hm].
    inversion Hm; subst m. apply starts_with_split in Ev as [rest' ->].
    cbn [option_map]. rewrite group_one, behind_group.
    intros E. injection E as -> ->.
    split; [reflexivity|].
    apply contains_split. split; [|reflexivity].
    intros u1 x u2 E. specialize (Hfirst u1 x u2 E).
    rewrite fence_end_here in Hfirst.
    destruct (starts_with (lit "\n---") (x :: u2 ++ lit "\n---" ++ rest))
      eqn:Ex; [discriminate Hfirst|].
    replace (x :: u2 ++ lit "\n---" ++ rest)
      with ((x :: u2 ++ lit "\n--") ++ lit "-" ++ rest) in Ex
      by (rewrite lit_fence_end; list_eq).
    rewrite starts_with_short in Ex; [exact Ex|].
    rewrite lit_fence_end. cbn [length]. rewrite length_app. simpl. lia.
  - now rewrite match_here_chars_fail.
Qed.

Lemma frontmatter_match_none (content : str) :
  starts_with (lit "---\n") content = false
  \/ contains (lit "\n---") (skipn 4 content) = false ->
  frontmatter_match content = None.
Proof.
  intros H. destruct (frontmatter_match content) as [[fm rest]|] eqn:E;
    [|reflexivity].
  exfalso. apply frontmatter_match_split in E as [-> _].
  destruct H as [H|H].
  - now rewrite starts_with_app in H.
  - rewrite lit_fence in H. cbn [skipn app] in H.
    rewrite (contains_intro (lit "\n---") fm) in H; [discriminate H|].
    apply starts_with_app.
Qed.

(** ** Quotes *)

Lemma strip_with_leading (f : char -> bool) (w t : str) :
  forallb f w = true -> strip_with f (w ++ t) = strip_with f t.
Proof. intros H. unfold strip_with. now rewrite drop_while_all. Qed.

Lemma requote_around (a b s : str) :
  forallb is_quote a = true -> forallb is_quote b = true ->
  requote (a ++ s ++ b) = requote s.
Proof.
  intros Ha Hb. unfold requote. do 2 f_equal.
  fold is_quote. rewrite (strip_with_leading is_quote a _ Ha).
  apply strip_with_trailing. exact Hb.
Qed.

Lemma requote_idem (s : str) : requote (requote s) = requote s.
Proof.
  unfold requote at 2.
  rewrite (requote_around [dquote] [dquote]) by reflexivity.
  unfold requote. now rewrite strip_with_idem.
Qed.

Lemma requoted_idem v : requoted (requoted v) = requoted v.
Proof. destruct v; simpl; try reflexivity. now rewrite requote_idem. Qed.

(** ** The new field set of a mapping, entry by entry *)

Lemma existsb_find {A} (f : A -> bool) (l : list A) :
  existsb f l = match find f l with Some _ => true | None => false end.
Proof.
  induction l as [|x l IH]; [reflexivity|]. simpl.
  destruct (f x); [reflexivity|exact IH].
Qed.

Lemma new_fields_map m :
  new_fields (Map m) =
  match find (fun kv => is_key (lit "title") (fst kv)) m with
  | Some kv =>
      match snd kv with
      | Str s =>
          Ok ((lit "title", Str (requote s))
              :: entry m (lit "sidebarTitle") (lit "sidebar_label")
              ++ entry m (lit "description") (lit "description"))
      | _ => Raise AttributeError
      end
  | None =>
      Ok (entry m (lit "sidebarTitle") (lit "sidebar_label")
          ++ entry m (lit "description") (lit "description"))
  end.
Proof.
  unfold new_fields, handle_title, frontmatter_mapping, entry.
  cbn [map_fields map_field py_in py_getitem bind].
  rewrite !existsb_find.
  destruct (find (fun kv => is_key (lit "title") (fst kv)) m) as [[k1 v1]|];
    destruct (find (fun kv => is_key (lit "sidebarTitle") (fst kv)) m)
      as [[k2 v2]|];
    destruct (find (fun kv => is_key (lit "description") (fst kv)) m)
      as [[k3 v3]|];
    cbn [bind snd]; try destruct v1; reflexivity.
Qed.

Lemma new_fields_not_map v d :
  is_map v = false -> new_fields v = Ok d -> d = [].
Proof.
  unfold new_fields, handle_title, frontmatter_mapping.
  cbn [map_fields map_field].
  destruct v as [|b|z|s|l|m]; try discriminate; intros _;
    cbn [py_in py_getitem bind]; try discriminate.
  - destruct (contains (lit "title") s); cbn [bind]; [discriminate|].
    destruct (contains (lit "sidebarTitle") s); cbn [bind andb];
      [discriminate|].
    destruct (contains (lit "description") s); cbn [bind andb];
      [discriminate|].
    intros E. now inversion E.
  - destruct (existsb (is_key (lit "title")) l); cbn [bind]; [discriminate|].
    destruct (existsb (is_key (lit "sidebarTitle")) l); cbn [bind andb];
      [discriminate|].
    destruct (existsb (is_key (lit "description")) l); cbn [bind andb];
      [discriminate|].
    intros E. now inversion E.
Qed.

Lemma new_fields_not_map_raises v src tgt :
  is_map v = false ->
  In (src, tgt) frontmatter_mapping -> py_in src v <> Ok false ->
  new_fields v = Raise TypeError.
Proof.
  intros Hv Hin Hsrc.
  assert (Hcase : src = lit "sidebarTitle" \/ src = lit "description"
                  \/ src = lit "title").
  { destruct Hin as [E|[E|[E|[]]]]; inversion E; auto. }
  clear Hin. unfold new_fields, handle_title, frontmatter_mapping.
  cbn [map_fields map_field].
  destruct v as [|b|z|s|l|m]; try discriminate; clear Hv;
    cbn [py_in py_getitem bind] in *; try reflexivity.
  - destruct (contains (lit "title") s) eqn:E1; cbn [bind]; [reflexivity|].
    destruct (contains (lit "sidebarTitle") s) eqn:E2; cbn [bind andb];
      [reflexivity|].
    destruct (contains (lit "description") s) eqn:E3; cbn [bind andb];
      [reflexivity|].
    exfalso. apply Hsrc. destruct Hcase as [->|[->| ->]]; congruence.
  - destruct (existsb (is_key (lit "title")) l) eqn:E1; cbn [bind];
      [reflexivity|].
    destruct (existsb (is_key (lit "sidebarTitle")) l) eqn:E2;
      cbn [bind andb]; [reflexivity|].
    destruct (existsb (is_key (lit "description")) l) eqn:E3;
      cbn [bind andb]; [reflexivity|].
    exfalso. apply Hsrc. destruct Hcase as [->|[->| ->]]; congruence.
Qed.

Lemma or_empty_dict_truthy v : truthy v = true -> or_empty_dict v = v.
Proof. unfold or_empty_dict. now intros ->. Qed.

Lemma or_empty_dict_falsy v : truthy v = false -> or_empty_dict v = Map [].
Proof. unfold or_empty_dict. now intros ->. Qed.

End FrontmatterFacts.

Import FrontmatterFacts.

(** X8: what counts as a frontmatter block.  [clean_frontmatter] finds a
    block exactly when the document is [---], a newline, a body, a
    newline and [---], followed by the rest, and the body is the shortest
    one: a newline with [---] behind it does not come earlier.  The end
    of the block is the first such place, whatever follows the three
    dashes. *)
Theorem X8_frontmatter_block (content fm_content rest : str) :
  frontmatter_match content = Some (fm_content, rest)
  <-> content = lit "---\n" ++ fm_content ++ lit "\n---" ++ rest
      /\ contains (lit "\n---") (fm_content ++ lit "\n--") = false.
Proof.
  split.
  - apply frontmatter_match_split.
  - intros [-> H]. now apply frontmatter_match_found.
Qed.

(** X9: a document that does not start with the line [---], or in which
    no later line starts with [---], is returned as it is, whatever the
    YAML library would do. *)
Theorem X9_no_block_no_change (yaml : yaml_module) (content : str) :
  starts_with (lit "---\n") content = false
  \/ contains (lit "\n---") (skipn 4 content) = false ->
  clean_frontmatter yaml content = Some (Ok content).
Proof.
  intros H. unfold clean_frontmatter.
  now rewrite (frontmatter_match_none content H).
Qed.

Lemma X9_no_block_no_change_witness :
  clean_frontmatter pyyaml (lit "\n---\ntitle: Hello\n---\n# Doc")
  = Some (Ok (lit "\n---\ntitle: Hello\n---\n# Doc")).
Proof.
  apply (X9_no_block_no_change pyyaml
           (lit "\n---\ntitle: Hello\n---\n# Doc")).
  left. vm_compute. reflexivity.
Defined.

(** X10: quote characters at the two ends of a value, however many and
    of either kind, do not change what lines 107 and 108 make of it; in
    particular the value that a run has quoted is left as it is by the
    next run. *)
Theorem X10_boundary_quotes_do_not_count (a b s : str) :
  forallb is_quote a = true -> forallb is_quote b = true ->
  requote (a ++ s ++ b) = requote s
  /\ requote (requote (a ++ s ++ b)) = requote s.
Proof.
  intros Ha Hb. rewrite requote_idem.
  split; now apply requote_around.
Qed.

Lemma X10_boundary_quotes_do_not_count_witness :
  requote (lit "'\q'" ++ lit "it's \qHello\q here" ++ lit "\q\q")
  = requote (lit "it's \qHello\q here")
  /\ requote (requote (lit "'\q'" ++ lit "it's \qHello\q here" ++ lit "\q\q"))
     = requote (lit "it's \qHello\q here").
Proof.
  apply (X10_boundary_quotes_do_not_count (lit "'\q'")
           (lit "\q\q") (lit "it's \qHello\q here"));
    vm_compute; reflexivity.
Defined.

(** X11: when the frontmatter is a mapping and the normalizer returns,
    every field whose name is a source name of [frontmatter_mapping]
    stands in the new field set under its target name: a text with one
    pair of double quotes around it, any other value as it was. *)
Theorem X11_mapped_field_is_kept (m : list (value * value))
  (src tgt : str) (v : value) (new_fm : fields) :
  In (src, tgt) frontmatter_mapping ->
  py_getitem (Map m) src = Ok v ->
  new_fields (Map m) = Ok new_fm ->
  In (tgt, requoted v) new_fm.
Proof.
  intros Hin Hv. rewrite new_fields_map. cbn [py_getitem] in Hv.
  destruct Hin as [E|[E|[E|[]]]]; inversion E; subst src tgt; clear E.
  - assert (He : entry m (lit "sidebarTitle") (lit "sidebar_label")
                 = [(lit "sidebar_label", requoted v)]).
    { unfold entry.
      destruct (find (fun kv => is_key (lit "sidebarTitle") (fst kv)) m);
        [|discriminate Hv].
      now inversion Hv. }
    rewrite He.
    destruct (find (fun kv => is_key (lit "title") (fst kv)) m) as [kv|].
    + destruct (snd kv); try discriminate.
      intros E. inversion E. right. now left.
    + intros E. inversion E. now left.
  - assert (He : entry m (lit "description") (lit "description")
                 = [(lit "description", requoted v)]).
    { unfold entry.
      destruct (find (fun kv => is_key (lit "description") (fst kv)) m);
        [|discriminate Hv].
      now inversion Hv. }
    rewrite He.
    destruct (find (fun kv => is_key (lit "title") (fst kv)) m) as [kv|].
    + destruct (snd kv); try discriminate.
      intros E. inversion E. right. apply in_or_app. right. now left.
    + intros E. inversion E. apply in_or_app. right. now left.
  - destruct (find (fun kv => is_key (lit "title") (fst kv)) m) as [kv|];
      [|discriminate Hv].
    inversion Hv; subst v.
    destruct (snd kv); try discriminate.
    intros E. inversion E. now left.
Qed.

Lemma X11_mapped_field_is_kept_witness :
  In (lit "sidebar_label", requoted (Int 7))
     [(lit "title", Str (lit "\qHello\q")); (lit "sidebar_label", Int 7)].
Proof.
  apply (X11_mapped_field_is_kept
           [(Str (lit "sidebarTitle"), Int 7);
            (Str (lit "title"), Str (lit "'Hello'"));
            (Str (lit "icon"), Str (lit "star"))]
           (lit "sidebarTitle") (lit "sidebar_label") (Int 7)
           [(lit "title", Str (lit "\qHello\q")); (lit "sidebar_label", Int 7)]).
  - left. reflexivity.
  - vm_compute. reflexivity.
  - vm_compute. reflexivity.
Defined.

(** X12: the normalizer is not stable under a second run.  Run on the
    field set that it has built, in the order in which it was built or
    in the order of the keys in which [yaml.dump] writes it, it keeps the
    title and the description as they are and drops [sidebar_label],
    because the mapping only knows the source name [sidebarTitle]. *)
Theorem X12_second_run_drops_sidebar_label (fm_data : value)
  (new_fm : fields) :
  new_fields fm_data = Ok new_fm ->
  let kept :=
    filter (fun kv => negb (str_eqb (fst kv) (lit "sidebar_label"))) new_fm in
  new_fields (dict_value new_fm) = Ok kept
  /\ new_fields (dict_value (sorted_items new_fm)) = Ok kept.
Proof.
  destruct (is_map fm_data) eqn:Hm.
  - destruct fm_data as [| | | | |m]; try discriminate Hm.
    rewrite new_fields_map. unfold entry.
    destruct (find (fun kv => is_key (lit "title") (fst kv)) m) as [[k1 v1]|];
      destruct (find (fun kv => is_key (lit "sidebarTitle") (fst kv)) m)
        as [[k2 v2]|];
      destruct (find (fun kv => is_key (lit "description") (fst kv)) m)
        as [[k3 v3]|];
      cbn [snd]; try (destruct v1; try discriminate);
      intros E; inversion E; subst new_fm; clear E;
      cbv zeta; unfold dict_value; rewrite !new_fields_map; unfold entry;
      cbn -[requote requoted];
      rewrite ?requoted_idem, ?requote_idem; split; reflexivity.
  - intros E. rewrite (new_fields_not_map fm_data new_fm Hm E).
    split; reflexivity.
Qed.

Lemma X12_second_run_drops_sidebar_label_witness :
  let new_fm := [(lit "title", Str (lit "\qHello\q"));
                 (lit "sidebar_label", Str (lit "\qHi\q"))] in
  let kept :=
    filter (fun kv => negb (str_eqb (fst kv) (lit "sidebar_label"))) new_fm in
  new_fields (dict_value new_fm) = Ok kept
  /\ new_fields (dict_value (sorted_items new_fm)) = Ok kept.
Proof.
  intros new_fm.
  apply (X12_second_run_drops_sidebar_label
           (Map [(Str (lit "title"), Str (lit "Hello"));
                 (Str (lit "sidebarTitle"), Str (lit "Hi"))]) new_fm).
  vm_compute. reflexivity.
Defined.

(** X13: a frontmatter block whose body is empty, or loads to [None],
    [False], [0], an empty text, an empty list or an empty mapping, is
    taken for an empty mapping by [or {}]; the block is rewritten to the
    line [{}] that the library writes for the empty field set. *)
Theorem X13_empty_body_gives_empty_mapping (yaml : yaml_module)
  (content fm_content rest : str) (v : value) :
  dump yaml [] = Some (lit "{}\n") ->
  frontmatter_match content = Some (fm_content, rest) ->
  safe_load yaml fm_content = Some (Loaded v) ->
  truthy v = false ->
  clean_frontmatter yaml content = Some (Ok (lit "---\n{}\n---\n" ++ rest)).
Proof.
  intros Hd Hm Hl Hv.
  rewrite (clean_frontmatter_loaded yaml content fm_content rest v Hm Hl).
  rewrite (or_empty_dict_falsy v Hv).
  assert (En : new_fields (Map []) = Ok []) by reflexivity.
  rewrite En, Hd. reflexivity.
Qed.

Lemma X13_empty_body_gives_empty_mapping_witness :
  clean_frontmatter pyyaml (lit "---\n\n---\n# Doc")
  = Some (Ok (lit "---\n{}\n---\n" ++ lit "\n# Doc")).
Proof.
  apply (X13_empty_body_gives_empty_mapping pyyaml
           (lit "---\n\n---\n# Doc") [] (lit "\n# Doc") Null);
    vm_compute; reflexivity.
Defined.

(** X14: a frontmatter body that loads to something else than a mapping
    makes the normalizer raise [TypeError] as soon as one of the three
    source names is found in it, or cannot be looked for: a number, a
    text that holds the word, a list that holds the name.  The handler of
    line 125 does not catch it. *)
Theorem X14_body_not_a_mapping_raises (yaml : yaml_module)
  (content fm_content rest : str) (v : value) (src tgt : str) :
  frontmatter_match content = Some (fm_content, rest) ->
  safe_load yaml fm_content = Some (Loaded v) ->
  truthy v = true ->
  is_map v = false ->
  In (src, tgt) frontmatter_mapping ->
  py_in src v <> Ok false ->
  clean_frontmatter yaml content = Some (Raise TypeError).
Proof.
  intros Hm Hl Ht Hv Hin Hsrc.
  rewrite (clean_frontmatter_loaded yaml content fm_content rest v Hm Hl).
  rewrite (or_empty_dict_truthy v Ht).
  now rewrite (new_fields_not_map_raises v src tgt Hv Hin Hsrc).
Qed.

Lemma X14_body_not_a_mapping_raises_witness :
  clean_frontmatter Sample.pyyaml_scalars (lit "---\nmy title\n---\n# Doc")
  = Some (Raise TypeError).
Proof.
  apply (X14_body_not_a_mapping_raises Sample.pyyaml_scalars
           (lit "---\nmy title\n---\n# Doc") (lit "my title") (lit "\n# Doc")
           (Str (lit "my title")) (lit "title") (lit "title")).
  - vm_compute. reflexivity.
  - vm_compute. reflexivity.
  - vm_compute. reflexivity.
  - vm_compute. reflexivity.
  - right. right. left. reflexivity.
  - vm_compute. discriminate.
Defined.
(* ================================================================== *)
(** * Facts about paths and the tree *)

Module DiskFacts.

Lemma path_eqb_eq (p q : path) : path_eqb p q = true <-> p = q.
Proof.
  revert q. induction p as [|a p IH]; intros [|b q]; simpl;
    try (split; [discriminate|discriminate]); [tauto|].
  rewrite andb_true_iff, str_eqb_eq, IH. split.
  - now intros [-> ->].
  - intros E. inversion E. split; reflexivity.
Qed.

Lemma path_eqb_refl (p : path) : path_eqb p p = true.
Proof. now apply path_eqb_eq. Qed.

Lemma path_eqb_neq (p q : path) : p <> q -> path_eqb p q = false.
Proof.
  intros H. destruct (path_eqb p q) eqn:E; [|reflexivity].
  now apply path_eqb_eq in E.
Qed.

Lemma str_eqb_refl (a : str) : str_eqb a a = true.
Proof. now apply str_eqb_eq. Qed.

Lemma is_prefix_app (p r : path) : is_prefix p (p ++ r) = true.
Proof.
  induction p as [|a p IH]; [reflexivity|].
  simpl. now rewrite str_eqb_refl, IH.
Qed.

Lemma is_prefix_split (p q : path) :
  is_prefix p q = true -> exists r, q = p ++ r.
Proof.
  revert q. induction p as [|a p IH]; intros q H; [now exists q|].
  destruct q as [|b q]; [discriminate H|]. simpl in H.
  apply andb_true_iff in H as [Hab H]. apply str_eqb_eq in Hab. subst b.
  destruct (IH _ H) as [r ->]. now exists r.
Qed.

Lemma is_prefix_trans (p q r : path) :
  is_prefix p q = true -> is_prefix q r = true -> is_prefix p r = true.
Proof.
  intros H1 H2. apply is_prefix_split in H1 as [a ->].
  apply is_prefix_split in H2 as [b ->].
  rewrite <- app_assoc. apply is_prefix_app.
Qed.

Lemma hidden_below (p q : path) :
  hidden p = true -> is_prefix p q = true -> hidden q = true.
Proof.
  intros Hp Hq. apply is_prefix_split in Hq as [r ->].
  unfold hidden in *. rewrite existsb_app, Hp. reflexivity.
Qed.

Lemma skipn_prefix (p r : path) : skipn (length p) (p ++ r) = r.
Proof. induction p as [|a p IH]; [reflexivity|exact IH]. Qed.

(** ** Looking up after a write *)

Lemma find_map_key (g : path * node -> path * node) (q : path) (t : tree) :
  (forall e, fst (g e) = fst e) ->
  find (at_path q) (map g t) = option_map g (find (at_path q) t).
Proof.
  intros Hg. induction t as [|e t IH]; [reflexivity|].
  cbn [map find]. unfold at_path at 1 3. rewrite Hg.
  destruct (path_eqb (fst e) q); [reflexivity|exact IH].
Qed.

Lemma find_at_path (q : path) (t : tree) e :
  find (at_path q) t = Some e -> fst e = q.
Proof.
  intros H. apply find_some in H as [_ H]. now apply path_eqb_eq in H.
Qed.

Lemma write_key (p : path) (data : bytes) e :
  fst (if at_path p e then (fst e, File data) else e) = fst e.
Proof. now destruct (at_path p e). Qed.

Lemma lookup_write_other (t : tree) (p q : path) (data : bytes) :
  q <> p -> lookup (write_file t p data) q = lookup t q.
Proof.
  intros Hq. unfold lookup, write_file.
  rewrite (find_map_key _ q t (write_key p data)).
  destruct (find (at_path q) t) as [e|] eqn:E; [|reflexivity].
  cbn [option_map]. apply find_at_path in E.
  unfold at_path. rewrite E, (path_eqb_neq q p Hq). reflexivity.
Qed.

Lemma lookup_write_same (t : tree) (p : path) (data : bytes) :
  lookup (write_file t p data) p
  = match lookup t p with Some _ => Some (File data) | None => None end.
Proof.
  unfold lookup, write_file.
  rewrite (find_map_key _ p t (write_key p data)).
  destruct (find (at_path p) t) as [e|] eqn:E; [|reflexivity].
  cbn [option_map]. apply find_at_path in E.
  unfold at_path. rewrite E, path_eqb_refl. reflexivity.
Qed.

Lemma keys_write (t : tree) (p : path) (data : bytes) :
  map fst (write_file t p data) = map fst t.
Proof.
  unfold write_file. rewrite map_map. apply map_ext. intros e.
  apply write_key.
Qed.

(** ** Looking up after a copy *)


Lemma find_app_none {A} (f : A -> bool) (l1 l2 : list A) :
  find f l1 = None -> find f (l1 ++ l2) = find f l2.
Proof.
  induction l1 as [|x l1 IH]; [reflexivity|]. simpl.
  destruct (f x); [discriminate|exact IH].
Qed.

Lemma find_app_some {A} (f : A -> bool) (l1 l2 : list A) x :
  find f l1 = Some x -> find f (l1 ++ l2) = Some x.
Proof.
  induction l1 as [|y l1 IH]; [discriminate|]. simpl.
  destruct (f y); [trivial|exact IH].
Qed.

Lemma find_copies (t : tree) (src dst rel : path) :
  find (at_path (dst ++ rel))
    (map (fun e : path * node => (rebase src dst (fst e), snd e))
       (filter (fun e : path * node => is_prefix src (fst e)) t))
  = option_map (fun e : path * node => (rebase src dst (fst e), snd e))
      (find (at_path (src ++ rel)) t).
Proof.
  induction t as [|e t IH]; [reflexivity|].
  cbn [filter find].
  change (at_path (src ++ rel) e) with (path_eqb (fst e) (src ++ rel)).
  destruct (is_prefix src (fst e)) eqn:Hp.
  - cbn [map find].
    change (at_path (dst ++ rel) (rebase src dst (fst e), snd e))
      with (path_eqb (rebase src dst (fst e)) (dst ++ rel)).
    apply is_prefix_split in Hp as [r Hr].
    unfold rebase at 1. rewrite Hr, skipn_prefix.
    destruct (path_eqb (src ++ r) (src ++ rel)) eqn:E.
    + apply path_eqb_eq, app_inv_head in E. subst r.
      rewrite path_eqb_refl. cbn [option_map]. unfold rebase.
      now rewrite Hr, skipn_prefix.
    + rewrite path_eqb_neq; [exact IH|].
      intros E'. apply app_inv_head in E'. subst r.
      now rewrite path_eqb_refl in E.
  - rewrite path_eqb_neq; [exact IH|].
    intros E. rewrite E, is_prefix_app in Hp. discriminate Hp.
Qed.


Lemma lookup_copy_other (t : tree) (src dst q : path) :
  is_prefix dst q = false -> lookup (copytree t src dst) q = lookup t q.
Proof.
  intros Hq. unfold lookup, copytree.
  set (extra := map (fun e : path * node => (rebase src dst (fst e), snd e))
                  (filter (fun e : path * node => is_prefix src (fst e)) t)).
  destruct (find (at_path q) t) as [e|] eqn:E.
  - now rewrite (find_app_some _ _ _ _ E).
  - rewrite (find_app_none _ _ _ E).
    destruct (find (at_path q) extra) as [e|] eqn:E'; [|reflexivity].
    pose proof (find_at_path _ _ _ E') as Hk.
    apply find_some in E' as [Hin _].
    apply in_map_iff in Hin as [e0 [<- _]]. cbn [fst] in Hk.
    unfold rebase in Hk. rewrite <- Hk, is_prefix_app in Hq.
    discriminate Hq.
Qed.

(** ** The two paths of a migrator *)



End DiskFacts.

Import DiskFacts.

(* ================================================================== *)
(** * Facts about the methods that work on files *)

Module MigrationFacts.

(** What [clean_file] does, by the case at hand *)
Lemma clean_file_cases (yaml : yaml_module) (py : runtime) (w w' : world) (p : path) :
  clean_file yaml py w p = Done w' ->
  exists data,
    lookup (disk w) p = Some (File data)
    /\ (disk w' = disk w
        \/ (exists data' content,
              disk w' = write_file (disk w) p data'
              /\ decode_default py data <> None
              /\ decode_utf8 py data = Some content
              /\ is_markdown p = true)).
Proof.
  unfold clean_file, is_binary_file.
  destruct (lookup (disk w) p) as [[data|]|] eqn:El; try discriminate.
  intros H. exists data. split; [reflexivity|].
  destruct (decode_default py data) as [c0|] eqn:Ed.
  - destruct (decode_utf8 py data) as [content|] eqn:Eu.
    + destruct (is_markdown p) eqn:Em; cbn [negb] in H.
      * destruct (transform yaml content) as [[c1|e]|]; try discriminate.
        -- destruct (encode_utf8 py c1) as [d1|];
             inversion H; subst w'; right; eexists _, content;
             (split; [reflexivity|]); repeat split; congruence.
        -- inversion H. now left.
      * inversion H. now left.
    + inversion H. now left.
  - inversion H. now left.
Qed.

Lemma clean_file_frame (yaml : yaml_module) (py : runtime) 
  (w w' : world) (p : path) :
  clean_file yaml py w p = Done w' ->
  map fst (disk w') = map fst (disk w)
  /\ (forall q, q <> p -> lookup (disk w') q = lookup (disk w) q)
  /\ is_file (disk w') p = true.
Proof.
  intros H. destruct (clean_file_cases yaml py w w' p H) as [data [El [E|E]]].
  - rewrite E. repeat split. unfold is_file. now rewrite El.
  - destruct E as [data' [content [E _]]]. rewrite E.
    split; [apply keys_write|]. split.
    + intros q Hq. now apply lookup_write_other.
    + unfold is_file. rewrite lookup_write_same, El. reflexivity.
Qed.

Lemma clean_file_is_file (yaml : yaml_module) (py : runtime) 
  (w w' : world) (p q : path) :
  clean_file yaml py w p = Done w' ->
  is_file (disk w') q = is_file (disk w) q.
Proof.
  intros H. destruct (clean_file_frame yaml py w w' p H) as [_ [Hf Hp]].
  destruct (clean_file_cases yaml py w w' p H) as [data [El _]].
  destruct (path_eqb q p) eqn:E.
  - apply path_eqb_eq in E. subst q. rewrite Hp.
    unfold is_file. now rewrite El.
  - unfold is_file. rewrite Hf; [reflexivity|].
    intros ->. now rewrite path_eqb_refl in E.
Qed.

(** What [clean_file] makes of a file depends on the bytes of that file
    only. *)
Lemma clean_file_local (yaml : yaml_module) (py : runtime) 
  (w1 w2 w1' : world) (p : path) :
  lookup (disk w2) p = lookup (disk w1) p ->
  clean_file yaml py w1 p = Done w1' ->
  exists w2', clean_file yaml py w2 p = Done w2'
              /\ lookup (disk w2') p = lookup (disk w1') p.
Proof.
  intros El. unfold clean_file, is_binary_file. rewrite El.
  destruct (lookup (disk w1) p) as [[data|]|] eqn:E1; try discriminate.
  destruct (decode_default py data) as [c0|].
  - destruct (decode_utf8 py data) as [content|].
    + destruct (is_markdown p); cbn [negb].
      * destruct (transform yaml content) as [[c1|e]|]; try discriminate.
        -- destruct (encode_utf8 py c1) as [d1|];
             intros H; inversion H; subst w1'; eexists; (split; [reflexivity|]);
             cbn [disk say]; now rewrite !lookup_write_same, El, E1.
        -- intros H; inversion H; subst w1'. eexists. split; [reflexivity|].
           cbn [disk say]. now rewrite El, E1.
      * intros H; inversion H; subst w1'. eexists. split; [reflexivity|].
        now rewrite El, E1.
    + intros H; inversion H; subst w1'. eexists. split; [reflexivity|].
      cbn [disk say]. now rewrite El, E1.
  - intros H; inversion H; subst w1'. eexists. split; [reflexivity|].
    cbn [disk say]. now rewrite El, E1.
Qed.

(** ** The loop of [process_directory] *)

Lemma clean_each_frame (yaml : yaml_module) (py : runtime) 
  (ps : list path) : forall (w w' : world),
  clean_each yaml py w ps = Done w' ->
  map fst (disk w') = map fst (disk w)
  /\ (forall q, ~ In q ps -> lookup (disk w') q = lookup (disk w) q)
  /\ (forall q, hidden q = true -> lookup (disk w') q = lookup (disk w) q).
Proof.
  induction ps as [|p ps IH]; intros w w' H; cbn [clean_each] in H.
  - inversion H. repeat split.
  - destruct (is_file (disk w) p && negb (hidden p)) eqn:Eg.
    + destruct (clean_file yaml py w p) as [w1| |] eqn:Ec; try discriminate.
      destruct (clean_file_frame yaml py w w1 p Ec) as [K1 [F1 _]].
      destruct (IH _ _ H) as [K2 [F2 H2]].
      apply andb_true_iff in Eg as [_ Eh]. apply negb_true_iff in Eh.
      split; [congruence|]. split.
      * intros q Hq. rewrite F2 by (intros Hin; apply Hq; now right).
        apply F1. intros ->. apply Hq. now left.
      * intros q Hq. rewrite (H2 q Hq). apply F1.
        intros ->. congruence.
    + destruct (IH _ _ H) as [K2 [F2 H2]].
      split; [exact K2|]. split; [|exact H2].
      intros q Hq. apply F2. intros Hin. apply Hq. now right.
Qed.

Lemma clean_each_alone (yaml : yaml_module) (py : runtime) 
  (ps : list path) : forall (w w' : world),
  NoDup ps ->
  clean_each yaml py w ps = Done w' ->
  forall p wp,
    In p ps -> is_file (disk w) p = true -> hidden p = false ->
    clean_file yaml py w p = Done wp ->
    lookup (disk w') p = lookup (disk wp) p.
Proof.
  induction ps as [|p0 ps IH]; intros w w' Hnd H p wp Hin Hf Hh Hc;
    [destruct Hin|].
  inversion Hnd as [|? ? Hn0 Hnd']; subst. cbn [clean_each] in H.
  destruct (is_file (disk w) p0 && negb (hidden p0)) eqn:Eg.
  - destruct (clean_file yaml py w p0) as [w1| |] eqn:Ec; try discriminate.
    destruct Hin as [->|Hin].
    + rewrite Hc in Ec. inversion Ec; subst w1.
      destruct (clean_each_frame yaml py ps _ _ H) as [_ [F _]]. now apply F.
    + assert (Hne : p <> p0) by (intros ->; contradiction).
      destruct (clean_file_frame yaml py w w1 p0 Ec) as [_ [F1 _]].
      destruct (clean_file_local yaml py w w1 wp p (F1 p Hne) Hc) as [wp' [Hc' El]].
      rewrite <- El. apply (IH w1 w' Hnd' H p wp' Hin); [|exact Hh|exact Hc'].
      now rewrite (clean_file_is_file yaml py w w1 p0 p Ec).
  - destruct Hin as [->|Hin].
    + rewrite Hf, Hh in Eg. discriminate Eg.
    + exact (IH w w' Hnd' H p wp Hin Hf Hh Hc).
Qed.

Lemma clean_each_hidden (yaml : yaml_module) (py : runtime) 
  (ps : list path) (w : world) :
  (forall p, In p ps -> hidden p = true) ->
  clean_each yaml py w ps = Done w.
Proof.
  induction ps as [|p ps IH]; intros Hh; [reflexivity|].
  cbn [clean_each]. rewrite (Hh p (or_introl eq_refl)), andb_false_r.
  apply IH. intros q Hq. apply Hh. now right.
Qed.

Lemma rglob_below (t : tree) (d p : path) :
  In p (rglob t d) -> is_prefix d p = true /\ p <> d.
Proof.
  unfold rglob. intros H. apply filter_In in H as [_ H].
  apply andb_true_iff in H as [H1 H2]. split; [exact H1|].
  intros ->. now rewrite path_eqb_refl in H2.
Qed.

Lemma rglob_lists (t : tree) (d p : path) :
  is_prefix d p = true -> p <> d -> lookup t p <> None -> In p (rglob t d).
Proof.
  intros Hp Hne Hl. unfold rglob. apply filter_In. split.
  - unfold lookup in Hl. destruct (find (at_path p) t) as [e|] eqn:E;
      [|congruence].
    pose proof (find_at_path _ _ _ E) as Hk.
    apply find_some in E as [Hin _]. apply in_map_iff. now exists e.
  - rewrite Hp. cbn [andb]. apply negb_true_iff, path_eqb_neq.
    intros E. now apply Hne.
Qed.

Lemma create_backup_other (self : migrator) (w w' : world) (q : path) :
  create_backup self w = Done w' ->
  is_prefix (backup_dir self) q = false
  \/ path_exists (disk w) (backup_dir self) = true ->
  lookup (disk w') q = lookup (disk w) q.
Proof.
  unfold create_backup. intros H Hq.
  destruct (path_exists (disk w) (backup_dir self)) eqn:Ee.
  - now inversion H.
  - destruct Hq as [Hq|Hq]; [|discriminate Hq].
    destruct (lookup (disk w) (docs_dir self)) as [[|]|]; try discriminate.
    inversion H. cbn [disk say]. now apply lookup_copy_other.
Qed.

Lemma process_directory_outside (yaml : yaml_module) (py : runtime)
  (self : migrator) (w w' : world) (q : path) :
  process_directory yaml py self w = Done w' ->
  is_prefix (docs_dir self) q = false ->
  is_prefix (backup_dir self) q = false
  \/ path_exists (disk w) (backup_dir self) = true ->
  lookup (disk w') q = lookup (disk w) q.
Proof.
  unfold process_directory. intros H Hd Hb.
  destruct (create_backup self w) as [w1| |] eqn:E1; try discriminate H.
  destruct (clean_each_frame yaml py _ _ _ H) as [_ [F _]].
  rewrite F.
  - exact (create_backup_other self w w1 q E1 Hb).
  - intros Hin. apply rglob_below in Hin as [Hin _]. congruence.
Qed.

Ltac distinct_paths :=
  vm_compute;
  repeat (apply NoDup_cons;
          [ let H := fresh in
            intros H;
            repeat (destruct H as [H|H]; [discriminate H|]); exact H
          | ]);
  apply NoDup_nil.

End MigrationFacts.

Import MigrationFacts.

(** X15: [clean_file] works on one file.  When it returns, the tree has
    the same entries as before, every other path holds what it held, and
    the path it was called on is still a file. *)
Theorem X15_clean_file_touches_one_file (yaml : yaml_module) (py : runtime)
  (w w' : world) (file_path : path) :
  clean_file yaml py w file_path = Done w' ->
  map fst (disk w') = map fst (disk w)
  /\ (forall q, q <> file_path -> lookup (disk w') q = lookup (disk w) q)
  /\ is_file (disk w') file_path = true.
Proof. apply clean_file_frame. Qed.

Lemma X15_clean_file_touches_one_file_witness :
  let p := Sample.docs ++ [lit "intro.md"] in
  let w' := Sample.after Sample.sample_world
              (clean_file pyyaml utf8 Sample.sample_world p) in
  map fst (disk w') = map fst (disk Sample.sample_world)
  /\ (forall q, q <> p -> lookup (disk w') q = lookup (disk Sample.sample_world) q)
  /\ is_file (disk w') p = true.
Proof.
  intros p w'.
  apply (X15_clean_file_touches_one_file pyyaml utf8 Sample.sample_world w' p).
  vm_compute. reflexivity.
Defined.

(** X16: [clean_file] leaves the tree as it is when the suffix of the
    path, in lower case, is neither [.md] nor [.mdx], and when the bytes
    of the file are not text in the encoding of the locale or in UTF-8.
    A file named [.md], [README] or [notes.md.] has no such suffix. *)
Theorem X16_other_files_stay (yaml : yaml_module) (py : runtime)
  (w w' : world) (file_path : path) :
  clean_file yaml py w file_path = Done w' ->
  is_markdown file_path = false
  \/ (exists data,
        lookup (disk w) file_path = Some (File data)
        /\ (decode_default py data = None \/ decode_utf8 py data = None)) ->
  disk w' = disk w.
Proof.
  intros H Hc.
  destruct (clean_file_cases yaml py w w' file_path H)
    as [data [El [E|[data' [content [_ [Hd [Hu Hm]]]]]]]]; [exact E|].
  exfalso. destruct Hc as [Hc|[data0 [El0 Hc]]]; [congruence|].
  rewrite El in El0. inversion El0; subst data0.
  destruct Hc as [Hc|Hc]; congruence.
Qed.

Lemma X16_other_files_stay_witness :
  let p := Sample.docs ++ [lit "notes.txt"] in
  disk (Sample.after Sample.sample_world
          (clean_file pyyaml utf8 Sample.sample_world p))
  = disk Sample.sample_world.
Proof.
  intros p.
  apply (X16_other_files_stay pyyaml utf8 Sample.sample_world _ p).
  - vm_compute. reflexivity.
  - left. vm_compute. reflexivity.
Defined.

(** X17: a Markdown file whose frontmatter is a mapping with a title
    that is not a text is not rewritten.  The [AttributeError] of line
    107 is caught by [clean_file], which logs it and returns, so the
    file keeps its content. *)
Theorem X17_bad_title_leaves_file (yaml : yaml_module) (py : runtime)
  (w : world) (file_path : path) (data : bytes)
  (before content fm_content rest : str)
  (m : list (value * value)) (v : value) :
  lookup (disk w) file_path = Some (File data) ->
  decode_default py data = Some before ->
  decode_utf8 py data = Some content ->
  is_markdown file_path = true ->
  frontmatter_match content = Some (fm_content, rest) ->
  safe_load yaml fm_content = Some (Loaded (Map m)) ->
  py_getitem (Map m) (lit "title") = Ok v ->
  is_str v = false ->
  clean_file yaml py w file_path
  = Done (say w (Error_processing file_path (Python AttributeError))).
Proof.
  intros El Ed Eu Em Hf Hl Hv Hs.
  unfold clean_file, is_binary_file, transform.
  rewrite El, Ed, Eu, Em. cbn [negb].
  rewrite (clean_frontmatter_loaded yaml content fm_content rest (Map m) Hf Hl).
  rewrite or_empty_dict_map, new_fields_map.
  cbn [py_getitem] in Hv.
  destruct (find (fun kv => is_key (lit "title") (fst kv)) m) as [kv|];
    [|discriminate Hv].
  inversion Hv; subst v.
  destruct (snd kv); try discriminate Hs; reflexivity.
Qed.

Lemma X17_bad_title_leaves_file_witness :
  clean_file pyyaml utf8 Sample.sample_world
    (Sample.docs ++ [lit "broken.md"])
  = Done (say Sample.sample_world
            (Error_processing (Sample.docs ++ [lit "broken.md"])
               (Python AttributeError))).
Proof.
  apply (X17_bad_title_leaves_file pyyaml utf8 Sample.sample_world
           (Sample.docs ++ [lit "broken.md"]) Sample.broken_md
           (lit "---\ntitle: 5\n---\nBody\n")
           (lit "---\ntitle: 5\n---\nBody\n")
           (lit "title: 5") (lit "\nBody\n")
           [(Str (lit "title"), Int 5)] (Int 5));
    vm_compute; reflexivity.
Defined.

(** X18: [process_directory] cleans the files one by one, and what it
    makes of a file does not depend on the other files.  After the run,
    a file below the docs directory with no hidden part in its path holds
    what [clean_file] alone makes of it in the tree as it is after the
    backup. *)
Theorem X18_each_file_cleaned_alone (yaml : yaml_module) (py : runtime)
  (self : migrator) (w w1 w' wp : world) (file_path : path) :
  create_backup self w = Done w1 ->
  process_directory yaml py self w = Done w' ->
  NoDup (map fst (disk w1)) ->
  is_prefix (docs_dir self) file_path = true ->
  file_path <> docs_dir self ->
  is_file (disk w1) file_path = true ->
  hidden file_path = false ->
  clean_file yaml py w1 file_path = Done wp ->
  lookup (disk w') file_path = lookup (disk wp) file_path.
Proof.
  intros Hb H Hnd Hp Hne Hf Hh Hc.
  unfold process_directory in H. rewrite Hb in H.
  apply (clean_each_alone yaml py (rglob (disk w1) (docs_dir self)) w1 w');
    try assumption.
  - unfold rglob. now apply NoDup_filter.
  - apply rglob_lists; try assumption.
    unfold is_file in Hf. destruct (lookup (disk w1) file_path);
      [discriminate|discriminate Hf].
Qed.

Lemma X18_each_file_cleaned_alone_witness :
  let p := Sample.docs ++ [lit "intro.md"] in
  let w1 := Sample.after Sample.sample_world
              (create_backup Sample.sample_migrator Sample.sample_world) in
  let w' := Sample.after Sample.sample_world
              (process_directory pyyaml utf8 Sample.sample_migrator
                 Sample.sample_world) in
  let wp := Sample.after w1 (clean_file pyyaml utf8 w1 p) in
  lookup (disk w') p = lookup (disk wp) p.
Proof.
  intros p w1 w' wp.
  apply (X18_each_file_cleaned_alone pyyaml utf8 Sample.sample_migrator
           Sample.sample_world w1 w' wp p).
  - vm_compute. reflexivity.
  - vm_compute. reflexivity.
  - distinct_paths.
  - vm_compute. reflexivity.
  - vm_compute. discriminate.
  - vm_compute. reflexivity.
  - vm_compute. reflexivity.
  - vm_compute. reflexivity.
Defined.

(** X19: the test of line 163 looks at all the parts of the path, those
    of the docs directory included.  When a part of the docs directory
    itself starts with a dot, every file below it counts as hidden, and
    [process_directory] does nothing but the backup. *)
Theorem X19_hidden_docs_dir_cleans_nothing (yaml : yaml_module)
  (py : runtime) (self : migrator) (w : world) :
  hidden (docs_dir self) = true ->
  process_directory yaml py self w = create_backup self w.
Proof.
  intros Hh. unfold process_directory.
  destruct (create_backup self w) as [w1| |]; try reflexivity.
  apply clean_each_hidden. intros p Hp.
  apply rglob_below in Hp as [Hp _].
  exact (hidden_below _ _ Hh Hp).
Qed.

Lemma X19_hidden_docs_dir_cleans_nothing_witness :
  let self := {| docs_dir := Sample.docs ++ [lit ".drafts"] |} in
  process_directory pyyaml utf8 self Sample.sample_world
  = create_backup self Sample.sample_world.
Proof.
  intros self.
  apply (X19_hidden_docs_dir_cleans_nothing pyyaml utf8 self
           Sample.sample_world).
  vm_compute. reflexivity.
Defined.



(** X21: [process_directory] changes nothing outside of the docs
    directory, but for the backup that it makes when none is there.  A
    backup that is there is never written again: a second run leaves the
    backup of the first run as it is. *)
Theorem X21_outside_docs_untouched (yaml : yaml_module) (py : runtime)
  (self : migrator) (w w' : world) (q : path) :
  process_directory yaml py self w = Done w' ->
  is_prefix (docs_dir self) q = false ->
  is_prefix (backup_dir self) q = false
  \/ path_exists (disk w) (backup_dir self) = true ->
  lookup (disk w') q = lookup (disk w) q.
Proof. apply process_directory_outside. Qed.

Lemma X21_outside_docs_untouched_witness :
  let w1 := Sample.after Sample.sample_world
              (process_directory pyyaml utf8 Sample.sample_migrator
                 Sample.sample_world) in
  let w2 := Sample.after w1
              (process_directory pyyaml utf8 Sample.sample_migrator w1) in
  let q := backup_dir Sample.sample_migrator ++ [lit "intro.md"] in
  lookup (disk w2) q = lookup (disk w1) q.
Proof.
  intros w1 w2 q.
  apply (X21_outside_docs_untouched pyyaml utf8 Sample.sample_migrator
           w1 w2 q).
  - vm_compute. reflexivity.
  - vm_compute. reflexivity.
  - right. vm_compute. reflexivity.
Defined.

(** X22: [main] stays in its two trees.  Whatever the state of the disk,
    a path that lies neither below the docs directory of line 167 nor
    below the backup directory next to it holds after [main] what it held
    before; and when the docs directory is not there, [main] changes
    nothing at all. *)
Theorem X22_main_stays_in_its_trees (yaml : yaml_module) (py : runtime)
  (w w' : world) (q : path) :
  main yaml py w = Done w' ->
  is_prefix main_docs_dir q = false ->
  is_prefix (backup_dir {| docs_dir := main_docs_dir |}) q = false ->
  lookup (disk w') q = lookup (disk w) q
  /\ (path_exists (disk w) main_docs_dir = false -> disk w' = disk w).
Proof.
  unfold main. intros H Hd Hb.
  destruct (path_exists (disk w) main_docs_dir) eqn:Ee; cbn [negb] in H.
  - destruct (process_directory yaml py {| docs_dir := main_docs_dir |} w)
      as [w1| |] eqn:Ep; try discriminate H.
    inversion H. cbn [disk say]. split; [|discriminate].
    apply (process_directory_outside yaml py _ w w1 q Ep); [exact Hd|].
    now left.
  - inversion H. now split.
Qed.

Lemma X22_main_stays_in_its_trees_witness :
  let w' := Sample.after Sample.home_world
              (main pyyaml utf8 Sample.home_world) in
  let q := Sample.home ++ [lit "notes.md"] in
  lookup (disk w') q = lookup (disk Sample.home_world) q
  /\ (path_exists (disk Sample.home_world) main_docs_dir = false ->
      disk w' = disk Sample.home_world).
Proof.
  intros w' q.
  apply (X22_main_stays_in_its_trees pyyaml utf8 Sample.home_world w' q);
    vm_compute; reflexivity.
Defined.

(** X23: the way of a Markdown file without frontmatter.  When the text
    of the file does not start with the line [---], the YAML library is
    not asked: the file is rewritten with the bytes of
    [process_mdx_content] of its text, and the line [Transformed] is
    logged. *)
Theorem X23_plain_markdown_rewritten (yaml : yaml_module) (py : runtime)
  (w : world) (file_path : path) (data data' : bytes)
  (before content : str) :
  lookup (disk w) file_path = Some (File data) ->
  decode_default py data = Some before ->
  decode_utf8 py data = Some content ->
  is_markdown file_path = true ->
  starts_with (lit "---\n") content = false ->
  encode_utf8 py (process_mdx_content content) = Some data' ->
  clean_file yaml py w file_path
  = Done (say {| disk := write_file (disk w) file_path data';
                 log := log w |} (Transformed file_path))
  /\ lookup (write_file (disk w) file_path data') file_path
     = Some (File data').
Proof.
  intros El Ed Eu Em Hs He. split.
  - unfold clean_file, is_binary_file, transform, clean_frontmatter.
    rewrite El, Ed, Eu, Em. cbn [negb].
    rewrite (frontmatter_match_none content (or_introl Hs)).
    now rewrite He.
  - now rewrite lookup_write_same, El.
Qed.

Lemma X23_plain_markdown_rewritten_witness :
  let p := Sample.home ++ [lit "notes.md"] in
  clean_file pyyaml utf8 Sample.home_world p
  = Done (say {| disk := write_file (disk Sample.home_world) p
                           (lit "# Notes\nText");
                 log := log Sample.home_world |} (Transformed p))
  /\ lookup (write_file (disk Sample.home_world) p (lit "# Notes\nText")) p
     = Some (File (lit "# Notes\nText")).
Proof.
  intros p.
  apply (X23_plain_markdown_rewritten pyyaml utf8 Sample.home_world p
           (lit "# Notes\n\n<Note>mine</Note>\nText\n") (lit "# Notes\nText")
           (lit "# Notes\n\n<Note>mine</Note>\nText\n")
           (lit "# Notes\n\n<Note>mine</Note>\nText\n"));
    vm_compute; reflexivity.
Defined.

(** X24: the backup is made once.  After [create_backup] has returned,
    the backup directory is there, and a second call returns without
    copying anything. *)
Theorem X24_backup_made_once (self : migrator) (w w1 : world) :
  create_backup self w = Done w1 ->
  path_exists (disk w1) (backup_dir self) = true
  /\ create_backup self w1 = Done w1.
Proof.
  intros H.
  assert (He : path_exists (disk w1) (backup_dir self) = true).
  { unfold create_backup in H.
    destruct (path_exists (disk w) (backup_dir self)) eqn:Ee.
    - now inversion H; subst.
    - destruct (lookup (disk w) (docs_dir self)) as [[|]|] eqn:El;
        try discriminate H.
      inversion H. cbn [disk say].
      unfold path_exists, lookup in Ee.
      destruct (find (at_path (backup_dir self)) (disk w)) eqn:Ef;
        [discriminate Ee|].
      unfold path_exists, lookup, copytree.
      rewrite (find_app_none _ _ _ Ef).
      rewrite <- (app_nil_r (backup_dir self)) at 1.
      rewrite find_copies, app_nil_r.
      unfold lookup in El.
      now destruct (find (at_path (docs_dir self)) (disk w)). }
  split; [exact He|]. unfold create_backup. now rewrite He.
Qed.

Lemma X24_backup_made_once_witness :
  let w1 := Sample.after Sample.sample_world
              (create_backup Sample.sample_migrator Sample.sample_world) in
  path_exists (disk w1) (backup_dir Sample.sample_migrator) = true
  /\ create_backup Sample.sample_migrator w1 = Done w1.
Proof.
  intros w1.
  apply (X24_backup_made_once Sample.sample_migrator Sample.sample_world w1).
  vm_compute. reflexivity.
Defined.

(* ================================================================== *)
(** * Which files are taken for Markdown, and which are never changed *)

Module SuffixFacts.

Lemma rfind_none c (s : str) : ~ In c s -> rfind c s = None.
Proof.
  induction s as [|x s IH]; intros H; [reflexivity|].
  cbn [rfind]. rewrite IH by (intros Hin; apply H; now right).
  destruct (x =? c)%N eqn:E; [|reflexivity].
  apply N.eqb_eq in E. subst x. exfalso. apply H. now left.
Qed.

Lemma rfind_last c (stem tail : str) :
  ~ In c tail -> rfind c (stem ++ c :: tail) = Some (length stem).
Proof.
  intros H. induction stem as [|x stem IH].
  - cbn [app rfind length]. now rewrite (rfind_none c tail H), N.eqb_refl.
  - cbn [app rfind length]. now rewrite IH.
Qed.

Lemma rfind_bound c (s : str) i : rfind c s = Some i -> i < length s.
Proof.
  revert i. induction s as [|x s IH]; intros i H; [discriminate H|].
  cbn [rfind] in H. destruct (rfind c s) as [j|].
  - inversion H. specialize (IH j eq_refl). simpl. lia.
  - destruct (x =? c)%N; [|discriminate H]. inversion H. simpl. lia.
Qed.

Lemma lower_char_dot c : lower_char c = 46%N -> c = 46%N.
Proof.
  unfold lower_char.
  destruct ((65 <=? c) && (c <=? 90))%N eqn:E; [|trivial].
  apply andb_true_iff in E as [E _]. apply N.leb_le in E. lia.
Qed.

Lemma lower_char_letter c (l : char) :
  l <> 46%N -> lower_char c = l -> c <> 46%N.
Proof. intros Hl H ->. now apply Hl. Qed.

(** An extension that reads [.md] or [.mdx] in lower case starts with a
    dot and holds no other dot. *)
Lemma extension_shape (ext : str) :
  lower ext = lit ".md" \/ lower ext = lit ".mdx" ->
  exists tail, ext = 46%N :: tail /\ ~ In 46%N tail /\ 2 <= length tail.
Proof.
  intros [H|H].
  - destruct ext as [|c0 [|c1 [|c2 [|c3 ext]]]]; try discriminate H.
    injection H as H0 H1 H2.
    apply lower_char_dot in H0. subst c0.
    exists [c1; c2]. repeat split; [|simpl; lia].
    intros [E|[E|[]]]; subst.
    + discriminate H1.
    + discriminate H2.
  - destruct ext as [|c0 [|c1 [|c2 [|c3 [|c4 ext]]]]]; try discriminate H.
    injection H as H0 H1 H2 H3.
    apply lower_char_dot in H0. subst c0.
    exists [c1; c2; c3]. repeat split; [|simpl; lia].
    intros [E|[E|[E|[]]]]; subst.
    + discriminate H1.
    + discriminate H2.
    + discriminate H3.
Qed.

Lemma is_markdown_lower (p : path) :
  is_markdown p = true
  <-> lower (suffix p) = lit ".md" \/ lower (suffix p) = lit ".mdx".
Proof.
  unfold is_markdown. cbn [existsb]. rewrite orb_false_r, orb_true_iff.
  now rewrite !str_eqb_eq.
Qed.

Lemma suffix_split (p : path) :
  suffix p <> [] ->
  exists stem, name p = stem ++ suffix p /\ stem <> [].
Proof.
  unfold suffix.
  destruct (rfind 46%N (name p)) as [i|] eqn:Er; [|congruence].
  destruct ((0 <? i) && (i <? length (name p) - 1)) eqn:Ec; [|congruence].
  intros _. apply andb_true_iff in Ec as [E0 _]. apply Nat.ltb_lt in E0.
  pose proof (rfind_bound _ _ _ Er) as Hb.
  exists (firstn i (name p)). split; [now rewrite firstn_skipn|].
  intros E. apply (f_equal (@length _)) in E.
  rewrite length_firstn, Nat.min_l in E by lia. simpl in E. lia.
Qed.

Lemma suffix_of (p : path) (stem tail : str) :
  name p = stem ++ 46%N :: tail -> stem <> [] -> ~ In 46%N tail ->
  1 <= length tail ->
  suffix p = 46%N :: tail.
Proof.
  intros Hn Hs Ht Hl. unfold suffix. rewrite Hn, (rfind_last _ _ _ Ht).
  assert (H0 : (0 <? length stem) = true).
  { apply Nat.ltb_lt. destruct stem; [congruence|simpl; lia]. }
  assert (H1 : (length stem <? length (stem ++ 46%N :: tail) - 1) = true).
  { apply Nat.ltb_lt. rewrite length_app. simpl. lia. }
  rewrite H0, H1. cbn [andb]. apply skipn_length_app.
Qed.

End SuffixFacts.

Import SuffixFacts.

Module KeepFacts.

Lemma lookup_in_keys (t : tree) (q : path) :
  lookup t q <> None <-> In q (map fst t).
Proof.
  unfold lookup. split.
  - destruct (find (at_path q) t) as [e|] eqn:E; [|congruence].
    intros _. pose proof (find_at_path _ _ _ E) as Hk.
    apply find_some in E as [Hin _]. apply in_map_iff. now exists e.
  - intros Hin. apply in_map_iff in Hin as [e [Hk Hin]].
    destruct (find (at_path q) t) as [e'|] eqn:E; [discriminate|].
    apply (find_none _ _ E) in Hin. unfold at_path in Hin.
    now rewrite Hk, path_eqb_refl in Hin.
Qed.

Lemma clean_each_other (yaml : yaml_module) (py : runtime)
  (ps : list path) : forall (w w' : world) (q : path),
  clean_each yaml py w ps = Done w' ->
  is_markdown q = false ->
  lookup (disk w') q = lookup (disk w) q.
Proof.
  induction ps as [|p ps IH]; intros w w' q H Hq; cbn [clean_each] in H.
  - now inversion H.
  - destruct (is_file (disk w) p && negb (hidden p)).
    + destruct (clean_file yaml py w p) as [w1| |] eqn:Ec; try discriminate.
      rewrite (IH _ _ q H Hq).
      destruct (clean_file_cases yaml py w w1 p Ec)
        as [data [_ [E|[data' [content [E [_ [_ Hm]]]]]]]].
      * now rewrite E.
      * rewrite E. apply lookup_write_other. intros ->. congruence.
    + exact (IH _ _ q H Hq).
Qed.

Lemma create_backup_keeps (self : migrator) (w w' : world) (q : path) n :
  create_backup self w = Done w' ->
  lookup (disk w) q = Some n -> lookup (disk w') q = Some n.
Proof.
  unfold create_backup. intros H Hq.
  destruct (path_exists (disk w) (backup_dir self)).
  - now inversion H; subst.
  - destruct (lookup (disk w) (docs_dir self)) as [[|]|]; try discriminate.
    inversion H. cbn [disk say]. unfold lookup, copytree in *.
    destruct (find (at_path q) (disk w)) as [e|] eqn:E; [|discriminate Hq].
    now rewrite (find_app_some _ _ _ _ E).
Qed.

End KeepFacts.

Import KeepFacts.

(** X25: which files are taken for Markdown.  The test of line 140 holds
    exactly when the name of the file is a stem that is not empty,
    followed by [.md] or [.mdx] in any mix of upper and lower case.  So
    [a.MD] and [.notes.mdx] are Markdown, and the files named [.md] and
    [README] are not. *)
Theorem X25_markdown_names (file_path : path) :
  is_markdown file_path = true
  <-> exists stem ext,
        name file_path = stem ++ ext /\ stem <> []
        /\ (lower ext = lit ".md" \/ lower ext = lit ".mdx").
Proof.
  rewrite is_markdown_lower. split.
  - intros H.
    destruct (suffix_split file_path) as [stem [Hn Hs]].
    { intros E. rewrite E in H. destruct H as [H|H]; discriminate H. }
    now exists stem, (suffix file_path).
  - intros [stem [ext [Hn [Hs He]]]].
    destruct (extension_shape ext He) as [tail [-> [Ht Hl]]].
    rewrite (suffix_of file_path stem tail Hn Hs Ht); [exact He|].
    apply Nat.le_trans with 2; [repeat constructor|exact Hl].
Qed.

(** X26: [process_directory] removes nothing and leaves alone what it
    does not take for a visible Markdown file.  A path that is there
    before the run is there after it; and when a part of the path starts
    with a dot, or the path has no Markdown suffix, it holds after the
    run what it held before, directories included. *)
Theorem X26_hidden_and_other_paths_kept (yaml : yaml_module) (py : runtime)
  (self : migrator) (w w' : world) (q : path) (n : node) :
  process_directory yaml py self w = Done w' ->
  lookup (disk w) q = Some n ->
  lookup (disk w') q <> None
  /\ (hidden q = true \/ is_markdown q = false ->
      lookup (disk w') q = Some n).
Proof.
  unfold process_directory. intros H Hq.
  destruct (create_backup self w) as [w1| |] eqn:E1; try discriminate H.
  pose proof (create_backup_keeps self w w1 q n E1 Hq) as H1.
  destruct (clean_each_frame yaml py _ _ _ H) as [K [_ Fh]].
  split.
  - apply lookup_in_keys. rewrite K. apply lookup_in_keys. congruence.
  - intros [Hh|Hm].
    + now rewrite (Fh q Hh).
    + now rewrite (clean_each_other yaml py _ _ _ q H Hm).
Qed.

Lemma X26_hidden_and_other_paths_kept_witness :
  let w' := Sample.after Sample.sample_world
              (process_directory pyyaml utf8 Sample.sample_migrator
                 Sample.sample_world) in
  let q := Sample.docs ++ [lit ".drafts"; lit "old.md"] in
  lookup (disk w') q <> None
  /\ (hidden q = true \/ is_markdown q = false ->
      lookup (disk w') q = Some (File (lit "<Tip>kept</Tip>\n"))).
Proof.
  intros w' q.
  apply (X26_hidden_and_other_paths_kept pyyaml utf8 Sample.sample_migrator
           Sample.sample_world w' q (File (lit "<Tip>kept</Tip>\n")));
    vm_compute; reflexivity.
Defined.
